(** * Dali-Distiller: grammar-line parsing and tiered schema compression

    A shallow embedding of the converters of the repository
    ([converter.py], [converter_v2.py], [converter_v3.py],
    [converter_final.py]) and of the extraction of fenced blocks and of
    function signatures of [extractor_v2.py], with the properties of their
    specification and further properties of the code.

    Text is a list of characters; a character is a code point in 0..255, the
    Latin-1 range of Unicode, on which the classes [\w] and [\s], the white
    space of [str.strip] and the letters of [str.lower] are those of Python.
    The regular expressions of the source are values of a small type of
    patterns, run by a backtracking matcher that follows the priorities of
    Python's [re] module: leftmost match, greedy and lazy repetition,
    optional parts tried first. *)

From Stdlib Require Import Ascii String List Bool Arith ZArith Lia.
From Stdlib Require Import Permutation Sorted.
Import ListNotations.

Definition str := list ascii.
Coercion list_ascii_of_string : string >-> list.
Open Scope string_scope.
Open Scope list_scope.
Open Scope nat_scope.

(** ** Python's string primitives *)

Module Py.

Definition code (c : ascii) : nat := nat_of_ascii c.

Definition between (lo hi : nat) (c : ascii) : bool :=
  (lo <=? code c) && (code c <=? hi).

(** [[A-Z]], [[a-z]], [[0-9]]. *)
Definition is_upper : ascii -> bool := between 65 90.
Definition is_lower : ascii -> bool := between 97 122.
Definition is_digit : ascii -> bool := between 48 57.

(** Alphanumeric code points above 127 ([str.isalnum] on Latin-1). *)
Definition is_latin1_alnum (c : ascii) : bool :=
  (code c =? 170) || between 178 179 c || (code c =? 181) ||
  between 185 186 c || between 188 190 c ||
  between 192 214 c || between 216 246 c || between 248 255 c.

(** [\w] of a [str] pattern. *)
Definition is_word (c : ascii) : bool :=
  is_upper c || is_lower c || is_digit c || Ascii.eqb c "_" ||
  is_latin1_alnum c.

(** [str.isspace], also [\s] of a [str] pattern. *)
Definition is_space (c : ascii) : bool :=
  between 9 13 c || between 28 32 c || (code c =? 133) || (code c =? 160).

(** [.] without [re.DOTALL]. *)
Definition is_dot (c : ascii) : bool := negb (Ascii.eqb c "010").

Definition lower_char (c : ascii) : ascii :=
  if is_upper c || between 192 214 c || between 216 222 c
  then ascii_of_nat (code c + 32) else c.

(** [s.lower()] *)
Definition lower (s : str) : str := map lower_char s.

Fixpoint lstrip (s : str) : str :=
  match s with
  | c :: s' => if is_space c then lstrip s' else s
  | [] => []
  end.

Definition rstrip (s : str) : str := rev (lstrip (rev s)).

(** [s.strip()] *)
Definition strip (s : str) : str := rstrip (lstrip s).

(** [s.startswith(p)] *)
Fixpoint startswith (s p : str) : bool :=
  match p, s with
  | [], _ => true
  | x :: p', y :: s' => Ascii.eqb y x && startswith s' p'
  | _ :: _, [] => false
  end.

(** [sub in s] *)
Fixpoint str_in (sub s : str) : bool :=
  startswith s sub ||
  match s with
  | [] => false
  | _ :: s' => str_in sub s'
  end.

(** [c in s] for a one-character [c]. *)
Definition char_in (c : ascii) (s : str) : bool := existsb (Ascii.eqb c) s.

(** [s.split(sep)] for a one-character separator. *)
Fixpoint split (sep : ascii) (s : str) : list str :=
  match s with
  | [] => [[]]
  | c :: s' =>
      if Ascii.eqb c sep then [] :: split sep s'
      else match split sep s' with
           | w :: ws => (c :: w) :: ws
           | [] => [[c]]
           end
  end.

(** [s.split(sep, 1)] when [sep] occurs in [s]: the text before the first
    separator and the text after it. *)
Fixpoint split1 (sep : ascii) (s : str) : str * str :=
  match s with
  | [] => ([], [])
  | c :: s' =>
      if Ascii.eqb c sep then ([], s')
      else let (x, y) := split1 sep s' in (c :: x, y)
  end.

(** [s.split()]: the maximal runs of characters that are not white space. *)
Fixpoint split_ws_from (cur : str) (s : str) : list str :=
  match s with
  | [] => match cur with [] => [] | _ => [rev cur] end
  | c :: s' =>
      if is_space c
      then match cur with
           | [] => split_ws_from [] s'
           | _ => rev cur :: split_ws_from [] s'
           end
      else split_ws_from (c :: cur) s'
  end.

Definition split_ws (s : str) : list str := split_ws_from [] s.

(** [sep.join(l)] *)
Fixpoint join (sep : str) (l : list str) : str :=
  match l with
  | [] => []
  | [x] => x
  | x :: l' => x ++ sep ++ join sep l'
  end.

Definition str_eqb (x y : str) : bool :=
  if list_eq_dec ascii_dec x y then true else false.

(** [x <= y] on [str]: code points, lexicographically. *)
Fixpoint str_leb (x y : str) : bool :=
  match x, y with
  | [], _ => true
  | _ :: _, [] => false
  | a :: x', b :: y' =>
      if code a <? code b then true
      else if code b <? code a then false
      else str_leb x' y'
  end.

Definition str_le (x y : str) : Prop := str_leb x y = true.

Fixpoint insert_sorted (x : str) (l : list str) : list str :=
  match l with
  | [] => [x]
  | y :: l' => if str_leb x y then x :: l else y :: insert_sorted x l'
  end.

(** [sorted(l)]; for a set [s], [sorted(list(s))] is [sorted s] whatever the
    order of [list(s)] (lemma [sorted_order_independent]). *)
Definition sorted (l : list str) : list str :=
  fold_right insert_sorted [] l.

(** A [set] of strings is kept as the list of its elements, each once, in
    the order in which they were added. The order in which Python iterates
    over the set is another matter: see [set_order]. *)
Definition pyset := list str.

Definition set_add (x : str) (s : pyset) : pyset :=
  if existsb (str_eqb x) s then s else s ++ [x].

(** [s.update(l)] *)
Definition set_update (s : pyset) (l : list str) : pyset :=
  fold_left (fun acc x => set_add x acc) l s.

(** [d[key] = v] on a dict, kept in insertion order as Python keeps it (the
    output is written in this order): the value of an existing key is
    replaced in place, a new key goes last. *)
Fixpoint dict_set {V : Type} (key : str) (v : V) (d : list (str * V))
  : list (str * V) :=
  match d with
  | [] => [(key, v)]
  | (k, w) :: d' =>
      if str_eqb k key then (k, v) :: d' else (k, w) :: dict_set key v d'
  end.

(** [d.get(key)] *)
Fixpoint dict_get {V : Type} (key : str) (d : list (str * V)) : option V :=
  match d with
  | [] => None
  | (k, w) :: d' => if str_eqb k key then Some w else dict_get key d'
  end.

End Py.

(** ** Regular expressions *)

Module Re.
Import Py.

(** The patterns of the source: the empty pattern, a character, a class of
    characters, a class repeated [min] times or more (greedy, or lazy as in
    [.*?]), a sequence, an optional part [(?:r)?], the group number [i], and
    the assertions [\b], [^] and [$]. *)
Inductive re : Type :=
| Eps
| Lit (c : ascii)
| Cls (p : ascii -> bool)
| Many (p : ascii -> bool) (min : nat) (greedy : bool)
| Seq (r1 r2 : re)
| Opt (r : re)
| Grp (i : nat) (r : re)
| Bnd
| Bol
| Eol.

(** [p+], [p*], [p{n,}] and the lazy [p*?]. *)
Definition plus (p : ascii -> bool) : re := Many p 1 true.
Definition star (p : ascii -> bool) : re := Many p 0 true.
Definition star_lazy (p : ascii -> bool) : re := Many p 0 false.

Definition cat (rs : list re) : re := fold_right Seq Eps rs.

(** A literal run of characters. *)
Definition lits (s : str) : re := cat (map Lit s).

(** The groups that took part in a match, last set first. *)
Definition caps := list (nat * str).

Fixpoint group (i : nat) (g : caps) : option str :=
  match g with
  | [] => None
  | (j, x) :: g' => if j =? i then Some x else group i g'
  end.

(** A position in the subject: the text before it, nearest character first,
    and the text after it. *)
Definition out : Type := str * str * caps.
Definition cont : Type := str -> str -> caps -> option out.

Definition head_word (s : str) : bool :=
  match s with
  | c :: _ => is_word c
  | [] => false
  end.

(** [\b]: exactly one side of the position is a word character. *)
Definition boundary (b a : str) : bool := xorb (head_word b) (head_word a).

(** The text between the position that has [b] before it and a later
    position that has [b'] before it. *)
Definition consumed (b b' : str) : str :=
  rev (firstn (length b' - length b) b').

(** Greedy repetition of a class: take one more character when possible, and
    fall back to stopping here. *)
Fixpoint many_greedy (p : ascii -> bool) (k : cont) (min : nat)
    (b a : str) (g : caps) {struct a} : option out :=
  let stop := match min with 0 => k b a g | S _ => None end in
  match a with
  | c :: a' =>
      if p c
      then match many_greedy p k (pred min) (c :: b) a' g with
           | Some o => Some o
           | None => stop
           end
      else stop
  | [] => stop
  end.

(** Lazy repetition of a class: stop here when the rest matches, and take one
    more character otherwise. *)
Fixpoint many_lazy (p : ascii -> bool) (k : cont) (min : nat)
    (b a : str) (g : caps) {struct a} : option out :=
  let more :=
    match a with
    | c :: a' => if p c then many_lazy p k (pred min) (c :: b) a' g else None
    | [] => None
    end in
  match min with
  | 0 => match k b a g with
         | Some o => Some o
         | None => more
         end
  | S _ => more
  end.

(** The backtracking matcher, in continuation-passing style: [m r k b a g]
    matches [r] at the position [(b, a)] and hands every way to do so, in
    the order of preference, to [k] until [k] accepts one. *)
Fixpoint m (r : re) (k : cont) (b a : str) (g : caps) : option out :=
  match r with
  | Eps => k b a g
  | Lit c =>
      match a with
      | x :: a' => if Ascii.eqb x c then k (x :: b) a' g else None
      | [] => None
      end
  | Cls p =>
      match a with
      | x :: a' => if p x then k (x :: b) a' g else None
      | [] => None
      end
  | Many p min true => many_greedy p k min b a g
  | Many p min false => many_lazy p k min b a g
  | Seq r1 r2 => m r1 (m r2 k) b a g
  | Opt r1 =>
      match m r1 k b a g with
      | Some o => Some o
      | None => k b a g
      end
  | Grp i r1 =>
      m r1 (fun b' a' g' => k b' a' ((i, consumed b b') :: g')) b a g
  | Bnd => if boundary b a then k b a g else None
  | Bol => match b with [] => k b a g | _ :: _ => None end
  | Eol =>
      match a with
      | [] => k b a g
      | [c] => if Ascii.eqb c "010" then k b a g else None
      | _ => None
      end
  end.

Definition accept : cont := fun b a g => Some (b, a, g).

(** A match of [r] that starts at the position [(b, a)]. *)
Definition match_at (r : re) (b a : str) : option out := m r accept b a [].

(** A match object: the matched text and the groups. *)
Record mobj : Type := { whole : str; groups : caps }.

Definition mk_mobj (b : str) (o : out) : mobj :=
  let '(b', _, g) := o in {| whole := consumed b b'; groups := g |}.

(** [mo.group(i)], the empty string standing for a group that took no part
    (as [findall] reports it). *)
Definition group_or_empty (i : nat) (mo : mobj) : str :=
  match group i (groups mo) with
  | Some x => x
  | None => []
  end.

(** [re.match(r, s)] *)
Definition re_match (r : re) (s : str) : option mobj :=
  option_map (mk_mobj []) (match_at r [] s).

(** [re.search(r, s)]: the match at the leftmost position that has one. *)
Fixpoint search_from (r : re) (b a : str) : option mobj :=
  match match_at r b a with
  | Some o => Some (mk_mobj b o)
  | None =>
      match a with
      | c :: a' => search_from r (c :: b) a'
      | [] => None
      end
  end.

Definition search (r : re) (s : str) : option mobj := search_from r [] s.

(** The successive matches of [r], left to right and without overlap.
    [skip] counts the characters of the last match that are still to be
    passed. No pattern of the converters matches the empty string. *)
Fixpoint finditer_from (r : re) (skip : nat) (b a : str) : list mobj :=
  match a with
  | [] =>
      match skip with
      | 0 => match match_at r b [] with
             | Some o => [mk_mobj b o]
             | None => []
             end
      | S _ => []
      end
  | c :: a' =>
      match skip with
      | S n => finditer_from r n (c :: b) a'
      | 0 =>
          match match_at r b a with
          | Some o =>
              mk_mobj b o
                :: finditer_from r (pred (length (whole (mk_mobj b o))))
                     (c :: b) a'
          | None => finditer_from r 0 (c :: b) a'
          end
      end
  end.

Definition finditer (r : re) (s : str) : list mobj := finditer_from r 0 [] s.

(** [re.findall(r, s)] for a pattern without group: the matched texts. *)
Definition findall0 (r : re) (s : str) : list str :=
  map whole (finditer r s).

(** [re.findall(r, s)] for a pattern with one group: the texts of group 1. *)
Definition findall1 (r : re) (s : str) : list str :=
  map (group_or_empty 1) (finditer r s).

(** [re.sub(r, repl, s)] for a replacement text without escapes. *)
Fixpoint sub_from (r : re) (repl : str) (skip : nat) (b a : str) : str :=
  match a with
  | [] =>
      match skip with
      | 0 => match match_at r b [] with
             | Some _ => repl
             | None => []
             end
      | S _ => []
      end
  | c :: a' =>
      match skip with
      | S n => sub_from r repl n (c :: b) a'
      | 0 =>
          match match_at r b a with
          | Some o =>
              match length (whole (mk_mobj b o)) with
              | 0 => repl ++ c :: sub_from r repl 0 (c :: b) a'
              | S n => repl ++ sub_from r repl n (c :: b) a'
              end
          | None => c :: sub_from r repl 0 (c :: b) a'
          end
      end
  end.

Definition sub (r : re) (repl s : str) : str := sub_from r repl 0 [] s.

(** The declarative reading of a pattern: [matches r b a g b' a' g'] when
    [r] can match from the position [(b, a)] to the position [(b', a')],
    taking the groups from [g] to [g']. The matcher finds such a match
    (lemma [m_sound]) whenever there is one (lemma [m_complete]). *)
Inductive matches : re -> str -> str -> caps -> str -> str -> caps -> Prop :=
| M_eps b a g : matches Eps b a g b a g
| M_lit c b a g : matches (Lit c) b (c :: a) g (c :: b) a g
| M_cls p c b a g :
    p c = true -> matches (Cls p) b (c :: a) g (c :: b) a g
| M_many p min gr x b a g :
    forallb p x = true -> min <= length x ->
    matches (Many p min gr) b (x ++ a) g (rev x ++ b) a g
| M_seq r1 r2 b a g b1 a1 g1 b2 a2 g2 :
    matches r1 b a g b1 a1 g1 -> matches r2 b1 a1 g1 b2 a2 g2 ->
    matches (Seq r1 r2) b a g b2 a2 g2
| M_opt_some r b a g b' a' g' :
    matches r b a g b' a' g' -> matches (Opt r) b a g b' a' g'
| M_opt_none r b a g : matches (Opt r) b a g b a g
| M_grp i r b a g b' a' g' :
    matches r b a g b' a' g' ->
    matches (Grp i r) b a g b' a' ((i, consumed b b') :: g')
| M_bnd b a g : boundary b a = true -> matches Bnd b a g b a g
| M_bol a g : matches Bol [] a g [] a g
| M_eol_end b g : matches Eol b [] g b [] g
| M_eol_nl b g : matches Eol b ["010"%char] g b ["010"%char] g.

(** What a match object is: a match of the pattern at a position. *)
Definition match_here (r : re) (b a : str) (mo : mobj) : Prop :=
  exists x a' g',
    a = x ++ a' /\ matches r b a [] (rev x ++ b) a' g' /\
    mo = {| whole := x; groups := g' |}.

(** The match objects of [finditer] and [search] are matches at some position
    of the subject. *)
Definition match_in (r : re) (s : str) (mo : mobj) : Prop :=
  exists b a, s = rev b ++ a /\ match_here r b a mo.

(** A pattern [\b(p{min,})\b], with or without the group. *)
Definition word_pattern (p : ascii -> bool) (min : nat) (grouped : bool) : re :=
  cat [Bnd; if grouped then Grp 1 (Many p min true) else Many p min true; Bnd].

(** The uppercase runs and the like: [w] occurs in [s] as a run of at least
    [min] characters of the class [p], with no word character just before it
    and none just after. *)
Definition word_run (p : ascii -> bool) (min : nat) (s w : str) : Prop :=
  exists pre post,
    s = pre ++ w ++ post /\ min <= length w /\ forallb p w = true /\
    head_word (rev pre) = false /\ head_word post = false.

End Re.

(** Python's truth value of a list: a list that is empty counts as absent. *)
Definition nonempty {A : Type} (l : list A) : option (list A) :=
  match l with
  | [] => None
  | _ :: _ => Some l
  end.

Definition is_empty {A : Type} (l : list A) : bool :=
  match l with
  | [] => true
  | _ :: _ => false
  end.

(** ** converter.py: [BNFToYAMLConverter] *)

Module Converter.
Import Py Re.

Definition not_bracket (c : ascii) : bool :=
  negb (Ascii.eqb c "[" || Ascii.eqb c "]").

(** [r'\[\s*([^[\]]+)\s*\]'] *)
Definition optional_pattern : re :=
  cat [Lit "["; star is_space; Grp 1 (plus not_bracket); star is_space;
       Lit "]"].

(** [r'@(\w+)'] *)
Definition var_pattern : re := cat [Lit "@"; Grp 1 (plus is_word)].

(** [r'\b[A-Z]{2,}\b'] *)
Definition keyword_pattern : re := cat [Bnd; Many is_upper 2 true; Bnd].

(** The dict that [parse_bnf_line] returns; a key that is not set is
    [None]. *)
Record ParsedLine : Type := {
  optional_choices : option (list str);
  optional : option str;
  variables : option (list str);
  keywords : option (list str)
}.

Definition empty_parsed : ParsedLine :=
  {| optional_choices := None; optional := None; variables := None;
     keywords := None |}.

(** [if parsed:] *)
Definition parsed_nonempty (r : ParsedLine) : bool :=
  match optional_choices r, optional r, variables r, keywords r with
  | None, None, None, None => false
  | _, _, _, _ => true
  end.

(** The choices of a bracketed span with [|]: split, stripped, without the
    empty ones and those that start with [@]. *)
Definition choices_of (mt : str) : list str :=
  filter (fun c => negb (is_empty c) && negb (startswith c "@"))
         (map strip (split "|" mt)).

(** The body of the loop over [optional_matches]. *)
Definition record_optional (result : ParsedLine) (mt : str) : ParsedLine :=
  if char_in "|" mt then
    match choices_of mt with
    | [] => result
    | choices =>
        {| optional_choices := Some choices; optional := optional result;
           variables := variables result; keywords := keywords result |}
    end
  else if negb (startswith mt "@") then
    {| optional_choices := optional_choices result;
       optional := Some (strip mt);
       variables := variables result; keywords := keywords result |}
  else result.

(** The choice groups of the spans of a line, in the order of the spans. *)
Definition choice_groups (spans : list str) : list (list str) :=
  filter (fun cs => negb (is_empty cs))
         (map choices_of (filter (char_in "|") spans)).

(** [if not any(keyword in opt for opt in optional_matches)] *)
Definition outside_spans (optional_matches : list str) (keyword : str)
  : bool :=
  negb (existsb (fun opt => str_in keyword opt) optional_matches).

Definition parse_bnf_line (line : str) : ParsedLine :=
  let line := strip line in
  if is_empty line then empty_parsed else
  let optional_matches := findall1 optional_pattern line in
  let result := fold_left record_optional optional_matches empty_parsed in
  let vars := findall1 var_pattern line in
  let kws := findall0 keyword_pattern line in
  let filtered_keywords := filter (outside_spans optional_matches) kws in
  {| optional_choices := optional_choices result;
     optional := optional result;
     variables := nonempty vars;
     keywords := nonempty filtered_keywords |}.

(** The dict that [convert_statement_syntax] returns. *)
Record StatementStructure : Type := {
  syntax : str;
  components : list (str * str);
  st_variables : option (list str);
  st_keywords : option (list str);
  st_optional : option (list (list str))
}.

Definition from_option {A : Type} (o : option (list A)) : list A :=
  match o with
  | Some l => l
  | None => []
  end.

(** What one parsed line appends to [optional_components]. *)
Definition optional_components_of (parsed : ParsedLine) : list (list str) :=
  match optional_choices parsed with Some c => [c] | None => [] end ++
  match optional parsed with Some o => [[o]] | None => [] end.

Definition convert_statement_syntax (syntax_block : str)
  : StatementStructure :=
  let lines := split "010" syntax_block in
  let parsed_lines := filter parsed_nonempty (map parse_bnf_line lines) in
  let all_variables :=
    fold_left (fun s p => set_update s (from_option (variables p)))
              parsed_lines [] in
  let all_keywords :=
    fold_left (fun s p => set_update s (from_option (keywords p)))
              parsed_lines [] in
  let optional_components := flat_map optional_components_of parsed_lines in
  {| syntax := syntax_block;
     components := [];
     st_variables := option_map sorted (nonempty all_variables);
     st_keywords := option_map sorted (nonempty all_keywords);
     st_optional := nonempty optional_components |}.

(** One value of [raw_data]. *)
Record RawEntry : Type := {
  syntax_blocks : list str;
  title : option str;
  description : option str;
  sidebar_label : option str
}.

Record Metadata : Type := {
  m_title : str;
  m_description : str;
  m_sidebar_label : str
}.

(** [data.get(key, '')] *)
Definition get_or_empty (o : option str) : str :=
  match o with
  | Some x => x
  | None => []
  end.

(** What [process_statements] stores under the name of a statement: the
    structure of its only syntax block, or the list of the structures of its
    blocks under ['variants'], and the metadata beside it. *)
Inductive StatementNode : Type :=
| Single (s : StatementStructure) (metadata : Metadata)
| Variants (variants : list StatementStructure) (metadata : Metadata).

Definition process_statement (data : RawEntry) : StatementNode :=
  let metadata :=
    {| m_title := get_or_empty (title data);
       m_description := get_or_empty (description data);
       m_sidebar_label := get_or_empty (sidebar_label data) |} in
  match syntax_blocks data with
  | [block] => Single (convert_statement_syntax block) metadata
  | blocks => Variants (map convert_statement_syntax blocks) metadata
  end.

End Converter.

(** ** extractor_v2.py: [SurrealQLSyntaxExtractorV2] *)

Module ExtractorV2.
Import Py Re.

Definition lower_or_underscore (c : ascii) : bool :=
  is_lower c || Ascii.eqb c "_".

(** [r'^([a-z_]+)::([a-z_]+)\((.*?)\)(?:\s*->\s*(.+))?$'] *)
Definition signature_pattern : re :=
  cat [Bol; Grp 1 (plus lower_or_underscore); Lit ":"; Lit ":";
       Grp 2 (plus lower_or_underscore); Lit "("; Grp 3 (star_lazy is_dot);
       Lit ")";
       Opt (cat [star is_space; Lit "-"; Lit ">"; star is_space;
                 Grp 4 (plus is_dot)]);
       Eol].

(** A parameter: [{'name': ..., 'type': ...}] or [{'type': ...}]. *)
Record Param : Type := { pname : option str; ptype : option str }.

Record Signature : Type := {
  raw : str;
  namespace : str;
  function : str;
  parameters : list Param;
  return_type : option str
}.

(** The state of the loop of [_split_params]: the parameters so far, the
    current one (last character first) and the bracket depth, an integer that
    the source lets fall below zero. *)
Definition split_step (st : list str * str * Z) (char : ascii)
  : list str * str * Z :=
  let '(params, current, depth) := st in
  if Ascii.eqb char "," && (depth =? 0)%Z
  then (params ++ [strip (rev current)], [], depth)
  else if char_in char "([{<" then (params, char :: current, (depth + 1)%Z)
  else if char_in char ")]}>" then (params, char :: current, (depth - 1)%Z)
  else (params, char :: current, depth).

Definition _split_params (params_str : str) : list str :=
  let '(params, current, _) :=
    fold_left split_step params_str ([], [], 0%Z) in
  match current with
  | [] => params
  | _ :: _ => params ++ [strip (rev current)]
  end.

Definition parse_param (param : str) : option Param :=
  let param := strip param in
  if is_empty param then None
  else if char_in ":" param
  then let (name, ty) := split1 ":" param in
       Some {| pname := Some (strip name); ptype := Some (strip ty) |}
  else Some {| pname := None; ptype := Some param |}.

Fixpoint keep_some {A : Type} (l : list (option A)) : list A :=
  match l with
  | [] => []
  | Some x :: l' => x :: keep_some l'
  | None :: l' => keep_some l'
  end.

Definition parse_function_signature (signature : str) : option Signature :=
  match re_match signature_pattern (strip signature) with
  | None => None
  | Some mo =>
      let params_str := group_or_empty 3 mo in
      Some {| raw := signature;
              namespace := group_or_empty 1 mo;
              function := group_or_empty 2 mo;
              parameters :=
                keep_some (map parse_param (_split_params params_str));
              return_type := option_map strip (group 4 (groups mo)) |}
  end.

(** [.] under [re.DOTALL]: any character. *)
Definition any_char (c : ascii) : bool := true.

(** The three backquotes that open and close a fenced block. *)
Definition fence : str := "```".

(** The text [lang title="text"] that follows the opening backquotes. *)
Definition titled (lang text : str) : str :=
  lang ++ " title=" ++ ["034"%char] ++ text ++ ["034"%char].

(** [r'```info\n(.*?)\n```'], used with [re.DOTALL]. *)
Definition fenced_pattern (info : str) : re :=
  cat [lits (fence ++ info ++ ["010"%char]); Grp 1 (star_lazy any_char);
       lits ("010"%char :: fence)].

(** The opening lines that [extract_syntax_blocks] looks for, in its order. *)
Definition syntax_infos : list str :=
  [titled "surql" "SurrealQL Syntax"; titled "syntax" "SurrealQL Syntax";
   ("syntax" : str)].

Definition extract_syntax_blocks (content : str) : list str :=
  flat_map (fun info => map strip (findall1 (fenced_pattern info) content))
           syntax_infos.

Definition api_definition_info : str := titled "surql" "API DEFINITION".

Definition extract_api_definition_blocks (content : str) : list Signature :=
  keep_some
    (map (fun mt => parse_function_signature (strip mt))
         (findall1 (fenced_pattern api_definition_info) content)).

(** The keys of the dict that [extract_operators_from_mdx] fills, in the order
    in which it sets them. *)
Definition operator_categories : list str :=
  [("logical" : str); ("comparison" : str); ("mathematical" : str);
   ("graph" : str); ("set" : str); ("fuzzy" : str); ("null_handling" : str);
   ("other" : str)].

End ExtractorV2.

(** ** converter_v3.py: [UltraCompressedConverter] *)

(** A value of [raw_data['statements']], as the converters of versions 2, 3
    and final read it: ['syntax'] may be missing. *)
Record StmtData : Type := {
  stmt_syntax : option (list str);
  stmt_title : option str;
  stmt_description : option str
}.

(** [not stmt_data.get('syntax')]: the list of syntax blocks is missing or
    empty. *)
Definition no_syntax (stmt_data : StmtData) : Prop :=
  stmt_syntax stmt_data = None \/ stmt_syntax stmt_data = Some [].

(** [name[:3]] *)
Definition first3 (name : str) : str := firstn 3 name.

(** A value of [raw_data['functions']], as the converters read it:
    ['functions'] may be missing. *)
Record NsData : Type := {
  ns_functions : option (list ExtractorV2.Signature)
}.

(** An operator of [raw_data['operators'][category]], as the converters read
    it: ['alternative'] may be missing. *)
Record Operator : Type := {
  op_symbol : str;
  op_description : str;
  op_alternative : option str
}.

Module ConverterV3.
Import Py Re ExtractorV2.

Definition type_map : list (str * str) :=
  [("array" : str, "a" : str); ("string" : str, "s" : str);
   ("number" : str, "n" : str); ("bool" : str, "b" : str);
   ("object" : str, "o" : str); ("any" : str, "*" : str);
   ("duration" : str, "d" : str); ("datetime" : str, "t" : str);
   ("record" : str, "r" : str); ("geometry" : str, "g" : str);
   ("uuid" : str, "u" : str); ("int" : str, "i" : str);
   ("float" : str, "f" : str); ("value" : str, "v" : str);
   ("null" : str, "0" : str); ("bytes" : str, "y" : str)].

(** [prefix(.+)>]: [r'array<(.+)>'] and [r'option<(.+)>'] *)
Definition inner_pattern (prefix : str) : re :=
  cat [lits prefix; Grp 1 (plus is_dot); Lit ">"].
Definition array_pattern : re := inner_pattern "array<".
Definition option_pattern : re := inner_pattern "option<".

(** [re.search(pattern, type_lower)] behind its [startswith] test. *)
Definition inner_of (prefix : str) (pattern : re) (type_lower : str)
  : option str :=
  if startswith type_lower prefix
  then option_map (group_or_empty 1) (search pattern type_lower)
  else None.

(** [compress_type] calls itself on the text of group 1; [fuel] bounds the
    depth of these calls. *)
Fixpoint compress_type_fuel (fuel : nat) (type_str : str) : option str :=
  match fuel with
  | 0 => None
  | S fuel' =>
      if is_empty type_str then Some ("*" : str) else
      let type_lower := lower type_str in
      match inner_of "array<" array_pattern type_lower with
      | Some inner =>
          option_map (app "a") (compress_type_fuel fuel' inner)
      | None =>
          match inner_of "option<" option_pattern type_lower with
          | Some inner =>
              option_map (app "?") (compress_type_fuel fuel' inner)
          | None =>
              Some (match dict_get type_lower type_map with
                    | Some code => code
                    | None => "*" : str
                    end)
          end
      end
  end.

(** The length of the text is fuel enough (lemma [compress_type_total]). *)
Definition compress_type (type_str : str) : str :=
  match compress_type_fuel (S (length type_str)) type_str with
  | Some code => code
  | None => []
  end.

(** [r'\b([A-Z]{2,})\b'] *)
Definition keyword_pattern : re :=
  cat [Bnd; Grp 1 (Many is_upper 2 true); Bnd].

(** [words = re.findall(...); keywords.extend(w for w in words if not
    w.startswith('@'))] over the first three lines. *)
Definition line_keywords (line : str) : list str :=
  filter (fun w => negb (startswith w "@")) (findall1 keyword_pattern line).

Definition main_keywords (syntax : str) : list str :=
  flat_map line_keywords (firstn 3 (split "010" syntax)).

(** [if k not in essential and len(essential) < 3: essential.append(k)] *)
Definition keep_essential (essential : list str) (k : str) : list str :=
  if negb (existsb (str_eqb k) essential) && (length essential <? 3)
  then essential ++ [k] else essential.

(** [None], or the list under ['k']. *)
Definition compress_statement (stmt_name : str) (stmt_data : StmtData)
  : option (list str) :=
  match stmt_syntax stmt_data with
  | Some (syntax :: _) =>
      Some (fold_left keep_essential (main_keywords syntax) [])
  | _ => None
  end.

(** [p.get('type', '*')] *)
Definition type_or_star (p : Param) : str :=
  match ptype p with
  | Some t => t
  | None => "*"
  end.

Definition _compress_signature (sig : Signature) : str :=
  let params :=
    match parameters sig with
    | [] => []
    | ps => concat (map (fun p => compress_type (type_or_star p)) ps)
    end in
  let ret :=
    match return_type sig with
    | Some (c :: t) => compress_type (c :: t)
    | _ => "*" : str
    end in
  join ">" [params; ret].

Definition abbreviations : list (str * str) :=
  [("select" : str, "sel" : str); ("insert" : str, "ins" : str);
   ("update" : str, "upd" : str); ("delete" : str, "del" : str);
   ("create" : str, "cre" : str); ("alter" : str, "alt" : str);
   ("define" : str, "def" : str); ("remove" : str, "rem" : str);
   ("relate" : str, "rel" : str); ("return" : str, "ret" : str);
   ("continue" : str, "cont" : str); ("database" : str, "db" : str);
   ("namespace" : str, "ns" : str); ("function" : str, "fn" : str);
   ("indexes" : str, "idx" : str); ("table" : str, "tbl" : str)].

(** [abbreviations.get(p, p[:3])] *)
Definition abbreviate (table : list (str * str)) (p : str) : str :=
  match dict_get p table with
  | Some short => short
  | None => first3 p
  end.

Definition _abbreviate_statement (stmt_name : str) : str :=
  if char_in "/" stmt_name
  then join "/" (map (abbreviate abbreviations) (split "/" stmt_name))
  else abbreviate abbreviations stmt_name.

(** The loop of [convert_all] over the statements: the dict under
    ['stmts']. *)
Definition convert_all_statements (statements : list (str * StmtData))
  : list (str * list str) :=
  fold_left
    (fun stmts '(stmt_name, stmt_data) =>
       match compress_statement stmt_name stmt_data with
       | Some compressed =>
           dict_set (_abbreviate_statement stmt_name) compressed stmts
       | None => stmts
       end)
    statements [].

(** [func_groups[func['function']].append(func)] on a [defaultdict(list)]. *)
Definition append_to_group (groups : list (str * list Signature))
    (func : Signature) : list (str * list Signature) :=
  dict_set (function func)
           (match dict_get (function func) groups with
            | Some overloads => overloads
            | None => []
            end ++ [func])
           groups.

Definition func_groups (functions : list Signature)
  : list (str * list Signature) :=
  fold_left append_to_group functions [].

(** A value of the dict that [compress_function] returns: the code of the
    only signature of a function, or the list of the codes of its
    overloads. *)
Inductive Compressed : Type :=
| One (code : str)
| Overloads (codes : list str).

Definition compress_overloads (overloads : list Signature) : Compressed :=
  match overloads with
  | [sig] => One (_compress_signature sig)
  | _ => Overloads (map _compress_signature overloads)
  end.

Definition compress_function (namespace : str) (functions : list Signature)
  : list (str * Compressed) :=
  fold_left
    (fun compressed '(func_name, overloads) =>
       dict_set func_name (compress_overloads overloads) compressed)
    (func_groups functions) [].

(** [namespace[:3] if len(namespace) > 3 else namespace] *)
Definition ns_key (namespace : str) : str :=
  if 3 <? length namespace then first3 namespace else namespace.

(** The loop of [convert_all] over the functions: the dict under
    ['funcs']. *)
Definition convert_all_functions (functions : list (str * NsData))
  : list (str * list (str * Compressed)) :=
  fold_left
    (fun funcs '(namespace, ns_data) =>
       match ns_functions ns_data with
       | Some (f :: fs) =>
           dict_set (ns_key namespace) (compress_function namespace (f :: fs))
                    funcs
       | _ => funcs
       end)
    functions [].

(** [f"{op['symbol']}|{op['alternative']}"] when the operator has an
    alternative, its symbol otherwise. *)
Definition operator_code (op : Operator) : str :=
  match op_alternative op with
  | Some (c :: t) => op_symbol op ++ "|" ++ c :: t
  | _ => op_symbol op
  end.

Definition compress_operators (operators : list (str * list Operator))
  : list (str * list str) :=
  fold_left
    (fun compressed '(category, ops) =>
       match ops with
       | [] => compressed
       | _ :: _ => dict_set (first3 category) (map operator_code ops) compressed
       end)
    operators [].

End ConverterV3.

(** ** converter_v2.py: [EnhancedSchemaConverter] *)

(** [list(s)] for a set [s]: the order in which a process iterates over a set
    of strings follows the hashes of its elements, which change from one
    process to the next. A run is therefore given the order of its process:
    a function from a set to a list of its elements. *)
Definition set_order : Type := Py.pyset -> list str.

(** An order lists the elements of the set, each once. *)
Definition admissible (order : set_order) : Prop :=
  forall s : Py.pyset, Permutation (order s) s.

Module ConverterV2.
Import Py Re.

(** The dict that [_parse_statement_syntax] returns. *)
Record Parsed : Type := { raw : str; lines : list str }.

Definition _parse_statement_syntax (syntax : str) : Parsed :=
  {| raw := syntax;
     lines :=
       map strip
           (filter (fun line => negb (is_empty (strip line)))
                   (split "010" syntax)) |}.

Definition upper_or_underscore (c : ascii) : bool :=
  is_upper c || Ascii.eqb c "_".

(** [r'\b([A-Z_]+)\b'] *)
Definition keyword_pattern : re :=
  cat [Bnd; Grp 1 (plus upper_or_underscore); Bnd].

(** [if not match.startswith('@') and len(match) > 1] *)
Definition is_keyword (mt : str) : bool :=
  negb (startswith mt "@") && (1 <? length mt).

Definition _extract_keywords (parsed : Parsed) : pyset :=
  fold_left
    (fun keywords line =>
       set_update keywords
                  (filter is_keyword (findall1 keyword_pattern line)))
    (lines parsed) [].

(** [r'@(\w+)'] *)
Definition var_pattern : re := cat [Lit "@"; Grp 1 (plus is_word)].

Definition _extract_variables (parsed : Parsed) : pyset :=
  fold_left
    (fun variables line => set_update variables (findall1 var_pattern line))
    (lines parsed) [].

(** [r'\[([^\]]+)\]'] *)
Definition opt_pattern : re :=
  cat [Lit "["; Grp 1 (plus (fun c => negb (Ascii.eqb c "]"))); Lit "]"].

Definition _extract_optional_parts (parsed : Parsed) : pyset :=
  fold_left
    (fun optional line =>
       set_update optional
                  (filter (fun cleaned => negb (is_empty cleaned))
                          (map strip (findall1 opt_pattern line))))
    (lines parsed) [].

(** A value of [statements]. *)
Record Statement : Type := {
  keywords : list str;
  variables : list str;
  optional : list str
}.

(** A value of the routes of the statements. *)
Record Route : Type := { route_keywords : list str; path : str }.

(** [stmt_name.replace('/', '_')] *)
Definition route_key (stmt_name : str) : str :=
  map (fun c => if Ascii.eqb c "/" then "_"%char else c) stmt_name.

Definition _add_statement_route (order : set_order) (stmt_name : str)
    (kws : pyset) (routes : list (str * Route)) : list (str * Route) :=
  dict_set (route_key stmt_name)
           {| route_keywords := firstn 5 (order kws);
              path := "statements." ++ stmt_name |}
           routes.

(** [convert_statements]: the dict [statements] and the routes of the
    statements. *)
Definition convert_statements (order : set_order)
    (statements : list (str * StmtData))
  : list (str * Statement) * list (str * Route) :=
  fold_left
    (fun '(stmts, routes) '(stmt_name, stmt_data) =>
       match stmt_syntax stmt_data with
       | Some (block :: _) =>
           let parsed := _parse_statement_syntax block in
           let kws := _extract_keywords parsed in
           let vars := _extract_variables parsed in
           let opts := _extract_optional_parts parsed in
           (dict_set stmt_name
                     {| keywords := order kws; variables := order vars;
                        optional := order opts |}
                     stmts,
            _add_statement_route order stmt_name kws routes)
       | _ => (stmts, routes)
       end)
    statements ([], []).

End ConverterV2.

(** ** converter_final.py: [DualSchemaConverter] *)

Module ConverterFinal.
Import Py Re ExtractorV2.

Definition type_map : list (str * str) :=
  [("array" : str, "a" : str); ("string" : str, "s" : str);
   ("number" : str, "n" : str); ("bool" : str, "b" : str);
   ("object" : str, "o" : str); ("any" : str, "*" : str);
   ("duration" : str, "d" : str); ("datetime" : str, "t" : str);
   ("record" : str, "r" : str); ("geometry" : str, "g" : str);
   ("uuid" : str, "u" : str); ("int" : str, "i" : str);
   ("float" : str, "f" : str); ("value" : str, "v" : str);
   ("null" : str, "0" : str); ("bytes" : str, "y" : str)].

Record Parsed : Type := { raw : str; lines : list str }.

Definition _parse_statement_syntax (syntax : str) : Parsed :=
  {| raw := syntax;
     lines :=
       map strip
           (filter (fun line => negb (is_empty (strip line)))
                   (split "010" syntax)) |}.

(** [r'\b([A-Z_]+)\b'] *)
Definition keyword_pattern : re :=
  cat [Bnd; Grp 1 (plus ConverterV2.upper_or_underscore); Bnd].

(** [if not m.startswith('@') and len(m) > 1] *)
Definition is_keyword (mt : str) : bool :=
  negb (startswith mt "@") && (1 <? length mt).

Definition _extract_keywords (parsed : Parsed) : pyset :=
  fold_left
    (fun keywords line =>
       set_update keywords
                  (filter is_keyword (findall1 keyword_pattern line)))
    (lines parsed) [].

(** [r'@(\w+)'] *)
Definition var_pattern : re := cat [Lit "@"; Grp 1 (plus is_word)].

Definition _extract_variables (parsed : Parsed) : pyset :=
  fold_left
    (fun variables line => set_update variables (findall1 var_pattern line))
    (lines parsed) [].

(** [r'\[.*?\]'] and [r'@\w+'] *)
Definition bracket_pattern : re := cat [Lit "["; star_lazy is_dot; Lit "]"].
Definition at_pattern : re := cat [Lit "@"; plus is_word].

Definition _extract_pattern (syntax : str) : str :=
  let pattern := sub bracket_pattern "" syntax in
  let pattern := sub at_pattern "<var>" pattern in
  firstn 100 (join " " (split_ws pattern)).

(** A value of the statements of the full schema. *)
Record FullStatement : Type := {
  keywords : list str;
  variables : list str;
  syntax_pattern : str
}.

(** The loop of [create_full_schema] over the statements. *)
Definition create_full_schema_statements (order : set_order)
    (statements : list (str * StmtData)) : list (str * FullStatement) :=
  fold_left
    (fun stmts '(stmt_name, stmt_data) =>
       match stmt_syntax stmt_data with
       | Some (block :: _) =>
           let parsed := _parse_statement_syntax block in
           dict_set stmt_name
                    {| keywords := firstn 10 (order (_extract_keywords parsed));
                       variables :=
                         firstn 10 (order (_extract_variables parsed));
                       syntax_pattern := _extract_pattern block |}
                    stmts
       | _ => stmts
       end)
    statements [].

Definition abbreviations : list (str * str) :=
  [("select" : str, "sel" : str); ("insert" : str, "ins" : str);
   ("update" : str, "upd" : str); ("delete" : str, "del" : str);
   ("create" : str, "cre" : str); ("alter" : str, "alt" : str);
   ("define" : str, "def" : str); ("remove" : str, "rem" : str)].

Definition _abbreviate_statement (stmt_name : str) : str :=
  if char_in "/" stmt_name
  then join "/" (map (ConverterV3.abbreviate abbreviations)
                     (split "/" stmt_name))
  else ConverterV3.abbreviate abbreviations stmt_name.

(** [r'\b([A-Z]{2,})\b'] *)
Definition main_keyword_pattern : re :=
  cat [Bnd; Grp 1 (Many is_upper 2 true); Bnd].

(** The keywords of the first three lines, as the loop of
    [create_compressed_schema] collects them. *)
Definition main_keywords (syntax : str) : list str :=
  flat_map
    (fun line =>
       filter (fun w => negb (startswith w "@"))
              (findall1 main_keyword_pattern line))
    (firstn 3 (split "010" syntax)).

(** The loop of [create_compressed_schema] over the statements: the dict
    under ['stmts'], each value being the list under ['k']. *)
Definition create_compressed_schema_statements
    (statements : list (str * StmtData)) : list (str * list str) :=
  fold_left
    (fun stmts '(stmt_name, stmt_data) =>
       match stmt_syntax stmt_data with
       | Some (syntax :: _) =>
           dict_set (_abbreviate_statement stmt_name)
                    (firstn 3 (main_keywords syntax)) stmts
       | _ => stmts
       end)
    statements [].

(** [r'array<(.+)>'] and [r'option<(.+)>'] *)
Definition array_pattern : re := ConverterV3.inner_pattern "array<".
Definition option_pattern : re := ConverterV3.inner_pattern "option<".

Fixpoint _compress_type_fuel (fuel : nat) (type_str : str) : option str :=
  match fuel with
  | 0 => None
  | S fuel' =>
      if is_empty type_str then Some ("*" : str) else
      let type_lower := lower type_str in
      match ConverterV3.inner_of "array<" array_pattern type_lower with
      | Some inner =>
          option_map (app "a") (_compress_type_fuel fuel' inner)
      | None =>
          match ConverterV3.inner_of "option<" option_pattern type_lower with
          | Some inner =>
              option_map (app "?") (_compress_type_fuel fuel' inner)
          | None =>
              Some (match dict_get type_lower type_map with
                    | Some code => code
                    | None => "*" : str
                    end)
          end
      end
  end.

Definition _compress_type (type_str : str) : str :=
  match _compress_type_fuel (S (length type_str)) type_str with
  | Some code => code
  | None => []
  end.

Definition _compress_signature (sig : Signature) : str :=
  let params :=
    match parameters sig with
    | [] => []
    | ps =>
        concat (map (fun p => _compress_type (ConverterV3.type_or_star p)) ps)
    end in
  let ret :=
    match return_type sig with
    | Some (c :: t) => _compress_type (c :: t)
    | _ => "*" : str
    end in
  join ">" [params; ret].

(** The loop of [create_compressed_schema] over the functions: the dict under
    ['funcs']. *)
Definition create_compressed_schema_functions
    (functions : list (str * NsData))
  : list (str * list (str * ConverterV3.Compressed)) :=
  fold_left
    (fun funcs '(namespace, ns_data) =>
       match ns_functions ns_data with
       | Some (f :: fs) =>
           let ns_key :=
             if 3 <? length namespace then first3 namespace else namespace in
           let compressed_funcs :=
             fold_left
               (fun compressed '(func_name, overloads) =>
                  dict_set func_name
                    match overloads with
                    | [sig] => ConverterV3.One (_compress_signature sig)
                    | _ =>
                        ConverterV3.Overloads
                          (map _compress_signature overloads)
                    end
                    compressed)
               (ConverterV3.func_groups (f :: fs)) [] in
           dict_set ns_key compressed_funcs funcs
       | _ => funcs
       end)
    functions [].

(** The loop of [create_compressed_schema] over the operators: the dict under
    ['ops']. *)
Definition create_compressed_schema_operators
    (operators : list (str * list Operator)) : list (str * list str) :=
  fold_left
    (fun compressed '(category, ops) =>
       match ops with
       | [] => compressed
       | _ :: _ =>
           dict_set (first3 category)
                    (map (fun op =>
                            match op_alternative op with
                            | Some (c :: t) => op_symbol op ++ "|" ++ c :: t
                            | _ => op_symbol op
                            end)
                         ops)
                    compressed
       end)
    operators [].

End ConverterFinal.

(** ** Vocabulary of the properties *)

(** The brackets that [_split_params] counts. *)
Definition is_opening (c : ascii) : bool := Py.char_in c "([{<".
Definition is_closing (c : ascii) : bool := Py.char_in c ")]}>".

(** The bracket depth of a text: its opening brackets less its closing
    ones. *)
Definition bracket_depth (s : str) : Z :=
  (Z.of_nat (length (filter is_opening s))
   - Z.of_nat (length (filter is_closing s)))%Z.

(** [w] occurs in [s]. *)
Definition occurs_in (w s : str) : Prop := exists u v, s = u ++ w ++ v.

(** A bracketed span of a line: the text between a [[] of the line and the
    []] that closes it, with no bracket in between. *)
Definition bracketed_span (line inner : str) : Prop :=
  exists pre post,
    line = pre ++ "[" ++ inner ++ "]" ++ post /\
    forallb Converter.not_bracket inner = true.

Definition head_upper (s : str) : bool :=
  match s with
  | c :: _ => Py.is_upper c
  | [] => false
  end.

(** An uppercase run of [s], as the words go: two letters [A-Z] or more in a
    row, with no such letter just before nor just after. *)
Definition uppercase_run (s w : str) : Prop :=
  exists pre post,
    s = pre ++ w ++ post /\ 2 <= length w /\ forallb Py.is_upper w = true /\
    head_upper (rev pre) = false /\ head_upper post = false.

(** What one character adds to the depth. *)
Definition bracket_delta (c : ascii) : Z :=
  if is_opening c then 1%Z else if is_closing c then (-1)%Z else 0%Z.

Definition no_bracket (c : ascii) : bool :=
  negb (is_opening c || is_closing c).

(** [s] has a comma outside every bracket: a comma that follows a text of
    depth zero. *)
Definition top_level_comma (s : str) : Prop :=
  exists u v, s = u ++ ","%char :: v /\ bracket_depth u = 0%Z.

(** The texts that the pattern of [parse_function_signature] accepts:
    [namespace::function(params)], the two names in lower case letters and
    [_], followed or not by [->] and a return type on the same line. *)
Definition signature_shape (ns fn ps tail : str) : Prop :=
  ns <> [] /\ forallb ExtractorV2.lower_or_underscore ns = true /\
  fn <> [] /\ forallb ExtractorV2.lower_or_underscore fn = true /\
  forallb Py.is_dot ps = true /\
  (tail = [] \/
   exists w1 w2 r,
     tail = w1 ++ "->" ++ w2 ++ r /\
     forallb Py.is_space w1 = true /\ forallb Py.is_space w2 = true /\
     r <> [] /\ forallb Py.is_dot r = true).

(** The codes that a value of [compress_function] holds. *)
Definition codes (c : ConverterV3.Compressed) : list str :=
  match c with
  | ConverterV3.One code => [code]
  | ConverterV3.Overloads l => l
  end.

(** [op.get('alternative')] as a truth value: the alternative that counts. *)
Definition alternative_of (op : Operator) : option str :=
  match op_alternative op with
  | Some (c :: t) => Some (c :: t)
  | _ => None
  end.

(** The white space of [s] is made of single spaces, none of them first
    ([after_space] tells that a space comes just before [s]). *)
Fixpoint single_spaced (after_space : bool) (s : str) : bool :=
  match s with
  | [] => true
  | c :: s' =>
      if Py.is_space c
      then Ascii.eqb c " " && negb after_space && single_spaced true s'
      else single_spaced false s'
  end.

(** The signatures of a list that bear a name. *)
Definition named (name : str) (f : ExtractorV2.Signature) : bool :=
  Py.str_eqb (ExtractorV2.function f) name.

(** [func_groups[name]], empty when the name is not a key. *)
Definition group_of (groups : list (str * list ExtractorV2.Signature))
    (name : str) : list ExtractorV2.Signature :=
  match Py.dict_get name groups with
  | Some overloads => overloads
  | None => []
  end.

(** What the loops over the functions, the statements and the operators
    store for one entry of their input, if anything. *)
Definition functions_of (namespace : str) (ns_data : NsData)
  : option (list (str * ConverterV3.Compressed)) :=
  match ns_functions ns_data with
  | Some (f :: fs) => Some (ConverterV3.compress_function namespace (f :: fs))
  | _ => None
  end.

Definition final_keywords_of (stmt_name : str) (stmt_data : StmtData)
  : option (list str) :=
  match stmt_syntax stmt_data with
  | Some (syntax :: _) => Some (firstn 3 (ConverterFinal.main_keywords syntax))
  | _ => None
  end.

Definition operators_of (category : str) (ops : list Operator)
  : option (list str) :=
  match ops with
  | [] => None
  | _ :: _ => Some (map ConverterV3.operator_code ops)
  end.

Definition full_entry_of (order : set_order) (stmt_name : str)
    (stmt_data : StmtData) : option ConverterFinal.FullStatement :=
  match stmt_syntax stmt_data with
  | Some (block :: _) =>
      let parsed := ConverterFinal._parse_statement_syntax block in
      Some {| ConverterFinal.keywords :=
                firstn 10 (order (ConverterFinal._extract_keywords parsed));
              ConverterFinal.variables :=
                firstn 10 (order (ConverterFinal._extract_variables parsed));
              ConverterFinal.syntax_pattern :=
                ConverterFinal._extract_pattern block |}
  | _ => None
  end.

(** The routes of the enhanced tier agree with its statements: every
    statement has a route under the key of its name, and every route is the
    route of a statement, with the first five of its keywords and its
    path. *)
Definition routes_agree (stmts : list (str * ConverterV2.Statement))
    (routes : list (str * ConverterV2.Route)) : Prop :=
  (forall name st,
     Py.dict_get name stmts = Some st ->
     exists r, Py.dict_get (ConverterV2.route_key name) routes = Some r) /\
  (forall rk r,
     Py.dict_get rk routes = Some r ->
     exists name st,
       ConverterV2.route_key name = rk /\ Py.dict_get name stmts = Some st /\
       ConverterV2.route_keywords r = firstn 5 (ConverterV2.keywords st) /\
       ConverterV2.path r = "statements." ++ name).

Definition no_space (c : ascii) : bool := negb (Py.is_space c).

(** The characters that stand for [array<...>] and [option<...>] in a
    code. *)
Definition is_wrapper (c : ascii) : bool :=
  Ascii.eqb c "a" || Ascii.eqb c "?".

(** The two parts of a compressed signature. *)
Definition parameter_codes (sig : ExtractorV2.Signature) : str :=
  concat (map (fun p => ConverterV3.compress_type (ConverterV3.type_or_star p))
              (ExtractorV2.parameters sig)).

Definition return_code (sig : ExtractorV2.Signature) : str :=
  match ExtractorV2.return_type sig with
  | Some (c :: t) => ConverterV3.compress_type (c :: t)
  | _ => "*"
  end.

(** The signature [sig] with parameters of the given types, without
    names. *)
Definition with_parameters (sig : ExtractorV2.Signature)
    (types : list str) : ExtractorV2.Signature :=
  {| ExtractorV2.raw := ExtractorV2.raw sig;
     ExtractorV2.namespace := ExtractorV2.namespace sig;
     ExtractorV2.function := ExtractorV2.function sig;
     ExtractorV2.parameters :=
       map (fun t => {| ExtractorV2.pname := None;
                        ExtractorV2.ptype := Some t |}) types;
     ExtractorV2.return_type := ExtractorV2.return_type sig |}.

(** ** Orders and sample inputs *)

(** [l] is [l'] with some elements left out, the others in their order. *)
Inductive subseq {A : Type} : list A -> list A -> Prop :=
| subseq_nil : subseq [] []
| subseq_skip x l l' : subseq l l' -> subseq l (x :: l')
| subseq_take x l l' : subseq l l' -> subseq (x :: l) (x :: l').

(** Two orders of iteration over a set: the order in which the elements came
    in, and the reverse. *)
Definition insertion_order : set_order := fun s => s.
Definition reverse_order : set_order := fun s => rev s.

Module Samples.
Import ExtractorV2.

Definition only_syntax (block : str) : StmtData :=
  {| stmt_syntax := Some [block]; stmt_title := None;
     stmt_description := None |}.

Definition select_statement : list (str * StmtData) :=
  [("select" : str, only_syntax "SELECT @fields FROM @targets")].

Definition two_selects : list (str * StmtData) :=
  [("select" : str,
    only_syntax
      (("SELECT @fields FROM @targets" : str) ++ ["010"%char]
         ++ "SELECT VALUE @field FROM @targets"))].

(** A statement that has no syntax block. *)
Definition live_data : StmtData :=
  {| stmt_syntax := Some []; stmt_title := Some ("LIVE SELECT" : str);
     stmt_description := None |}.

Definition define_user_entry : Converter.RawEntry :=
  {| Converter.syntax_blocks :=
       [("DEFINE USER @name ON ROOT" : str);
        ("DEFINE USER @name ON DATABASE PASSWORD @pass" : str)];
     Converter.title := Some ("DEFINE USER" : str);
     Converter.description := None;
     Converter.sidebar_label := None |}.

Definition array_add : Signature :=
  {| raw := "array::add(array, value) -> array";
     namespace := "array";
     function := "add";
     parameters :=
       [{| pname := None; ptype := Some ("array" : str) |};
        {| pname := None; ptype := Some ("value" : str) |}];
     return_type := Some ("array" : str) |}.

(** A document with one fenced syntax block, and one with an API
    definition. *)
Definition fenced_select : str :=
  "```syntax" ++ ["010"%char] ++ "SELECT @fields FROM @targets"
    ++ ["010"%char] ++ "```".

Definition api_block : str :=
  "```surql title=" ++ ["034"%char] ++ "API DEFINITION" ++ ["034"%char]
    ++ ["010"%char] ++ "array::add(array, value) -> array"
    ++ ["010"%char] ++ "```".

Definition with_functions (functions : list Signature) : NsData :=
  {| ns_functions := Some functions |}.

Definition and_operator : Operator :=
  {| op_symbol := "&&"; op_description := "Checks whether both are truthy";
     op_alternative := Some ("AND" : str) |}.

Definition add_operator : Operator :=
  {| op_symbol := "+"; op_description := "Adds two values";
     op_alternative := None |}.

(** The operators as the extractor stores them: every category is a key. *)
Definition operators : list (str * list Operator) :=
  [("logical" : str, [and_operator]); ("comparison" : str, []);
   ("mathematical" : str, [add_operator]); ("graph" : str, []);
   ("set" : str, []); ("fuzzy" : str, []); ("null_handling" : str, []);
   ("other" : str, [])].

End Samples.

(** * Properties *)

Import Py Re.

(** ** The embedding at work *)

Example optional_spans :
  findall1 Converter.optional_pattern
           "DEFINE TABLE [ OVERWRITE | IF NOT EXISTS ] @name [ DROP ]"
  = [("OVERWRITE | IF NOT EXISTS " : str); ("DROP " : str)].
Proof. vm_compute. reflexivity. Qed.

Example define_table_line :
  Converter.parse_bnf_line
    "DEFINE TABLE [ OVERWRITE | IF NOT EXISTS ] @name [ DROP ]"
  = {| Converter.optional_choices :=
         Some [("OVERWRITE" : str); ("IF NOT EXISTS" : str)];
       Converter.optional := Some ("DROP" : str);
       Converter.variables := Some [("name" : str)];
       Converter.keywords := Some [("DEFINE" : str); ("TABLE" : str)] |}.
Proof. vm_compute. reflexivity. Qed.

(** The white space after [\[] is given back when nothing else is left for the
    group; a span is not looked for inside a span. *)
Example spans_by_backtracking :
  findall1 Converter.optional_pattern "[ ] [[a]] []"
  = [(" " : str); ("a" : str)].
Proof. vm_compute. reflexivity. Qed.

(** Only whole words count: a letter, a digit or [_] next to the run rules it
    out. *)
Example whole_words_only :
  findall0 Converter.keyword_pattern "XMLparser AB_C BC9 DEF A"
  = [("DEF" : str)].
Proof. vm_compute. reflexivity. Qed.

Example underscore_keywords :
  findall1 ConverterV2.keyword_pattern "SELECT [ VALUE ] @fields FROM_X A"
  = [("SELECT" : str); ("VALUE" : str); ("FROM_X" : str); ("A" : str)].
Proof. vm_compute. reflexivity. Qed.

Example select_pattern :
  ConverterFinal._extract_pattern
    (("SELECT [ VALUE ] @fields" : str) ++ ["010"%char]
       ++ "  FROM [ ONLY ] @targets")
  = "SELECT <var> FROM <var>".
Proof. vm_compute. reflexivity. Qed.

Example nested_parameters :
  ExtractorV2._split_params "arr: array<int, 2>, f(a, b)"
  = [("arr: array<int, 2>" : str); ("f(a, b)" : str)].
Proof. vm_compute. reflexivity. Qed.

Example fold_signature :
  option_map
    (fun sig => (ExtractorV2.function sig, ExtractorV2.return_type sig,
                 ConverterV3._compress_signature sig))
    (ExtractorV2.parse_function_signature
       "array::fold(arr: array<int, 2>, f(a, b)) -> option<int>")
  = Some ("fold" : str, Some ("option<int>" : str), "a**>?i" : str).
Proof. vm_compute. reflexivity. Qed.

(** ** Strings *)

Lemma ascii_eqb_true (x y : ascii) : Ascii.eqb x y = true <-> x = y.
Proof. apply Ascii.eqb_eq. Qed.

Lemma str_eqb_eq (x y : str) : str_eqb x y = true <-> x = y.
Proof.
  unfold str_eqb. destruct (list_eq_dec ascii_dec x y); split; congruence.
Qed.

Lemma str_eqb_refl (x : str) : str_eqb x x = true.
Proof. now apply str_eqb_eq. Qed.

Lemma str_eqb_neq (x y : str) : str_eqb x y = false <-> x <> y.
Proof.
  unfold str_eqb. destruct (list_eq_dec ascii_dec x y); split; congruence.
Qed.

Lemma is_upper_word (c : ascii) : is_upper c = true -> is_word c = true.
Proof. unfold is_word. now intros ->. Qed.

Lemma upper_or_underscore_word (c : ascii) :
  ConverterV2.upper_or_underscore c = true -> is_word c = true.
Proof.
  unfold ConverterV2.upper_or_underscore, is_word.
  destruct (is_upper c); [reflexivity|]. simpl. intros ->.
  now rewrite !orb_true_r.
Qed.

Lemma lower_char_idem (c : ascii) : lower_char (lower_char c) = lower_char c.
Proof. destruct c as [[] [] [] [] [] [] [] []]; reflexivity. Qed.

Lemma is_dot_lower_char (c : ascii) : is_dot (lower_char c) = is_dot c.
Proof. destruct c as [[] [] [] [] [] [] [] []]; reflexivity. Qed.

Lemma lower_idem (s : str) : lower (lower s) = lower s.
Proof.
  unfold lower. rewrite map_map. apply map_ext. apply lower_char_idem.
Qed.

Lemma lower_app (s t : str) : lower (s ++ t) = lower s ++ lower t.
Proof. apply map_app. Qed.

Lemma length_lower (s : str) : length (lower s) = length s.
Proof. apply length_map. Qed.

Lemma is_empty_lower (s : str) : is_empty (lower s) = is_empty s.
Proof. now destruct s. Qed.

Lemma forallb_is_dot_lower (s : str) :
  forallb is_dot (lower s) = forallb is_dot s.
Proof.
  induction s as [|c s IH]; simpl; [reflexivity|].
  now rewrite is_dot_lower_char, IH.
Qed.

Lemma startswith_spec (s p : str) :
  startswith s p = true <-> exists r, s = p ++ r.
Proof.
  revert s. induction p as [|x p IH]; intros s; cbn [startswith app].
  - split; [intros _; now exists s | destruct s; reflexivity].
  - destruct s as [|y s]; cbn [startswith].
    + split; [discriminate | intros [r H]; discriminate].
    + rewrite andb_true_iff, ascii_eqb_true, IH. split.
      * intros [-> [r ->]]. now exists r.
      * intros [r H]. injection H as -> ->. split; [reflexivity | now exists r].
Qed.

Lemma str_in_spec (sub s : str) :
  str_in sub s = true <-> exists pre post, s = pre ++ sub ++ post.
Proof.
  induction s as [|c s IH].
  - cbn [str_in]. rewrite orb_false_r, startswith_spec. split.
    + intros [r H]. now exists [], r.
    + intros [pre [post H]]. destruct pre; [now exists post|discriminate].
  - cbn [str_in]. rewrite orb_true_iff, startswith_spec, IH. split.
    + intros [[r H] | [pre [post H]]].
      * now exists [], r.
      * exists (c :: pre), post. now rewrite H.
    + intros [pre [post H]]. destruct pre as [|x pre].
      * left. now exists post.
      * right. injection H as -> ->. now exists pre, post.
Qed.

Lemma nonempty_In {A : Type} (l : list A) (x : A) :
  In x (Converter.from_option (nonempty l)) <-> In x l.
Proof. now destruct l. Qed.

(** *** Sets *)

Lemma existsb_str_eqb (x : str) (s : list str) :
  existsb (str_eqb x) s = true <-> In x s.
Proof.
  rewrite existsb_exists. split.
  - intros [y [Hy E]]. apply str_eqb_eq in E. now subst.
  - intros H. exists x. split; [assumption | apply str_eqb_refl].
Qed.

Lemma set_add_In (x y : str) (s : pyset) :
  In y (set_add x s) <-> In y s \/ y = x.
Proof.
  unfold set_add. destruct (existsb (str_eqb x) s) eqn:E.
  - apply existsb_str_eqb in E. split; [now left | intros [H | ->]; assumption].
  - rewrite in_app_iff. simpl. intuition congruence.
Qed.

Lemma set_update_In (l : list str) (s : pyset) (y : str) :
  In y (set_update s l) <-> In y s \/ In y l.
Proof.
  unfold set_update. revert s. induction l as [|x l IH]; intros s; simpl.
  - tauto.
  - rewrite IH, set_add_In. intuition congruence.
Qed.

Lemma set_add_NoDup (x : str) (s : pyset) : NoDup s -> NoDup (set_add x s).
Proof.
  intros H. unfold set_add. destruct (existsb (str_eqb x) s) eqn:E.
  - assumption.
  - apply NoDup_app; [assumption | repeat constructor; intros [] |].
    intros y Hy [<- | []]. apply existsb_str_eqb in Hy. congruence.
Qed.

Lemma set_update_NoDup (l : list str) (s : pyset) :
  NoDup s -> NoDup (set_update s l).
Proof.
  unfold set_update. revert s. induction l as [|x l IH]; intros s H; simpl.
  - assumption.
  - apply IH. now apply set_add_NoDup.
Qed.

(** *** Sorting *)

Lemma insert_sorted_perm (x : str) (l : list str) :
  Permutation (insert_sorted x l) (x :: l).
Proof.
  induction l as [|y l IH]; simpl; [reflexivity|].
  destruct (str_leb x y); [reflexivity|].
  rewrite IH. apply perm_swap.
Qed.

Lemma sorted_perm (l : list str) : Permutation (sorted l) l.
Proof.
  induction l as [|x l IH]; simpl; [reflexivity|].
  unfold sorted in *. simpl. rewrite insert_sorted_perm. now constructor.
Qed.

Lemma sorted_In (l : list str) (x : str) : In x (sorted l) <-> In x l.
Proof.
  split; apply Permutation_in; [apply sorted_perm|].
  symmetry. apply sorted_perm.
Qed.

Lemma code_inj (a b : ascii) : code a = code b -> a = b.
Proof.
  unfold code. intros H. rewrite <- (ascii_nat_embedding a), H.
  apply ascii_nat_embedding.
Qed.

Lemma str_leb_total (x y : str) : str_leb x y = false -> str_leb y x = true.
Proof.
  revert y. induction x as [|a x IH]; intros [|b y]; cbn [str_leb];
    try congruence.
  destruct (code a <? code b) eqn:E1; [discriminate|].
  destruct (code b <? code a) eqn:E2; [reflexivity|]. apply IH.
Qed.

Lemma str_leb_trans (x y z : str) :
  str_leb x y = true -> str_leb y z = true -> str_leb x z = true.
Proof.
  revert y z. induction x as [|a x IH]; intros [|b y] [|c z];
    cbn [str_leb]; try congruence.
  destruct (code a <? code b) eqn:E1, (code b <? code c) eqn:E2,
    (code a <? code c) eqn:E3, (code b <? code a) eqn:E4,
    (code c <? code b) eqn:E5, (code c <? code a) eqn:E6;
    try congruence;
    repeat match goal with
    | H : (_ <? _) = true |- _ => apply Nat.ltb_lt in H
    | H : (_ <? _) = false |- _ => apply Nat.ltb_ge in H
    end; try lia.
  apply IH.
Qed.

Lemma str_leb_antisym (x y : str) :
  str_leb x y = true -> str_leb y x = true -> x = y.
Proof.
  revert y. induction x as [|a x IH]; intros [|b y]; cbn [str_leb];
    try congruence.
  destruct (code a <? code b) eqn:E1, (code b <? code a) eqn:E2;
    try congruence;
    repeat match goal with
    | H : (_ <? _) = true |- _ => apply Nat.ltb_lt in H
    | H : (_ <? _) = false |- _ => apply Nat.ltb_ge in H
    end; try lia.
  intros H1 H2. f_equal; [apply code_inj; lia | now apply IH].
Qed.

Lemma insert_sorted_sorted (x : str) (l : list str) :
  StronglySorted str_le l -> StronglySorted str_le (insert_sorted x l).
Proof.
  induction 1 as [|y l Hl IH Hy]; cbn [insert_sorted].
  - repeat constructor.
  - destruct (str_leb x y) eqn:E.
    + constructor; [now constructor|]. constructor; [assumption|].
      apply Forall_forall. intros z Hz.
      apply (str_leb_trans x y z E). now apply (proj1 (Forall_forall _ _) Hy).
    + constructor; [assumption|].
      apply Forall_forall. intros z Hz.
      apply (Permutation_in _ (insert_sorted_perm x l)) in Hz.
      destruct Hz as [<- | Hz]; [now apply str_leb_total|].
      now apply (proj1 (Forall_forall _ _) Hy).
Qed.

Lemma sorted_sorted (l : list str) : StronglySorted str_le (sorted l).
Proof.
  induction l as [|x l IH]; [constructor|]. now apply insert_sorted_sorted.
Qed.

Lemma strongly_sorted_unique (l l' : list str) :
  StronglySorted str_le l -> StronglySorted str_le l' ->
  Permutation l l' -> l = l'.
Proof.
  intros Hl. revert l'. induction Hl as [|x l Hl IH Hx]; intros l' Hl' P.
  - now apply Permutation_nil in P.
  - destruct Hl' as [|y l' Hl' Hy].
    + symmetry in P. now apply Permutation_nil in P.
    + assert (x = y).
      { assert (Hxy : In x (y :: l'))
          by (apply (Permutation_in _ P); now left).
        assert (Hyx : In y (x :: l))
          by (apply (Permutation_in _ (Permutation_sym P)); now left).
        destruct Hxy as [-> | Hxy]; [reflexivity|].
        destruct Hyx as [-> | Hyx]; [reflexivity|].
        apply str_leb_antisym.
        - now apply (proj1 (Forall_forall _ _) Hx).
        - now apply (proj1 (Forall_forall _ _) Hy). }
      subst y. f_equal. apply IH; [assumption|].
      now apply Permutation_cons_inv in P.
Qed.

Lemma insertion_order_admissible : admissible insertion_order.
Proof. intros s. reflexivity. Qed.

Lemma reverse_order_admissible : admissible reverse_order.
Proof. intros s. symmetry. apply Permutation_rev. Qed.

(** X2. [sorted(list(s))], which [convert_statement_syntax] stores for the
    variables and for the keywords of a syntax block, does not depend on the
    order in which the set [s] is listed: it is the same list for every order
    that lists each element once. *)
Theorem sorted_order_independent (order : set_order) (s : pyset) :
  admissible order -> sorted (order s) = sorted s.
Proof.
  intros H. apply strongly_sorted_unique; try apply sorted_sorted.
  now rewrite !sorted_perm.
Qed.

Lemma sorted_order_independent_witness :
  sorted (reverse_order [("SELECT" : str); ("FROM" : str)])
    = sorted [("SELECT" : str); ("FROM" : str)].
Proof.
  apply (sorted_order_independent reverse_order).
  intros s. symmetry. apply Permutation_rev.
Defined.

(** ** The matcher *)

Lemma rev_cons_app {A : Type} (x : A) (l b : list A) :
  rev (x :: l) ++ b = rev l ++ x :: b.
Proof. simpl. now rewrite <- app_assoc. Qed.

Lemma many_greedy_sound p k : forall a min b g o,
  many_greedy p k min b a g = Some o ->
  exists x a', a = x ++ a' /\ forallb p x = true /\ min <= length x /\
               k (rev x ++ b) a' g = Some o.
Proof.
  assert (Hstop : forall min b a g o,
    match min with 0 => k b a g | S _ => None end = Some o ->
    exists x a', a = x ++ a' /\ forallb p x = true /\ min <= length x /\
                 k (rev x ++ b) a' g = Some o).
  { intros [|min] b a g o H; [|discriminate]. now exists [], a. }
  induction a as [|c a IH]; intros min b g o H; cbn [many_greedy] in H.
  - now apply Hstop.
  - destruct (p c) eqn:Pc; [|now apply Hstop].
    destruct (many_greedy p k (pred min) (c :: b) a g) eqn:E.
    + injection H as ->. apply IH in E.
      destruct E as [x [a' [-> [Hx [Hm Hk]]]]].
      exists (c :: x), a'. rewrite rev_cons_app. cbn [forallb length app].
      rewrite Pc, Hx. repeat split; [lia | assumption].
    + now apply Hstop.
Qed.

Lemma many_greedy_complete p k : forall x min b a g,
  forallb p x = true -> min <= length x -> k (rev x ++ b) a g <> None ->
  many_greedy p k min b (x ++ a) g <> None.
Proof.
  induction x as [|c x IH]; intros min b a g Hx Hm Hk.
  - destruct min; [|simpl in Hm; lia]. simpl in Hk. simpl.
    destruct a as [|c a]; cbn [many_greedy]; [assumption|].
    destruct (p c); [|assumption].
    destruct (many_greedy p k (pred 0) (c :: b) a g);
      [discriminate | assumption].
  - cbn [forallb] in Hx. apply andb_true_iff in Hx. destruct Hx as [Pc Hx].
    cbn [app many_greedy]. rewrite Pc. rewrite rev_cons_app in Hk.
    specialize (IH (pred min) (c :: b) a g Hx).
    destruct (many_greedy p k (pred min) (c :: b) (x ++ a) g); [discriminate|].
    exfalso. apply IH; [simpl in Hm; lia | assumption | reflexivity].
Qed.

Lemma many_lazy_sound p k : forall a min b g o,
  many_lazy p k min b a g = Some o ->
  exists x a', a = x ++ a' /\ forallb p x = true /\ min <= length x /\
               k (rev x ++ b) a' g = Some o.
Proof.
  induction a as [|c a IH]; intros min b g o H; cbn [many_lazy] in H.
  - destruct min; [|discriminate].
    destruct (k b [] g) eqn:E; [|discriminate]. injection H as ->.
    now exists [], [].
  - assert (Hmore :
      (if p c then many_lazy p k (pred min) (c :: b) a g else None)
        = Some o ->
      exists x a', c :: a = x ++ a' /\ forallb p x = true /\ min <= length x /\
               k (rev x ++ b) a' g = Some o).
    { destruct (p c) eqn:Pc; [|discriminate]. intros E. apply IH in E.
      destruct E as [x [a' [-> [Hx [Hm Hk]]]]].
      exists (c :: x), a'. rewrite rev_cons_app. cbn [forallb length app].
      rewrite Pc, Hx. repeat split; [lia | assumption]. }
    destruct min; [|now apply Hmore].
    destruct (k b (c :: a) g) eqn:E; [|now apply Hmore].
    injection H as ->. now exists [], (c :: a).
Qed.

Lemma many_lazy_complete p k : forall x min b a g,
  forallb p x = true -> min <= length x -> k (rev x ++ b) a g <> None ->
  many_lazy p k min b (x ++ a) g <> None.
Proof.
  induction x as [|c x IH]; intros min b a g Hx Hm Hk.
  - destruct min; [|simpl in Hm; lia]. simpl in Hk. simpl.
    destruct a as [|c a]; cbn [many_lazy];
      destruct (k b _ g); congruence.
  - cbn [forallb] in Hx. apply andb_true_iff in Hx. destruct Hx as [Pc Hx].
    cbn [app many_lazy]. rewrite Pc. rewrite rev_cons_app in Hk.
    specialize (IH (pred min) (c :: b) a g Hx).
    assert (many_lazy p k (pred min) (c :: b) (x ++ a) g <> None)
      by (apply IH; [simpl in Hm; lia | assumption]).
    destruct min; [|assumption].
    destruct (k b (c :: x ++ a) g); [discriminate | assumption].
Qed.

Lemma m_sound : forall r k b a g o,
  m r k b a g = Some o ->
  exists b' a' g', matches r b a g b' a' g' /\ k b' a' g' = Some o.
Proof.
  induction r as [ | c | p | p min gr | r1 IH1 r2 IH2 | r IH | i r IH | | | ];
    intros k b a g o H; cbn [m] in H.
  - exists b, a, g. split; [constructor | assumption].
  - destruct a as [|x a]; [discriminate|].
    destruct (Ascii.eqb x c) eqn:E; [|discriminate].
    apply Ascii.eqb_eq in E. subst x.
    exists (c :: b), a, g. split; [constructor | assumption].
  - destruct a as [|x a]; [discriminate|].
    destruct (p x) eqn:E; [|discriminate].
    exists (x :: b), a, g. split; [now constructor | assumption].
  - assert (exists x a', a = x ++ a' /\ forallb p x = true /\ min <= length x /\
               k (rev x ++ b) a' g = Some o) as [x [a' [-> [Hx [Hm Hk]]]]].
    { destruct gr; [now apply many_greedy_sound | now apply many_lazy_sound]. }
    exists (rev x ++ b), a', g. split; [now constructor | assumption].
  - apply IH1 in H. destruct H as [b1 [a1 [g1 [M1 H]]]].
    apply IH2 in H. destruct H as [b2 [a2 [g2 [M2 H]]]].
    exists b2, a2, g2. split; [econstructor; eassumption | assumption].
  - destruct (m r k b a g) eqn:E.
    + injection H as ->. apply IH in E. destruct E as [b' [a' [g' [M1 E]]]].
      exists b', a', g'. split; [now apply M_opt_some | assumption].
    + exists b, a, g. split; [apply M_opt_none | assumption].
  - apply IH in H. destruct H as [b' [a' [g' [M1 H]]]].
    exists b', a', ((i, consumed b b') :: g').
    split; [now constructor | assumption].
  - destruct (boundary b a) eqn:E; [|discriminate].
    exists b, a, g. split; [now constructor | assumption].
  - destruct b; [|discriminate].
    exists [], a, g. split; [constructor | assumption].
  - destruct a as [|c [|c' a]]; [ | | discriminate].
    + exists b, [], g. split; [constructor | assumption].
    + destruct (Ascii.eqb c "010") eqn:E; [|discriminate].
      apply Ascii.eqb_eq in E. subst c.
      exists b, ["010"%char], g. split; [constructor | assumption].
Qed.

Lemma m_complete : forall r b a g b' a' g',
  matches r b a g b' a' g' ->
  forall k, k b' a' g' <> None -> m r k b a g <> None.
Proof.
  induction 1; intros k Hk; cbn [m].
  - assumption.
  - now rewrite Ascii.eqb_refl.
  - now rewrite H.
  - destruct gr;
      [now apply many_greedy_complete | now apply many_lazy_complete].
  - apply IHmatches1. now apply IHmatches2.
  - specialize (IHmatches k Hk).
    destruct (m r k b a g); [discriminate | contradiction].
  - destruct (m r k b a g); [discriminate | assumption].
  - now apply IHmatches.
  - now rewrite H.
  - assumption.
  - assumption.
  - assumption.
Qed.

Lemma consumed_app (x b : str) : consumed b (rev x ++ b) = x.
Proof.
  unfold consumed. rewrite length_app, Nat.add_sub.
  rewrite firstn_app, Nat.sub_diag, firstn_all, firstn_O, app_nil_r.
  apply rev_involutive.
Qed.

Lemma matches_span r b a g b' a' g' :
  matches r b a g b' a' g' -> exists x, a = x ++ a' /\ b' = rev x ++ b.
Proof.
  induction 1; try (now exists []).
  - now exists [c].
  - now exists [c].
  - now exists x.
  - destruct IHmatches1 as [x [-> ->]]. destruct IHmatches2 as [y [-> ->]].
    exists (x ++ y). now rewrite rev_app_distr, <- !app_assoc.
  - assumption.
  - assumption.
Qed.

Lemma match_at_sound r b a b' a' g' :
  match_at r b a = Some (b', a', g') -> matches r b a [] b' a' g'.
Proof.
  intros H. apply m_sound in H. destruct H as [b1 [a1 [g1 [M H]]]].
  unfold accept in H. now injection H as -> -> ->.
Qed.

Lemma match_at_complete r b a b' a' g' :
  matches r b a [] b' a' g' -> match_at r b a <> None.
Proof. intros M. apply (m_complete _ _ _ _ _ _ _ M). discriminate. Qed.

Lemma match_at_match_here r b a o :
  match_at r b a = Some o -> match_here r b a (mk_mobj b o).
Proof.
  destruct o as [[b' a'] g']. intros H. apply match_at_sound in H.
  destruct (matches_span _ _ _ _ _ _ _ H) as [x [-> ->]].
  exists x, a', g'. unfold mk_mobj. now rewrite consumed_app.
Qed.

Lemma match_at_match_in r b a o :
  match_at r b a = Some o -> match_in r (rev b ++ a) (mk_mobj b o).
Proof.
  intros H. exists b, a.
  split; [reflexivity | now apply match_at_match_here].
Qed.

Lemma finditer_from_In r mo : forall a skip b,
  In mo (finditer_from r skip b a) -> match_in r (rev b ++ a) mo.
Proof.
  induction a as [|c a IH]; intros skip b H; cbn [finditer_from] in H.
  - destruct skip; [|contradiction].
    destruct (match_at r b []) eqn:E; [|contradiction].
    destruct H as [<- | []]. now apply match_at_match_in.
  - assert (Hstep : forall n, In mo (finditer_from r n (c :: b) a) ->
                              match_in r (rev b ++ c :: a) mo).
    { intros n Hn. apply IH in Hn. simpl in Hn.
      now rewrite <- app_assoc in Hn. }
    destruct skip; [|now apply (Hstep skip)].
    destruct (match_at r b (c :: a)) eqn:E; [|now apply (Hstep 0)].
    destruct H as [<- | H];
      [now apply match_at_match_in | now apply Hstep in H].
Qed.

Lemma finditer_In r s mo : In mo (finditer r s) -> match_in r s mo.
Proof. intros H. now apply finditer_from_In in H. Qed.

Lemma search_from_sound r mo : forall a b,
  search_from r b a = Some mo -> match_in r (rev b ++ a) mo.
Proof.
  induction a as [|c a IH]; intros b H; cbn [search_from] in H.
  - destruct (match_at r b []) eqn:E; [|discriminate].
    injection H as <-. now apply match_at_match_in.
  - destruct (match_at r b (c :: a)) eqn:E.
    + injection H as <-. now apply match_at_match_in.
    + apply IH in H. simpl in H. now rewrite <- app_assoc in H.
Qed.

Lemma search_sound r s mo : search r s = Some mo -> match_in r s mo.
Proof. intros H. now apply search_from_sound in H. Qed.

Ltac inv_matches :=
  repeat match goal with
  | H : matches Eps _ _ _ _ _ _ |- _ => inversion H; subst; clear H
  | H : matches (Lit _) _ _ _ _ _ _ |- _ => inversion H; subst; clear H
  | H : matches (Cls _) _ _ _ _ _ _ |- _ => inversion H; subst; clear H
  | H : matches (Many _ _ _) _ _ _ _ _ _ |- _ => inversion H; subst; clear H
  | H : matches (Seq _ _) _ _ _ _ _ _ |- _ => inversion H; subst; clear H
  | H : matches (Grp _ _) _ _ _ _ _ _ |- _ => inversion H; subst; clear H
  | H : matches Bnd _ _ _ _ _ _ |- _ => inversion H; subst; clear H
  | H : matches Bol _ _ _ _ _ _ |- _ => inversion H; subst; clear H
  end.

Section WordPattern.
Variable p : ascii -> bool.
Variable min : nat.
Variable grouped : bool.
Hypothesis p_word : forall c, p c = true -> is_word c = true.
Hypothesis min_pos : 1 <= min.

Lemma head_word_app (x y : str) :
  x <> [] -> forallb p x = true -> head_word (x ++ y) = true.
Proof.
  destruct x as [|c x]; [congruence|]. cbn [forallb app head_word].
  intros _ H. apply andb_true_iff in H. now apply p_word.
Qed.

Lemma head_word_rev_app (x y : str) :
  x <> [] -> forallb p x = true -> head_word (rev x ++ y) = true.
Proof.
  intros Hx H. destruct (rev x) as [|c l] eqn:E.
  - apply (f_equal (@rev ascii)) in E. rewrite rev_involutive in E.
    contradiction.
  - cbn [app head_word]. apply p_word.
    apply (proj1 (forallb_forall p x) H). apply in_rev. rewrite E. now left.
Qed.

Lemma boundary_before (b x y : str) :
  x <> [] -> forallb p x = true ->
  boundary b (x ++ y) = negb (head_word b).
Proof.
  intros Hx H. unfold boundary. rewrite (head_word_app _ _ Hx H).
  now destruct (head_word b).
Qed.

Lemma boundary_after (b x y : str) :
  x <> [] -> forallb p x = true ->
  boundary (rev x ++ b) y = negb (head_word y).
Proof.
  intros Hx H. unfold boundary. rewrite (head_word_rev_app _ _ Hx H).
  now destruct (head_word y).
Qed.

Lemma min_nonempty (x : str) : min <= length x -> x <> [].
Proof. intros H ->. simpl in H. lia. Qed.

Lemma word_pattern_match b a mo :
  match_here (word_pattern p min grouped) b a mo ->
  exists a',
    a = whole mo ++ a' /\
    forallb p (whole mo) = true /\ min <= length (whole mo) /\
    head_word b = false /\ head_word a' = false /\
    (grouped = true -> group_or_empty 1 mo = whole mo).
Proof.
  intros [x [a' [g' [-> [M ->]]]]]. cbn [whole].
  exists a'. unfold word_pattern in M. cbn [cat fold_right] in M.
  destruct grouped; inv_matches;
    match goal with
    | E : x ++ a' = ?y ++ a' |- _ => apply app_inv_tail in E; subst y
    end;
    match goal with
    | Hb : boundary _ (x ++ a') = true, Ha : boundary (rev x ++ _) a' = true,
      Hp : forallb p x = true, Hm : min <= length x |- _ =>
        pose proof (min_nonempty _ Hm) as Hx;
        rewrite (boundary_before _ _ _ Hx Hp) in Hb;
        rewrite (boundary_after _ _ _ Hx Hp) in Ha;
        apply negb_true_iff in Hb; apply negb_true_iff in Ha
    end;
    repeat split; try assumption.
  - intros _. unfold group_or_empty. cbn. now rewrite consumed_app.
  - discriminate.
Qed.

Lemma word_run_unique (w x post a' : str) :
  w ++ post = x ++ a' ->
  forallb p w = true -> forallb p x = true ->
  head_word post = false -> head_word a' = false -> w = x.
Proof.
  revert x. induction w as [|c w IH]; intros [|d x] E Hw Hx Hp Ha.
  - reflexivity.
  - cbn [app] in E. subst post. cbn [forallb] in Hx.
    apply andb_true_iff in Hx. cbn [head_word] in Hp.
    rewrite (p_word d) in Hp; [discriminate | tauto].
  - cbn [app] in E. subst a'. cbn [forallb] in Hw.
    apply andb_true_iff in Hw. cbn [head_word] in Ha.
    rewrite (p_word c) in Ha; [discriminate | tauto].
  - cbn [app] in E. injection E as -> E. cbn [forallb] in Hw, Hx.
    apply andb_true_iff in Hw. apply andb_true_iff in Hx.
    f_equal. now apply (IH x).
Qed.

Lemma word_pattern_matches (b w post : str) :
  min <= length w -> forallb p w = true ->
  head_word b = false -> head_word post = false ->
  exists g', matches (word_pattern p min grouped) b (w ++ post) []
                     (rev w ++ b) post g'.
Proof.
  intros Hm Hp Hb Ha. pose proof (min_nonempty _ Hm) as Hw.
  assert (B1 : boundary b (w ++ post) = true)
    by (rewrite (boundary_before _ _ _ Hw Hp), Hb; reflexivity).
  assert (B2 : boundary (rev w ++ b) post = true)
    by (rewrite (boundary_after _ _ _ Hw Hp), Ha; reflexivity).
  unfold word_pattern. cbn [cat fold_right]. destruct grouped; eexists.
  - eapply M_seq; [now apply M_bnd|]. eapply M_seq.
    + apply M_grp. now apply M_many.
    + eapply M_seq; [now apply M_bnd | apply M_eps].
  - eapply M_seq; [now apply M_bnd|]. eapply M_seq.
    + now apply M_many.
    + eapply M_seq; [now apply M_bnd | apply M_eps].
Qed.

(** At the start of a run the matcher returns the run. *)
Lemma word_pattern_match_at (b w post : str) :
  min <= length w -> forallb p w = true ->
  head_word b = false -> head_word post = false ->
  exists o, match_at (word_pattern p min grouped) b (w ++ post) = Some o /\
            whole (mk_mobj b o) = w.
Proof.
  intros Hm Hp Hb Ha.
  destruct (word_pattern_matches b w post Hm Hp Hb Ha) as [g' M].
  apply match_at_complete in M.
  destruct (match_at (word_pattern p min grouped) b (w ++ post)) as [o|] eqn:E;
    [|congruence].
  exists o. split; [reflexivity|].
  apply match_at_match_here in E. apply word_pattern_match in E.
  destruct E as [a1 [E [Hp1 [Hm1 [Hb1 [Ha1 _]]]]]].
  symmetry. now apply (word_run_unique _ _ _ _ E).
Qed.

(** Every match of the pattern is a run. *)
Lemma match_word_run s mo :
  match_in (word_pattern p min grouped) s mo -> word_run p min s (whole mo).
Proof.
  intros [b [a [-> H]]]. apply word_pattern_match in H.
  destruct H as [a' [-> [Hp [Hm [Hb [Ha _]]]]]].
  exists (rev b), a'. now rewrite rev_involutive.
Qed.

(** The scan passes no run: while [skip] characters of a match are still to
    be passed, they are word characters and so is the character before. *)
Lemma finditer_from_complete (w post : str) :
  min <= length w -> forallb p w = true -> head_word post = false ->
  forall pre skip b,
    head_word (rev pre ++ b) = false ->
    forallb is_word (firstn skip (pre ++ w ++ post)) = true ->
    (skip <> 0 -> head_word b = true) ->
    In w (map whole (finditer_from (word_pattern p min grouped) skip b
                                   (pre ++ w ++ post))).
Proof.
  intros Hm Hp Ha. pose proof (min_nonempty _ Hm) as Hw.
  induction pre as [|c pre IH]; intros skip b Hb Hs Hk.
  - cbn [rev app] in Hb. cbn [app].
    destruct skip as [|n]; [|rewrite Hk in Hb; [discriminate | lia]].
    destruct (word_pattern_match_at b w post Hm Hp Hb Ha) as [o [E Ho]].
    destruct (w ++ post) as [|d rest] eqn:Ew.
    + apply app_eq_nil in Ew. now destruct Ew.
    + cbn [finditer_from]. rewrite E. left. assumption.
  - cbn [app finditer_from]. cbn [rev] in Hb. rewrite <- app_assoc in Hb.
    cbn [app] in Hb.
    destruct skip as [|n].
    + destruct (match_at (word_pattern p min grouped) b (c :: pre ++ w ++ post))
        as [o|] eqn:E.
      * right. apply match_at_match_here in E.
        apply word_pattern_match in E.
        destruct E as [a1 [E [Hp1 [Hm1 [Hb1 [Ha1 _]]]]]].
        pose proof (min_nonempty _ Hm1) as Hx.
        destruct (whole (mk_mobj b o)) as [|d x]; [congruence|].
        cbn [app] in E. injection E as <- E.
        cbn [forallb] in Hp1. apply andb_true_iff in Hp1.
        destruct Hp1 as [Pc Px].
        apply IH; [assumption | | intros _; now apply p_word].
        cbn [length pred]. rewrite E, firstn_app, firstn_all, Nat.sub_diag.
        rewrite firstn_O, app_nil_r. clear - Px p_word.
        induction x as [|e x IHx]; [reflexivity|]. cbn [forallb] in *.
        apply andb_true_iff in Px. rewrite (p_word e), IHx; tauto.
      * apply IH; [assumption | reflexivity | congruence].
    + cbn [firstn forallb] in Hs. apply andb_true_iff in Hs.
      apply IH; [assumption | tauto | intros _; tauto].
Qed.

Lemma finditer_word_run s w :
  In w (map whole (finditer (word_pattern p min grouped) s)) <->
  word_run p min s w.
Proof.
  split.
  - intros H. apply in_map_iff in H. destruct H as [mo [<- H]].
    apply finditer_In in H. now apply match_word_run.
  - intros [pre [post [-> [Hm [Hp [Hb Ha]]]]]].
    apply finditer_from_complete; try assumption.
    + now rewrite app_nil_r.
    + reflexivity.
    + congruence.
Qed.

End WordPattern.

(** ** Keyword candidates *)

Lemma findall1_word_pattern p min s w :
  (forall c, p c = true -> is_word c = true) -> 1 <= min ->
  In w (findall1 (word_pattern p min true) s) ->
  In w (findall0 (word_pattern p min true) s) /\
  forallb p w = true /\ min <= length w.
Proof.
  intros Hp Hm H. unfold findall1 in H. apply in_map_iff in H.
  destruct H as [mo [<- H]]. pose proof (finditer_In _ _ _ H) as [b [a [_ M]]].
  apply (word_pattern_match p min true Hp Hm) in M.
  destruct M as [a' [_ [Hw [Hl [_ [_ G]]]]]]. rewrite (G eq_refl).
  repeat split; try assumption. unfold findall0. now apply in_map.
Qed.

Lemma class_not_at (p : ascii -> bool) (w : str) :
  p "@"%char = false -> forallb p w = true -> startswith w "@" = false.
Proof.
  intros Hat Hw. destruct w as [|c w]; [reflexivity|].
  cbn [list_ascii_of_string startswith]. cbn [forallb] in Hw.
  apply andb_true_iff in Hw. destruct (Ascii.eqb c "@") eqn:E; [|reflexivity].
  apply Ascii.eqb_eq in E. subst c. destruct Hw. congruence.
Qed.

Lemma filter_all {A : Type} (f : A -> bool) (l : list A) :
  (forall x, In x l -> f x = true) -> filter f l = l.
Proof.
  induction l as [|x l IH]; intros H; [reflexivity|]. cbn [filter].
  rewrite (H x (or_introl eq_refl)). f_equal. apply IH.
  intros y Hy. apply H. now right.
Qed.

(** A match of [\b([A-Z]{2,})\b] or of [\b([A-Z_]+)\b] does not start with
    [@]. *)
Lemma upper_match_not_at (line w : str) :
  In w (findall1 (word_pattern is_upper 2 true) line) ->
  startswith w "@" = false.
Proof.
  intros H. apply (findall1_word_pattern is_upper 2) in H;
    [| apply is_upper_word | lia].
  now apply (class_not_at is_upper).
Qed.

Lemma underscore_match_not_at (line w : str) :
  In w (findall1 (word_pattern ConverterV2.upper_or_underscore 1 true) line) ->
  startswith w "@" = false.
Proof.
  intros H.
  apply (findall1_word_pattern ConverterV2.upper_or_underscore 1) in H;
    [| apply upper_or_underscore_word | lia].
  now apply (class_not_at ConverterV2.upper_or_underscore).
Qed.

Lemma v3_line_keywords (line : str) :
  ConverterV3.line_keywords line = findall1 ConverterV3.keyword_pattern line.
Proof.
  apply filter_all. intros w H. now rewrite (upper_match_not_at line w H).
Qed.

(** C9. For every line, dropping the keyword candidates that start with [@]
    changes nothing: a match of [\b([A-Z]{2,})\b] starts with a letter
    [A-Z], and a match of [\b([A-Z_]+)\b] with such a letter or [_]. The
    filters of [compress_statement] (version 3), of [create_compressed_schema]
    (final) and of [_extract_keywords] (version 2, where the test on the
    length alone remains) leave the matches of the pattern as they are. *)
Theorem at_filter_is_identity (line : str) :
  ConverterV3.line_keywords line
    = findall1 ConverterV3.keyword_pattern line /\
  filter (fun w => negb (startswith w "@"))
         (findall1 ConverterFinal.main_keyword_pattern line)
    = findall1 ConverterFinal.main_keyword_pattern line /\
  filter ConverterV2.is_keyword (findall1 ConverterV2.keyword_pattern line)
    = filter (fun mt => 1 <? length mt)
             (findall1 ConverterV2.keyword_pattern line) /\
  (forall w, In w (findall1 ConverterV3.keyword_pattern line) ->
             startswith w "@" = false) /\
  (forall w, In w (findall1 ConverterV2.keyword_pattern line) ->
             startswith w "@" = false).
Proof.
  split; [apply v3_line_keywords|]. split; [apply v3_line_keywords|].
  split; [|split].
  - apply filter_ext_in. intros w H. unfold ConverterV2.is_keyword.
    now rewrite (underscore_match_not_at line w H).
  - apply upper_match_not_at.
  - apply underscore_match_not_at.
Qed.

(** ** The keywords of a line *)

Lemma outside_spans_spec (spans : list str) (w : str) :
  Converter.outside_spans spans w = true <->
  forall span, In span spans ->
               ~ exists pre post, span = pre ++ w ++ post.
Proof.
  unfold Converter.outside_spans. rewrite negb_true_iff. split.
  - intros H span Hs Hin. apply str_in_spec in Hin.
    assert (existsb (fun opt => str_in w opt) spans = true)
      by (apply existsb_exists; now exists span).
    congruence.
  - intros H. destruct (existsb _ spans) eqn:E; [|reflexivity].
    apply existsb_exists in E. destruct E as [span [Hs Hin]].
    apply str_in_spec in Hin. now destruct (H span Hs).
Qed.

(** The test is one of substrings: [SET] stands outside the brackets, and is
    dropped because it occurs in [RESET]. *)
Example substring_suppression :
  Converter.parse_bnf_line "SET @field [ RESET ]"
  = {| Converter.optional_choices := None;
       Converter.optional := Some ("RESET" : str);
       Converter.variables := Some [("field" : str)];
       Converter.keywords := None |}.
Proof. vm_compute. reflexivity. Qed.

(** The keywords of a line, by the matches of the two patterns: the matches
    of [\b[A-Z]{2,}\b] in the stripped line whose text occurs in none of the
    texts that the pattern of the bracketed spans returns. *)
Lemma line_keywords_spec (line w : str) :
  In w (Converter.from_option
          (Converter.keywords (Converter.parse_bnf_line line)))
  <->
  word_run is_upper 2 (strip line) w /\
  forall span,
    In span (findall1 Converter.optional_pattern (strip line)) ->
    ~ exists pre post, span = pre ++ w ++ post.
Proof.
  unfold Converter.parse_bnf_line.
  rewrite <- outside_spans_spec.
  rewrite <- (finditer_word_run is_upper 2 false is_upper_word) by lia.
  destruct (strip line) as [|c l] eqn:E.
  - cbn. tauto.
  - cbn [is_empty Converter.keywords]. rewrite nonempty_In, filter_In.
    reflexivity.
Qed.

(** ** Optional groups *)

Lemma choices_of_In (mt c : str) :
  In c (Converter.choices_of mt) <->
  In c (map strip (split "|" mt)) /\ c <> [] /\ startswith c "@" = false.
Proof.
  unfold Converter.choices_of. rewrite filter_In, andb_true_iff.
  rewrite !negb_true_iff. destruct c; cbn [is_empty]; intuition congruence.
Qed.

Lemma record_optional_choices (result : Converter.ParsedLine) (mt : str) :
  Converter.optional_choices (Converter.record_optional result mt) =
  if char_in "|" mt
  then match Converter.choices_of mt with
       | [] => Converter.optional_choices result
       | cs => Some cs
       end
  else Converter.optional_choices result.
Proof.
  unfold Converter.record_optional. destruct (char_in "|" mt).
  - now destruct (Converter.choices_of mt).
  - now destruct (negb (startswith mt "@")).
Qed.

Lemma fold_record_optional_choices (spans : list str) :
  forall (acc : Converter.ParsedLine) (cs : list str),
    Converter.optional_choices (fold_left Converter.record_optional spans acc)
      = Some cs ->
    Converter.optional_choices acc = Some cs \/
    (cs <> [] /\
     exists span, In span spans /\ char_in "|" span = true /\
                  cs = Converter.choices_of span).
Proof.
  induction spans as [|mt spans IH]; intros acc cs H; cbn [fold_left] in H.
  - now left.
  - apply IH in H. destruct H as [H | [Hcs [span [Hin H]]]].
    + rewrite record_optional_choices in H.
      destruct (char_in "|" mt) eqn:Bar; [|now left].
      destruct (Converter.choices_of mt) as [|c cs'] eqn:E; [now left|].
      right. injection H as <-. split; [discriminate|].
      exists mt. repeat split; [now left | assumption | now symmetry].
    + right. split; [assumption|]. exists span. split; [now right | assumption].
Qed.

Lemma last_cons {A : Type} (x d : A) (l : list A) :
  last (x :: l) d = last l x.
Proof.
  revert x d. induction l as [|y l IH]; intros x d; [reflexivity|].
  change (last (x :: y :: l) d) with (last (y :: l) d).
  now rewrite !IH.
Qed.

Lemma fold_record_optional_last (spans : list str) :
  forall acc : Converter.ParsedLine,
    Converter.optional_choices (fold_left Converter.record_optional spans acc)
    = last (map Some (Converter.choice_groups spans))
           (Converter.optional_choices acc).
Proof.
  induction spans as [|mt spans IH]; intros acc; [reflexivity|].
  cbn [fold_left]. rewrite IH, record_optional_choices.
  unfold Converter.choice_groups. cbn [filter].
  destruct (char_in "|" mt); [|reflexivity]. cbn [map filter].
  destruct (Converter.choices_of mt) as [|c cs]; [reflexivity|].
  cbn [is_empty negb map]. now rewrite last_cons.
Qed.

(** C5. A bracketed span with [|] is split into choices, the empty ones and
    those that start with [@] are dropped, and the span is recorded as a
    choice group exactly when a choice remains: then the group is the list of
    the remaining choices, otherwise the result is left as it was. The choice
    group that a line reports is the group of the last of its spans that has
    one; it is never empty and holds no empty choice and none that starts
    with [@]. For the line ["[A | B]"] the choices are [A] and [B]. *)
Theorem optional_choices_recorded :
  (forall (result : Converter.ParsedLine) (mt : str),
     char_in "|" mt = true ->
     (Converter.choices_of mt <> [] ->
      Converter.optional_choices (Converter.record_optional result mt)
        = Some (Converter.choices_of mt)) /\
     (Converter.choices_of mt = [] ->
      Converter.record_optional result mt = result)) /\
  (forall mt c : str,
     In c (Converter.choices_of mt) <->
     In c (map strip (split "|" mt)) /\ c <> [] /\ startswith c "@" = false) /\
  (forall line : str,
     Converter.optional_choices (Converter.parse_bnf_line line)
     = last (map Some
                 (Converter.choice_groups
                    (findall1 Converter.optional_pattern (strip line))))
            None) /\
  (forall (line : str) (cs : list str),
     Converter.optional_choices (Converter.parse_bnf_line line) = Some cs ->
     cs <> [] /\
     exists span,
       In span (findall1 Converter.optional_pattern (strip line)) /\
       char_in "|" span = true /\ cs = Converter.choices_of span) /\
  Converter.optional_choices (Converter.parse_bnf_line "[A | B]")
    = Some [("A" : str); ("B" : str)].
Proof.
  split; [|split; [|split; [|split]]].
  - intros result mt Bar. unfold Converter.record_optional. rewrite Bar.
    destruct (Converter.choices_of mt); split; intros H;
      congruence || reflexivity.
  - intros mt c. apply choices_of_In.
  - intros line. unfold Converter.parse_bnf_line.
    destruct (strip line) as [|c l]; [reflexivity|].
    cbn [is_empty Converter.optional_choices].
    apply fold_record_optional_last.
  - intros line cs H. unfold Converter.parse_bnf_line in H.
    destruct (is_empty (strip line)); [discriminate|].
    cbn [Converter.optional_choices] in H.
    apply fold_record_optional_choices in H.
    destruct H as [H | H]; [discriminate | assumption].
  - reflexivity.
Qed.

(** ** Statements with several syntax blocks *)

Lemma fold_set_update_In {A : Type} (f : A -> list str) (l : list A) :
  forall (acc : pyset) (k : str),
    In k (fold_left (fun s p => set_update s (f p)) l acc) <->
    In k acc \/ exists p, In p l /\ In k (f p).
Proof.
  induction l as [|x l IH]; intros acc k; cbn [fold_left].
  - split; [now left | intros [H | [p [[] _]]]; assumption].
  - rewrite IH, set_update_In. split.
    + intros [[H | H] | [p [Hp H]]].
      * now left.
      * right. exists x. split; [now left | assumption].
      * right. exists p. split; [now right | assumption].
    + intros [H | [p [[<- | Hp] H]]].
      * left. now left.
      * left. now right.
      * right. now exists p.
Qed.

Lemma sorted_nonempty_In (s : pyset) (k : str) :
  In k (Converter.from_option (option_map sorted (nonempty s))) <-> In k s.
Proof.
  destruct s as [|x s]; [reflexivity|].
  cbn [nonempty option_map Converter.from_option].
  apply sorted_In.
Qed.

Lemma parsed_lines_In (f : Converter.ParsedLine -> option (list str))
    (lines : list str) (k : str) :
  (forall p, f p <> None -> Converter.parsed_nonempty p = true) ->
  (exists p, In p (filter Converter.parsed_nonempty
                          (map Converter.parse_bnf_line lines)) /\
             In k (Converter.from_option (f p))) <->
  (exists line, In line lines /\
                In k (Converter.from_option
                        (f (Converter.parse_bnf_line line)))).
Proof.
  intros Hf. split.
  - intros [p [Hp H]]. apply filter_In in Hp. destruct Hp as [Hp _].
    apply in_map_iff in Hp. destruct Hp as [line [<- Hl]]. now exists line.
  - intros [line [Hl H]]. exists (Converter.parse_bnf_line line).
    split; [|assumption]. apply filter_In. split; [now apply in_map|].
    apply Hf. intros E. rewrite E in H. contradiction.
Qed.

(** The keywords and the variables of a structure are those of the lines of
    its own syntax block. *)
Lemma convert_statement_syntax_keywords (block k : str) :
  In k (Converter.from_option
          (Converter.st_keywords (Converter.convert_statement_syntax block)))
  <->
  exists line, In line (split "010" block) /\
    In k (Converter.from_option
            (Converter.keywords (Converter.parse_bnf_line line))).
Proof.
  unfold Converter.convert_statement_syntax. cbn [Converter.st_keywords].
  rewrite sorted_nonempty_In, fold_set_update_In.
  rewrite (parsed_lines_In Converter.keywords).
  - split; [intros [[] | H]; assumption | now right].
  - intros p. unfold Converter.parsed_nonempty.
    destruct (Converter.optional_choices p), (Converter.optional p),
      (Converter.variables p), (Converter.keywords p); congruence.
Qed.

Lemma convert_statement_syntax_variables (block k : str) :
  In k (Converter.from_option
          (Converter.st_variables (Converter.convert_statement_syntax block)))
  <->
  exists line, In line (split "010" block) /\
    In k (Converter.from_option
            (Converter.variables (Converter.parse_bnf_line line))).
Proof.
  unfold Converter.convert_statement_syntax. cbn [Converter.st_variables].
  rewrite sorted_nonempty_In, fold_set_update_In.
  rewrite (parsed_lines_In Converter.variables).
  - split; [intros [[] | H]; assumption | now right].
  - intros p. unfold Converter.parsed_nonempty.
    destruct (Converter.optional_choices p), (Converter.optional p),
      (Converter.variables p), (Converter.keywords p); congruence.
Qed.

(** C7. A statement with two syntax blocks is stored as two variants, the
    structure of the first block and the structure of the second, in this
    order, and the metadata (title, description, label) once, beside the
    variants. Each variant is computed from its own block: its keywords and
    its variables are those of the lines of that block, whatever the other
    block holds. *)
Theorem two_blocks_two_variants (data : Converter.RawEntry) (b1 b2 : str) :
  Converter.syntax_blocks data = [b1; b2] ->
  Converter.process_statement data =
    Converter.Variants
      [Converter.convert_statement_syntax b1;
       Converter.convert_statement_syntax b2]
      {| Converter.m_title := Converter.get_or_empty (Converter.title data);
         Converter.m_description :=
           Converter.get_or_empty (Converter.description data);
         Converter.m_sidebar_label :=
           Converter.get_or_empty (Converter.sidebar_label data) |} /\
  forall (b k : str), In b [b1; b2] ->
    (In k (Converter.from_option
             (Converter.st_keywords (Converter.convert_statement_syntax b)))
     <-> exists line, In line (split "010" b) /\
           In k (Converter.from_option
                   (Converter.keywords (Converter.parse_bnf_line line)))) /\
    (In k (Converter.from_option
             (Converter.st_variables (Converter.convert_statement_syntax b)))
     <-> exists line, In line (split "010" b) /\
           In k (Converter.from_option
                   (Converter.variables (Converter.parse_bnf_line line)))).
Proof.
  intros H. split.
  - unfold Converter.process_statement. now rewrite H.
  - intros b k _. split;
      [apply convert_statement_syntax_keywords
      | apply convert_statement_syntax_variables].
Qed.

Lemma two_blocks_two_variants_witness :
  Converter.process_statement Samples.define_user_entry =
    Converter.Variants
      [Converter.convert_statement_syntax "DEFINE USER @name ON ROOT";
       Converter.convert_statement_syntax
         "DEFINE USER @name ON DATABASE PASSWORD @pass"]
      {| Converter.m_title := "DEFINE USER";
         Converter.m_description := "";
         Converter.m_sidebar_label := "" |}.
Proof.
  exact (proj1 (two_blocks_two_variants Samples.define_user_entry _ _ eq_refl)).
Defined.

(** ** Function signatures *)

(** C6. The signature [array::add(array, value) -> array] parses to the
    namespace [array], the function [add], the parameters of type [array]
    and [value], in this order and without name, and the return type
    [array]; the signature so parsed compresses to [av>a], in version 3 and
    in the final converter. *)
Theorem array_add_signature :
  ExtractorV2.parse_function_signature "array::add(array, value) -> array"
    = Some Samples.array_add /\
  ConverterV3._compress_signature Samples.array_add = "av>a" /\
  ConverterFinal._compress_signature Samples.array_add = "av>a".
Proof. repeat split; vm_compute; reflexivity. Qed.

(** ** Statements without syntax *)

Lemma dict_get_set {V : Type} (key k : str) (v : V) (d : list (str * V)) :
  dict_get key (dict_set k v d) =
  if str_eqb k key then Some v else dict_get key d.
Proof.
  induction d as [|[k' w] d IH]; cbn [dict_set dict_get].
  - reflexivity.
  - destruct (str_eqb k' k) eqn:E; cbn [dict_get].
    + apply str_eqb_eq in E. subst k'. now destruct (str_eqb k key).
    + rewrite IH. destruct (str_eqb k' key) eqn:E1; [|reflexivity].
      apply str_eqb_eq in E1. subst k'.
      destruct (str_eqb k key) eqn:E2; [|reflexivity].
      apply str_eqb_eq in E2. subst k. now rewrite str_eqb_refl in E.
Qed.

Section Loops.
Context {S V : Type}.
Variable proj : S -> list (str * V).
Variable key_of : str -> str.
Variable step : S -> str * StmtData -> S.

(** A statement without syntax leaves the state as it is; any other stores
    one value under the key of its name. *)
Hypothesis step_skip :
  forall acc n d, no_syntax d -> step acc (n, d) = acc.
Hypothesis step_store :
  forall acc n d, ~ no_syntax d ->
    exists v, proj (step acc (n, d)) = dict_set (key_of n) v (proj acc).

Lemma no_syntax_dec (d : StmtData) : {no_syntax d} + {~ no_syntax d}.
Proof.
  unfold no_syntax. destruct (stmt_syntax d) as [[|b l]|].
  - left. now right.
  - right. intros [H | H]; discriminate.
  - left. now left.
Qed.

Lemma loop_skip (before after : list (str * StmtData)) (n : str)
    (d : StmtData) (acc : S) :
  no_syntax d ->
  fold_left step (before ++ (n, d) :: after) acc =
  fold_left step (before ++ after) acc.
Proof.
  intros H. rewrite !fold_left_app. cbn [fold_left]. now rewrite step_skip.
Qed.

Lemma loop_absent (key : str) (l : list (str * StmtData)) :
  forall acc,
    dict_get key (proj acc) = None ->
    (forall n d, In (n, d) l -> key_of n = key -> no_syntax d) ->
    dict_get key (proj (fold_left step l acc)) = None.
Proof.
  induction l as [|[n d] l IH]; intros acc Hacc Hl; cbn [fold_left].
  - assumption.
  - apply IH; [|intros n' d' H; apply Hl; now right].
    destruct (no_syntax_dec d) as [Hd | Hd].
    + now rewrite step_skip.
    + destruct (step_store acc n d Hd) as [v ->]. rewrite dict_get_set.
      destruct (str_eqb (key_of n) key) eqn:E; [|assumption].
      apply str_eqb_eq in E. destruct Hd.
      apply (Hl n d); [now left | assumption].
Qed.

End Loops.

Ltac loop_step_skip :=
  intros ? ? d [H | H]; cbn beta iota; now rewrite H.

Ltac loop_step_store :=
  intros acc ? d H; unfold no_syntax in H; cbn beta iota;
  destruct (stmt_syntax d) as [[|? ?]|];
  [ destruct H; now right | eexists; reflexivity | destruct H; now left ].

(** C8. A statement whose list of syntax blocks is missing or empty is
    skipped in every tier: the full tier and the compressed tier of the final
    converter, the enhanced tier and its routes (version 2) and the
    compressed tier of version 3 are what they are without the statement,
    and hold nothing under its key unless another statement is stored under
    the same key. *)
Theorem statements_without_syntax_skipped (order : set_order)
    (before after : list (str * StmtData)) (name : str) (data : StmtData) :
  no_syntax data ->
  (ConverterFinal.create_full_schema_statements order
     (before ++ (name, data) :: after)
     = ConverterFinal.create_full_schema_statements order (before ++ after) /\
   ConverterFinal.create_compressed_schema_statements
     (before ++ (name, data) :: after)
     = ConverterFinal.create_compressed_schema_statements (before ++ after) /\
   ConverterV2.convert_statements order (before ++ (name, data) :: after)
     = ConverterV2.convert_statements order (before ++ after) /\
   ConverterV3.convert_all_statements (before ++ (name, data) :: after)
     = ConverterV3.convert_all_statements (before ++ after)) /\
  ((forall n d, In (n, d) (before ++ after) -> n <> name) ->
   dict_get name
     (ConverterFinal.create_full_schema_statements order
        (before ++ (name, data) :: after))
     = None /\
   dict_get name
     (fst (ConverterV2.convert_statements order
             (before ++ (name, data) :: after)))
     = None) /\
  ((forall n d, In (n, d) (before ++ after) ->
      ConverterV2.route_key n <> ConverterV2.route_key name) ->
   dict_get (ConverterV2.route_key name)
     (snd (ConverterV2.convert_statements order
             (before ++ (name, data) :: after)))
     = None) /\
  ((forall n d, In (n, d) (before ++ after) ->
      ConverterFinal._abbreviate_statement n
        <> ConverterFinal._abbreviate_statement name) ->
   dict_get (ConverterFinal._abbreviate_statement name)
     (ConverterFinal.create_compressed_schema_statements
        (before ++ (name, data) :: after))
     = None) /\
  ((forall n d, In (n, d) (before ++ after) ->
      ConverterV3._abbreviate_statement n
        <> ConverterV3._abbreviate_statement name) ->
   dict_get (ConverterV3._abbreviate_statement name)
     (ConverterV3.convert_all_statements (before ++ (name, data) :: after))
     = None).
Proof.
  intros Hd.
  assert (Hin : forall (P : str -> Prop),
            (forall n d, In (n, d) (before ++ after) -> ~ P n) ->
            forall n d, In (n, d) (before ++ (name, data) :: after) ->
                        P n -> no_syntax d).
  { intros P HP n d H Pn. apply in_app_iff in H.
    destruct H as [H | [H | H]].
    - destruct (HP n d); [apply in_app_iff; now left | assumption].
    - now injection H as <- <-.
    - destruct (HP n d); [apply in_app_iff; now right | assumption]. }
  split; [|split; [|split; [|split]]].
  - repeat split.
    + apply loop_skip; [loop_step_skip | assumption].
    + apply loop_skip; [loop_step_skip | assumption].
    + apply loop_skip; [|assumption].
      intros [? ?] ? d [H | H]; cbn beta iota; now rewrite H.
    + apply loop_skip; [|assumption].
      intros ? n d [H | H]; unfold ConverterV3.compress_statement;
        now rewrite H.
  - intros Hn. split.
    + apply (loop_absent (fun s => s) (fun n => n));
        [loop_step_skip | loop_step_store | reflexivity |].
      apply (Hin (fun n => n = name)). intros n d H. now apply (Hn n d).
    + apply (loop_absent fst (fun n => n)).
      * intros [? ?] ? d [H | H]; cbn beta iota; now rewrite H.
      * intros [stmts routes] ? d H; unfold no_syntax in H; cbn beta iota.
        destruct (stmt_syntax d) as [[|? ?]|];
          [ destruct H; now right | eexists; reflexivity
          | destruct H; now left ].
      * reflexivity.
      * apply (Hin (fun n => n = name)). intros n d H. now apply (Hn n d).
  - intros Hn. apply (loop_absent snd ConverterV2.route_key).
    + intros [? ?] ? d [H | H]; cbn beta iota; now rewrite H.
    + intros [stmts routes] ? d H; unfold no_syntax in H; cbn beta iota.
      destruct (stmt_syntax d) as [[|? ?]|];
        [ destruct H; now right | eexists; reflexivity | destruct H; now left ].
    + reflexivity.
    + apply (Hin (fun n => ConverterV2.route_key n
                           = ConverterV2.route_key name)).
      intros n d H. now apply (Hn n d).
  - intros Hn.
    apply (loop_absent (fun s => s) ConverterFinal._abbreviate_statement);
      [loop_step_skip | loop_step_store | reflexivity |].
    apply (Hin (fun n => ConverterFinal._abbreviate_statement n
                         = ConverterFinal._abbreviate_statement name)).
    intros n d H. now apply (Hn n d).
  - intros Hn.
    apply (loop_absent (fun s => s) ConverterV3._abbreviate_statement).
    + intros ? n d [H | H]; unfold ConverterV3.compress_statement;
        now rewrite H.
    + intros acc n d H. unfold no_syntax in H.
      unfold ConverterV3.compress_statement.
      destruct (stmt_syntax d) as [[|? ?]|];
        [ destruct H; now right | eexists; reflexivity | destruct H; now left ].
    + reflexivity.
    + apply (Hin (fun n => ConverterV3._abbreviate_statement n
                           = ConverterV3._abbreviate_statement name)).
      intros n d H. now apply (Hn n d).
Qed.

Lemma statements_without_syntax_skipped_witness :
  ConverterFinal.create_compressed_schema_statements
    (Samples.select_statement ++ ("live" : str, Samples.live_data) :: [])
  = ConverterFinal.create_compressed_schema_statements
      (Samples.select_statement ++ []).
Proof.
  exact (proj1 (proj2 (proj1
    (statements_without_syntax_skipped insertion_order
       Samples.select_statement [] "live" Samples.live_data
       (or_intror eq_refl))))).
Defined.

(** ** Order of the sets *)

Lemma fold_set_update_NoDup {A : Type} (f : A -> list str) (l : list A) :
  forall acc : pyset,
    NoDup acc -> NoDup (fold_left (fun s x => set_update s (f x)) l acc).
Proof.
  induction l as [|x l IH]; intros acc H; cbn [fold_left]; [assumption|].
  apply IH. now apply set_update_NoDup.
Qed.

(** A list of two elements or more, without repetition, does not start as its
    reverse does. *)
Lemma firstn_rev_differs (n : nat) (l : list str) :
  NoDup l -> 2 <= length l -> firstn (S n) l <> firstn (S n) (rev l).
Proof.
  intros Hn Hl. destruct l as [|x l]; [cbn in Hl; lia|].
  destruct (rev l) as [|y r] eqn:E.
  - apply (f_equal (@length str)) in E. rewrite length_rev in E.
    cbn in Hl, E. lia.
  - cbn [rev]. rewrite E. cbn [app firstn]. intros H. injection H as H _.
    subst y. inversion Hn as [|? ? Hx _]. apply Hx. apply in_rev.
    rewrite E. now left.
Qed.

(** The keyword list of the full tier is not the same under the two orders as
    soon as the first syntax block has two keywords. *)
Lemma full_keywords_follow_order (stmt_name : str) (stmt_data : StmtData)
    (block : str) (blocks : list str) :
  stmt_syntax stmt_data = Some (block :: blocks) ->
  2 <= length (ConverterFinal._extract_keywords
                 (ConverterFinal._parse_statement_syntax block)) ->
  ConverterFinal.create_full_schema_statements insertion_order
    [(stmt_name, stmt_data)]
  <> ConverterFinal.create_full_schema_statements reverse_order
       [(stmt_name, stmt_data)].
Proof.
  intros Hs Hl. unfold ConverterFinal.create_full_schema_statements.
  cbn [fold_left]. rewrite Hs. cbn [dict_set]. intros H.
  apply (f_equal (fun d => match d with
                           | (_, v) :: _ => ConverterFinal.keywords v
                           | [] => []
                           end)) in H.
  cbn [ConverterFinal.keywords] in H. revert H.
  apply firstn_rev_differs; [|assumption].
  unfold ConverterFinal._extract_keywords. apply fold_set_update_NoDup.
  constructor.
Qed.

(** C1. The full tier of the final converter and the enhanced tier of
    version 2 list a set in the order in which the process iterates over it.
    For the statement [SELECT @fields FROM @targets], two orders, each listing
    every element of a set once, give different keyword and variable lists:
    the output depends on the order of iteration over the sets. So it is for
    every statement whose first syntax block has two keywords. *)
Theorem output_depends_on_set_order :
  admissible insertion_order /\ admissible reverse_order /\
  ConverterFinal.create_full_schema_statements insertion_order
    Samples.select_statement
    = [("select" : str,
        {| ConverterFinal.keywords := [("SELECT" : str); ("FROM" : str)];
           ConverterFinal.variables := [("fields" : str); ("targets" : str)];
           ConverterFinal.syntax_pattern := "SELECT <var> FROM <var>" |})] /\
  ConverterFinal.create_full_schema_statements reverse_order
    Samples.select_statement
    = [("select" : str,
        {| ConverterFinal.keywords := [("FROM" : str); ("SELECT" : str)];
           ConverterFinal.variables := [("targets" : str); ("fields" : str)];
           ConverterFinal.syntax_pattern := "SELECT <var> FROM <var>" |})] /\
  ConverterFinal.create_full_schema_statements insertion_order
    Samples.select_statement
    <> ConverterFinal.create_full_schema_statements reverse_order
         Samples.select_statement /\
  ConverterV2.convert_statements insertion_order Samples.select_statement
    <> ConverterV2.convert_statements reverse_order Samples.select_statement /\
  (forall (stmt_name : str) (stmt_data : StmtData) (block : str)
          (blocks : list str),
     stmt_syntax stmt_data = Some (block :: blocks) ->
     2 <= length (ConverterFinal._extract_keywords
                    (ConverterFinal._parse_statement_syntax block)) ->
     ConverterFinal.create_full_schema_statements insertion_order
       [(stmt_name, stmt_data)]
     <> ConverterFinal.create_full_schema_statements reverse_order
          [(stmt_name, stmt_data)]).
Proof.
  split; [apply insertion_order_admissible|].
  split; [apply reverse_order_admissible|].
  split; [vm_compute; reflexivity|]. split; [vm_compute; reflexivity|].
  split; [vm_compute; discriminate|]. split; [vm_compute; discriminate|].
  apply full_keywords_follow_order.
Qed.

(** ** Keywords of the compressed tier *)

(** C2. The compressed tier of the final converter keeps the first three
    keywords of the first three lines as they come, without removing
    repetitions: for a statement whose lines are
    [SELECT @fields FROM @targets] and [SELECT VALUE @field FROM @targets] it
    stores [SELECT], [FROM], [SELECT], where version 3 stores [SELECT],
    [FROM], [VALUE]. *)
Theorem final_compressed_keywords_repeat :
  ConverterFinal.create_compressed_schema_statements Samples.two_selects
    = [("sel" : str, [("SELECT" : str); ("FROM" : str); ("SELECT" : str)])] /\
  ~ NoDup [("SELECT" : str); ("FROM" : str); ("SELECT" : str)] /\
  ConverterV3.convert_all_statements Samples.two_selects
    = [("sel" : str, [("SELECT" : str); ("FROM" : str); ("VALUE" : str)])].
Proof.
  split; [vm_compute; reflexivity|]. split; [|vm_compute; reflexivity].
  intros H. inversion H as [|x l Hx _]. apply Hx. right. now left.
Qed.

Lemma subseq_nil_l {A : Type} (l : list A) : subseq [] l.
Proof. induction l; constructor; assumption. Qed.

Lemma subseq_app_one {A : Type} (l l' : list A) (x : A) :
  subseq l l' -> subseq (l ++ [x]) (l' ++ [x]).
Proof.
  induction 1; cbn [app].
  - apply subseq_take, subseq_nil.
  - now apply subseq_skip.
  - now apply subseq_take.
Qed.

Lemma subseq_app_skip {A : Type} (l l' : list A) (x : A) :
  subseq l l' -> subseq l (l' ++ [x]).
Proof.
  induction 1; cbn [app].
  - apply subseq_skip, subseq_nil.
  - now apply subseq_skip.
  - now apply subseq_take.
Qed.

Lemma keep_essential_spec (kws : list str) :
  forall seen ess,
    length ess <= 3 -> NoDup ess -> subseq ess seen ->
    let l := fold_left ConverterV3.keep_essential kws ess in
    length l <= 3 /\ NoDup l /\ subseq l (seen ++ kws).
Proof.
  induction kws as [|k kws IH]; intros seen ess Hl Hn Hs; cbn [fold_left].
  - now rewrite app_nil_r.
  - replace (seen ++ k :: kws) with ((seen ++ [k]) ++ kws)
      by now rewrite <- app_assoc.
    destruct (existsb (str_eqb k) ess) eqn:E.
    + replace (ConverterV3.keep_essential ess k) with ess
        by (unfold ConverterV3.keep_essential; now rewrite E).
      apply IH; [assumption | assumption | now apply subseq_app_skip].
    + destruct (length ess <? 3) eqn:L.
      * replace (ConverterV3.keep_essential ess k) with (ess ++ [k])
          by (unfold ConverterV3.keep_essential; now rewrite E, L).
        apply Nat.ltb_lt in L. apply IH.
        -- rewrite length_app. cbn. lia.
        -- apply NoDup_app; [assumption | repeat constructor; intros [] |].
           intros y Hy [<- | []]. apply existsb_str_eqb in Hy. congruence.
        -- now apply subseq_app_one.
      * replace (ConverterV3.keep_essential ess k) with ess
          by (unfold ConverterV3.keep_essential; now rewrite E, L).
        apply IH; [assumption | assumption | now apply subseq_app_skip].
Qed.

(** X1. The keywords that version 3 stores for a statement with a syntax
    block: at most three, without repetition, in the order of the matches of
    the first three lines of the first syntax block, each of them an
    uppercase run of one of these lines. *)
Theorem v3_keywords (stmt_name : str) (stmt_data : StmtData)
    (block : str) (blocks : list str) (l : list str) :
  stmt_syntax stmt_data = Some (block :: blocks) ->
  ConverterV3.compress_statement stmt_name stmt_data = Some l ->
  length l <= 3 /\ NoDup l /\
  subseq l (flat_map (findall1 ConverterV3.keyword_pattern)
                     (firstn 3 (split "010" block))) /\
  forall k, In k l ->
    exists line, In line (firstn 3 (split "010" block)) /\
                 word_run is_upper 2 line k.
Proof.
  intros Hs H. unfold ConverterV3.compress_statement in H. rewrite Hs in H.
  injection H as <-.
  destruct (keep_essential_spec (ConverterV3.main_keywords block) [] [])
    as [H1 [H2 H3]]; [cbn; lia | constructor | constructor |].
  cbn [app] in H3.
  assert (E : ConverterV3.main_keywords block
              = flat_map (findall1 ConverterV3.keyword_pattern)
                         (firstn 3 (split "010" block))).
  { unfold ConverterV3.main_keywords. apply flat_map_ext. intros line.
    apply v3_line_keywords. }
  rewrite E in *. repeat split; try assumption.
  intros k Hk.
  assert (Hin : forall (a b : list str),
            subseq a b -> forall x, In x a -> In x b).
  { induction 1; intros y Hy; [assumption | right; now apply IHsubseq |].
    destruct Hy as [<- | Hy]; [now left | right; now apply IHsubseq]. }
  apply (Hin _ _ H3) in Hk. apply in_flat_map in Hk.
  destruct Hk as [line [Hl Hk]]. exists line. split; [assumption|].
  apply (findall1_word_pattern is_upper 2) in Hk; [| apply is_upper_word | lia].
  destruct Hk as [Hk _].
  now apply (finditer_word_run is_upper 2 true is_upper_word) in Hk; [|lia].
Qed.

Lemma v3_keywords_witness :
  NoDup [("SELECT" : str); ("FROM" : str); ("VALUE" : str)].
Proof.
  apply (v3_keywords "select"
           (Samples.only_syntax
              (("SELECT @fields FROM @targets" : str) ++ ["010"%char]
                 ++ "SELECT VALUE @field FROM @targets"))
           (("SELECT @fields FROM @targets" : str) ++ ["010"%char]
              ++ "SELECT VALUE @field FROM @targets")
           []);
    vm_compute; reflexivity.
Defined.

(** ** Paths of the compressed tier *)

Lemma split_no_sep (sep : ascii) (s : str) :
  char_in sep s = false -> split sep s = [s].
Proof.
  unfold char_in. induction s as [|c s IH]; [reflexivity|].
  cbn [existsb split]. rewrite (Ascii.eqb_sym c sep).
  destruct (Ascii.eqb sep c); cbn [orb]; [discriminate|].
  intros H. now rewrite (IH H).
Qed.

Lemma split_app_sep (sep : ascii) (a b : str) :
  char_in sep a = false ->
  split sep (a ++ sep :: b) = a :: split sep b.
Proof.
  unfold char_in. induction a as [|c a IH]; cbn [existsb split app].
  - now rewrite Ascii.eqb_refl.
  - rewrite (Ascii.eqb_sym c sep).
    destruct (Ascii.eqb sep c); cbn [orb]; [discriminate|].
    intros H. now rewrite (IH H).
Qed.

Lemma char_in_app (c : ascii) (a b : str) :
  char_in c (a ++ b) = char_in c a || char_in c b.
Proof. apply existsb_app. Qed.

(** X3. A path of two segments is abbreviated segment by segment: each
    segment becomes its entry in the table, or its first three characters. *)
Theorem abbreviate_two_segments (a b : str) :
  char_in "/" a = false -> char_in "/" b = false ->
  ConverterV3._abbreviate_statement (a ++ "/" ++ b)
    = ConverterV3.abbreviate ConverterV3.abbreviations a ++ "/"
        ++ ConverterV3.abbreviate ConverterV3.abbreviations b /\
  ConverterFinal._abbreviate_statement (a ++ "/" ++ b)
    = ConverterV3.abbreviate ConverterFinal.abbreviations a ++ "/"
        ++ ConverterV3.abbreviate ConverterFinal.abbreviations b /\
  ConverterV3._abbreviate_statement a
    = ConverterV3.abbreviate ConverterV3.abbreviations a /\
  ConverterFinal._abbreviate_statement a
    = ConverterV3.abbreviate ConverterFinal.abbreviations a.
Proof.
  intros Ha Hb.
  assert (E : char_in "/" (a ++ "/" ++ b) = true).
  { rewrite char_in_app. cbn. now rewrite orb_true_r. }
  unfold ConverterV3._abbreviate_statement,
    ConverterFinal._abbreviate_statement.
  rewrite E, Ha.
  change (a ++ "/" ++ b) with (a ++ "/"%char :: b).
  rewrite (split_app_sep _ _ _ Ha), (split_no_sep _ _ Hb).
  repeat split; reflexivity.
Qed.

Lemma abbreviate_two_segments_witness :
  ConverterV3._abbreviate_statement ("define" ++ "/" ++ "table") = "def/tbl" /\
  ConverterFinal._abbreviate_statement ("define" ++ "/" ++ "table")
    = "def/tab".
Proof.
  split.
  - exact (proj1 (abbreviate_two_segments "define" "table" eq_refl eq_refl)).
  - exact (proj1 (proj2
             (abbreviate_two_segments "define" "table" eq_refl eq_refl))).
Defined.

(** ** Type codes *)

Lemma matches_lits (pre : str) : forall b a g b' a' g',
  matches (lits pre) b a g b' a' g' ->
  a = pre ++ a' /\ b' = rev pre ++ b /\ g' = g.
Proof.
  induction pre as [|c pre IH]; intros b a g b' a' g' M;
    unfold lits in M; cbn [map cat fold_right] in M.
  - inversion M; subst. now repeat split.
  - inversion M as [| | | | ? ? ? ? ? b1 a1 g1 ? ? ? M1 M2 | | | | | | |];
      subst.
    inversion M1; subst. apply IH in M2. destruct M2 as [-> [-> ->]].
    repeat split. cbn [rev]. now rewrite <- app_assoc.
Qed.

Lemma m_lits (pre : str) (k : cont) : forall b a g,
  m (lits pre) k b (pre ++ a) g = k (rev pre ++ b) a g.
Proof.
  induction pre as [|c pre IH]; intros b a g.
  - reflexivity.
  - unfold lits. cbn [map cat fold_right m app]. rewrite Ascii.eqb_refl.
    fold (cat (map Lit pre)). fold (lits pre). rewrite IH.
    cbn [rev]. now rewrite <- app_assoc.
Qed.

(** What the search for [prefix(.+)>] finds is shorter than the subject. *)
Lemma inner_pattern_match (prefix s : str) (mo : mobj) :
  match_in (ConverterV3.inner_pattern prefix) s mo ->
  exists l x r,
    s = l ++ prefix ++ x ++ ">" ++ r /\ x <> [] /\
    forallb is_dot x = true /\ group_or_empty 1 mo = x.
Proof.
  intros [b [a [-> [w [a' [g' [-> [M ->]]]]]]]].
  unfold ConverterV3.inner_pattern, plus in M. cbn [cat fold_right] in M.
  inversion M as [| | | | ? ? ? ? ? b1 a1 g1 ? ? ? M1 M2 | | | | | | |]; subst.
  clear M. apply matches_lits in M1. destruct M1 as [E [-> ->]].
  inv_matches.
  exists (rev b), x, a'. rewrite E. repeat split; try assumption.
  - intros ->. cbn in *. lia.
  - unfold group_or_empty. cbn. now rewrite consumed_app.
Qed.

Lemma inner_of_shorter (prefix s inner : str) :
  ConverterV3.inner_of prefix (ConverterV3.inner_pattern prefix) s
    = Some inner ->
  inner <> [] /\ length inner < length s.
Proof.
  unfold ConverterV3.inner_of. destruct (startswith s prefix); [|discriminate].
  destruct (search (ConverterV3.inner_pattern prefix) s) as [mo|] eqn:E;
    [|discriminate].
  cbn [option_map]. intros H. injection H as <-.
  apply search_sound, inner_pattern_match in E.
  destruct E as [l [x [r [-> [Hx [_ ->]]]]]]. split; [assumption|].
  rewrite !length_app. cbn. lia.
Qed.

(** Greedy repetition stops at the last place, from the right, where the rest
    of the pattern matches: here, one character before the end. *)
Lemma many_greedy_last (p : ascii -> bool) (k : cont) (c : ascii) (g : caps)
    (o : out) :
  p c = true ->
  forall (T : str) (min : nat) (b : str),
    forallb p T = true -> min <= length T ->
    k (c :: rev T ++ b) [] g = None ->
    k (rev T ++ b) [c] g = Some o ->
    many_greedy p k min b (T ++ [c]) g = Some o.
Proof.
  intros Pc. induction T as [|t T IH]; intros min b HT Hm Hend Hlast.
  - destruct min; [|cbn in Hm; lia]. cbn in Hend, Hlast.
    cbn [app many_greedy]. now rewrite Pc, Hend.
  - cbn [forallb] in HT. apply andb_true_iff in HT. destruct HT as [Pt HT].
    cbn [app many_greedy]. rewrite Pt.
    rewrite (IH (pred min) (t :: b)); try assumption.
    + reflexivity.
    + cbn in Hm. lia.
    + now rewrite <- rev_cons_app.
    + now rewrite <- rev_cons_app.
Qed.

Lemma search_from_here (r : re) (b a : str) (o : out) :
  match_at r b a = Some o -> search_from r b a = Some (mk_mobj b o).
Proof. intros H. destruct a; cbn [search_from]; now rewrite H. Qed.

(** On [prefix ++ T ++ ">"], for a [T] that is not empty and has no line
    break, the search finds [T]. *)
Lemma inner_of_exact (prefix T : str) :
  T <> [] -> forallb is_dot T = true ->
  ConverterV3.inner_of prefix (ConverterV3.inner_pattern prefix)
                       (prefix ++ T ++ ">")
    = Some T.
Proof.
  intros HT Hdot. unfold ConverterV3.inner_of.
  replace (startswith (prefix ++ T ++ ">") prefix) with true
    by (symmetry; apply startswith_spec; now eexists).
  unfold search.
  assert (E : exists o,
             match_at (ConverterV3.inner_pattern prefix) []
                      (prefix ++ T ++ ">")
                          = Some o /\
                        group_or_empty 1 (mk_mobj [] o) = T).
  { unfold match_at, ConverterV3.inner_pattern, plus. cbn [cat fold_right m].
    rewrite m_lits. eexists. split.
    - apply many_greedy_last; [reflexivity | assumption | | reflexivity |].
      + destruct T; [congruence | cbn; lia].
      + cbn [m]. rewrite Ascii.eqb_refl. reflexivity.
    - unfold group_or_empty. cbn. now rewrite consumed_app. }
  destruct E as [o [E G]]. rewrite (search_from_here _ _ _ _ E).
  cbn [option_map]. now rewrite G.
Qed.

(** With more fuel than the text is long, [compress_type_fuel] returns, and
    returns the same code whatever the fuel. *)
Lemma compress_type_fuel_enough : forall (fuel : nat) (s : str),
  length s < fuel ->
  ConverterV3.compress_type_fuel fuel s = Some (ConverterV3.compress_type s).
Proof.
  assert (H : forall n m s, length s < n -> length s < m ->
            ConverterV3.compress_type_fuel n s <> None /\
            ConverterV3.compress_type_fuel n s
              = ConverterV3.compress_type_fuel m s).
  { induction n as [|n IH]; intros m s Hn Hm; [lia|].
    destruct m as [|m]; [lia|]. cbn [ConverterV3.compress_type_fuel].
    destruct (is_empty s); [split; [discriminate | reflexivity]|].
    change ConverterV3.array_pattern with (ConverterV3.inner_pattern "array<").
    change ConverterV3.option_pattern
      with (ConverterV3.inner_pattern "option<").
    destruct (ConverterV3.inner_of "array<" _ (lower s)) as [inner|] eqn:Ea.
    { apply inner_of_shorter in Ea. rewrite length_lower in Ea.
      destruct (IH m inner) as [H1 H2]; [lia | lia |]. rewrite <- H2.
      split; [|reflexivity].
      now destruct (ConverterV3.compress_type_fuel n inner). }
    destruct (ConverterV3.inner_of "option<" _ (lower s)) as [inner|] eqn:Eo.
    { apply inner_of_shorter in Eo. rewrite length_lower in Eo.
      destruct (IH m inner) as [H1 H2]; [lia | lia |]. rewrite <- H2.
      split; [|reflexivity].
      now destruct (ConverterV3.compress_type_fuel n inner). }
    split; [discriminate | reflexivity]. }
  intros fuel s Hf. unfold ConverterV3.compress_type.
  destruct (H fuel (S (length s)) s Hf (Nat.lt_succ_diag_r _)) as [H1 H2].
  rewrite <- H2. now destruct (ConverterV3.compress_type_fuel fuel s).
Qed.

(** [compress_type] always returns a code: the fuel of its definition is
    never used up. *)
Lemma compress_type_total (s : str) :
  ConverterV3.compress_type_fuel (S (length s)) s
    = Some (ConverterV3.compress_type s).
Proof. apply compress_type_fuel_enough. lia. Qed.

(** The equation of [compress_type], as the source reads. *)
Lemma compress_type_unfold (s : str) :
  ConverterV3.compress_type s =
  if is_empty s then "*" : str else
  match ConverterV3.inner_of "array<" ConverterV3.array_pattern (lower s) with
  | Some inner => "a" ++ ConverterV3.compress_type inner
  | None =>
      match ConverterV3.inner_of "option<" ConverterV3.option_pattern
                                 (lower s) with
      | Some inner => "?" ++ ConverterV3.compress_type inner
      | None =>
          match dict_get (lower s) ConverterV3.type_map with
          | Some code => code
          | None => "*" : str
          end
      end
  end.
Proof.
  unfold ConverterV3.compress_type at 1.
  cbn [ConverterV3.compress_type_fuel].
  destruct (is_empty s); [reflexivity|].
  change ConverterV3.array_pattern with (ConverterV3.inner_pattern "array<").
  change ConverterV3.option_pattern with (ConverterV3.inner_pattern "option<").
  destruct (ConverterV3.inner_of "array<" _ (lower s)) as [inner|] eqn:Ea.
  { apply inner_of_shorter in Ea. rewrite length_lower in Ea.
    rewrite compress_type_fuel_enough by lia. reflexivity. }
  destruct (ConverterV3.inner_of "option<" _ (lower s)) as [inner|] eqn:Eo.
  { apply inner_of_shorter in Eo. rewrite length_lower in Eo.
    rewrite compress_type_fuel_enough by lia. reflexivity. }
  reflexivity.
Qed.

Lemma compress_type_lower (s : str) :
  ConverterV3.compress_type (lower s) = ConverterV3.compress_type s.
Proof.
  rewrite (compress_type_unfold (lower s)), (compress_type_unfold s).
  now rewrite is_empty_lower, lower_idem.
Qed.

Lemma inner_of_lower_exact (prefix T : str) :
  lower prefix = prefix -> T <> [] -> forallb is_dot T = true ->
  ConverterV3.inner_of prefix (ConverterV3.inner_pattern prefix)
                       (lower (prefix ++ T ++ ">"))
    = Some (lower T).
Proof.
  intros Hp HT Hdot. rewrite !lower_app, Hp.
  change (lower ">") with (">" : str). apply inner_of_exact.
  - destruct T; [congruence | discriminate].
  - now rewrite forallb_is_dot_lower.
Qed.

Lemma compress_type_array (T : str) :
  T <> [] -> forallb is_dot T = true ->
  ConverterV3.compress_type ("array<" ++ T ++ ">")
    = "a" ++ ConverterV3.compress_type T.
Proof.
  intros HT Hdot. rewrite compress_type_unfold.
  change (is_empty ("array<" ++ T ++ ">")) with false. cbv iota.
  change ConverterV3.array_pattern with (ConverterV3.inner_pattern "array<").
  rewrite (inner_of_lower_exact "array<" T eq_refl HT Hdot).
  now rewrite compress_type_lower.
Qed.

Lemma compress_type_option (T : str) :
  T <> [] -> forallb is_dot T = true ->
  ConverterV3.compress_type ("option<" ++ T ++ ">")
    = "?" ++ ConverterV3.compress_type T.
Proof.
  intros HT Hdot. rewrite compress_type_unfold.
  change (is_empty ("option<" ++ T ++ ">")) with false. cbv iota.
  change ConverterV3.option_pattern with (ConverterV3.inner_pattern "option<").
  rewrite (inner_of_lower_exact "option<" T eq_refl HT Hdot).
  replace (ConverterV3.inner_of "array<" ConverterV3.array_pattern
             (lower ("option<" ++ T ++ ">")))
    with (@None str) by reflexivity.
  now rewrite compress_type_lower.
Qed.

(** What is neither in the table nor taken by a parametrized form. *)
Lemma compress_type_unknown (s : str) :
  dict_get (lower s) ConverterV3.type_map = None ->
  ConverterV3.inner_of "array<" ConverterV3.array_pattern (lower s) = None ->
  ConverterV3.inner_of "option<" ConverterV3.option_pattern (lower s) = None ->
  ConverterV3.compress_type s = "*".
Proof.
  intros Ht Ha Ho. rewrite compress_type_unfold, Ha, Ho, Ht.
  now destruct (is_empty s).
Qed.

Lemma final_compress_type_fuel (fuel : nat) (s : str) :
  ConverterFinal._compress_type_fuel fuel s
    = ConverterV3.compress_type_fuel fuel s.
Proof.
  revert s. induction fuel as [|fuel IH]; intros s; [reflexivity|].
  cbn [ConverterFinal._compress_type_fuel ConverterV3.compress_type_fuel].
  destruct (is_empty s); [reflexivity|].
  change ConverterFinal.array_pattern with ConverterV3.array_pattern.
  change ConverterFinal.option_pattern with ConverterV3.option_pattern.
  change ConverterFinal.type_map with ConverterV3.type_map.
  destruct (ConverterV3.inner_of "array<" _ _); [now rewrite IH|].
  destruct (ConverterV3.inner_of "option<" _ _); [now rewrite IH|].
  reflexivity.
Qed.

(** The final converter compresses a type as version 3 does. *)
Lemma final_compress_type (s : str) :
  ConverterFinal._compress_type s = ConverterV3.compress_type s.
Proof.
  unfold ConverterFinal._compress_type, ConverterV3.compress_type.
  now rewrite final_compress_type_fuel.
Qed.

(** C3, as the specification states it, fails for an empty [T]: [array<>]
    is not taken by the pattern [array<(.+)>], whose group needs a character,
    and it is not in the table either, so its code is [*], whereas [a]
    followed by the code of the empty type is [a*]. It fails likewise for a
    [T] with a line break, which [.] does not match. *)
Lemma type_codes_counterexample :
  ConverterV3.compress_type "array<>" = "*" /\
  ConverterV3.compress_type "array<>"
    <> "a" ++ ConverterV3.compress_type "" /\
  ConverterV3.compress_type ("array<" ++ ("int" ++ ["010"%char]) ++ ">")
    <> "a" ++ ConverterV3.compress_type ("int" ++ ["010"%char]).
Proof.
  repeat split; try (vm_compute; reflexivity); vm_compute; discriminate.
Qed.

(** C3, amended. For a type [T] that is not empty and has no line break, the
    code of [array<T>] is [a] followed by the code of [T], and the code of
    [option<T>] is [?] followed by the code of [T]; a type that is not in the
    table (where it is looked up in lower case) and that neither parametrized
    form takes has the code [*]; the code of [array<option<int>>] is [a?i].
    The final converter gives the same codes. *)
Theorem type_codes (T s : str) :
  (T <> [] -> forallb is_dot T = true ->
   ConverterV3.compress_type ("array<" ++ T ++ ">")
     = "a" ++ ConverterV3.compress_type T /\
   ConverterV3.compress_type ("option<" ++ T ++ ">")
     = "?" ++ ConverterV3.compress_type T) /\
  (dict_get (lower s) ConverterV3.type_map = None ->
   ConverterV3.inner_of "array<" ConverterV3.array_pattern (lower s) = None ->
   ConverterV3.inner_of "option<" ConverterV3.option_pattern (lower s) = None ->
   ConverterV3.compress_type s = "*") /\
  ConverterV3.compress_type "array<option<int>>" = "a?i" /\
  ConverterFinal._compress_type s = ConverterV3.compress_type s.
Proof.
  split; [|split; [|split]].
  - intros HT Hdot. split;
      [now apply compress_type_array | now apply compress_type_option].
  - apply compress_type_unknown.
  - vm_compute. reflexivity.
  - apply final_compress_type.
Qed.

Lemma type_codes_witness :
  ConverterV3.compress_type ("array<" ++ "record" ++ ">")
    = "a" ++ ConverterV3.compress_type "record" /\
  ConverterV3.compress_type "decimal" = "*".
Proof.
  split.
  - apply (proj1 (type_codes "record" "decimal"));
      [discriminate | reflexivity].
  - apply (proj1 (proj2 (type_codes "record" "decimal"))); reflexivity.
Defined.

(** C10. The type [any], the empty type and every type that is not in the
    table (where it is looked up in lower case) and that neither parametrized
    form takes have the same code [*]: the code does not tell the declared
    type [any] from an unknown type or a missing one. *)
Theorem any_unknown_and_missing_share_a_code (s : str) :
  ConverterV3.compress_type "any" = "*" /\
  ConverterV3.compress_type "" = "*" /\
  (dict_get (lower s) ConverterV3.type_map = None ->
   ConverterV3.inner_of "array<" ConverterV3.array_pattern (lower s) = None ->
   ConverterV3.inner_of "option<" ConverterV3.option_pattern (lower s) = None ->
   ConverterV3.compress_type s = "*"
   /\ ConverterV3.compress_type s = ConverterV3.compress_type "any").
Proof.
  split; [vm_compute; reflexivity|]. split; [vm_compute; reflexivity|].
  intros Ht Ha Ho. rewrite (compress_type_unknown s Ht Ha Ho).
  split; [reflexivity | vm_compute; reflexivity].
Qed.

Lemma any_unknown_and_missing_share_a_code_witness :
  ConverterV3.compress_type "decimal" = ConverterV3.compress_type "any".
Proof.
  apply (proj2 (proj2 (any_unknown_and_missing_share_a_code "decimal")));
    reflexivity.
Defined.

(** ** Termination of the type codes *)

(** X4. [compress_type] returns on every type string: each call it makes on
    itself is on the text of a group, shorter than the string, so that more
    calls than the string has characters never nest, and the code does not
    depend on the bound. *)
Theorem compress_type_terminates (fuel : nat) (s : str) :
  length s < fuel ->
  ConverterV3.compress_type_fuel fuel s = Some (ConverterV3.compress_type s)
  /\ ConverterFinal._compress_type_fuel fuel s
       = Some (ConverterFinal._compress_type s).
Proof.
  intros H. split; [now apply compress_type_fuel_enough|].
  eapply eq_trans; [apply final_compress_type_fuel|].
  eapply eq_trans; [now apply compress_type_fuel_enough|].
  now rewrite <- (final_compress_type s).
Qed.

Lemma compress_type_terminates_witness :
  ConverterV3.compress_type_fuel 30 "array<option<int>>" = Some ("a?i" : str).
Proof.
  assert (H : length ("array<option<int>>" : str) < 30) by (vm_compute; lia).
  exact (proj1 (compress_type_terminates 30 "array<option<int>>" H)).
Defined.

(** ** White space at the ends *)

Lemma lstrip_head (s : str) (c : ascii) (t : str) :
  lstrip s = c :: t -> is_space c = false.
Proof.
  induction s as [|d s IH]; cbn [lstrip]; [discriminate|].
  destruct (is_space d) eqn:E; [assumption|]. intros H. now injection H as <- _.
Qed.

Lemma lstrip_split (s : str) :
  exists w, s = w ++ lstrip s /\ forallb is_space w = true.
Proof.
  induction s as [|d s [w [E H]]]; cbn [lstrip]; [now exists []|].
  destruct (is_space d) eqn:Ed; [|now exists []].
  exists (d :: w). cbn [app forallb]. rewrite Ed, H. now rewrite <- E.
Qed.

Lemma lstrip_app_last (x : str) (c : ascii) :
  is_space c = false -> lstrip (x ++ [c]) = lstrip x ++ [c].
Proof.
  intros H. induction x as [|d x IH]; cbn [app lstrip]; [now rewrite H|].
  now destruct (is_space d).
Qed.

Lemma rstrip_split (s : str) :
  exists w, s = rstrip s ++ w /\ forallb is_space w = true.
Proof.
  unfold rstrip. destruct (lstrip_split (rev s)) as [w [E H]].
  exists (rev w). split.
  - rewrite <- rev_app_distr, <- E. now rewrite rev_involutive.
  - apply forallb_forall. intros c Hc. apply in_rev in Hc.
    now apply (proj1 (forallb_forall _ _) H).
Qed.

Lemma rstrip_last (s x : str) (c : ascii) :
  rstrip s = x ++ [c] -> is_space c = false.
Proof.
  unfold rstrip. intros H. apply (f_equal (@rev ascii)) in H.
  rewrite rev_involutive, rev_app_distr in H. cbn [rev app] in H.
  now apply lstrip_head in H.
Qed.

Lemma rstrip_keep (x : str) (c : ascii) :
  is_space c = false -> rstrip (x ++ [c]) = x ++ [c].
Proof.
  intros H. unfold rstrip. rewrite rev_app_distr. cbn [rev app lstrip].
  rewrite H. cbn [rev]. now rewrite rev_involutive.
Qed.

Lemma strip_last (s x : str) (c : ascii) :
  strip s = x ++ [c] -> is_space c = false.
Proof. apply rstrip_last. Qed.

Lemma strip_head (s : str) (c : ascii) (t : str) :
  strip s = c :: t -> is_space c = false.
Proof.
  unfold strip. intros H. destruct (rstrip_split (lstrip s)) as [w [E _]].
  rewrite H in E. cbn [app] in E. now apply lstrip_head in E.
Qed.

Lemma strip_split (s : str) :
  exists w1 w2, s = w1 ++ strip s ++ w2 /\
                forallb is_space w1 = true /\ forallb is_space w2 = true.
Proof.
  destruct (lstrip_split s) as [w1 [E1 H1]].
  destruct (rstrip_split (lstrip s)) as [w2 [E2 H2]].
  exists w1, w2. unfold strip. now rewrite <- E2.
Qed.

Lemma strip_keep (x : str) (c : ascii) :
  is_space c = false -> strip (x ++ [c]) <> [].
Proof.
  intros H. unfold strip. rewrite (lstrip_app_last _ _ H).
  rewrite (rstrip_keep _ _ H). now destruct (lstrip x).
Qed.

Lemma strip_idem (s : str) : strip (strip s) = strip s.
Proof.
  destruct (strip s) as [|c t] eqn:E; [reflexivity|].
  pose proof (strip_head _ _ _ E) as Hc.
  destruct (exists_last (l := c :: t)) as [x [d Ex]]; [discriminate|].
  rewrite Ex in E. pose proof (strip_last _ _ _ E) as Hd.
  unfold strip at 1. cbn [lstrip]. rewrite Hc, Ex. now apply rstrip_keep.
Qed.

(** ** Parameters of a signature *)

Lemma bracket_depth_cons (c : ascii) (s : str) :
  bracket_depth (c :: s) = (bracket_delta c + bracket_depth s)%Z.
Proof.
  unfold bracket_depth, bracket_delta. cbn [filter].
  destruct (is_opening c) eqn:Eo, (is_closing c) eqn:Ec; cbn [length]; try lia.
  destruct c as [[] [] [] [] [] [] [] []]; discriminate.
Qed.

Lemma split_step_other (params : list str) (current : list ascii) (depth : Z)
    (c : ascii) :
  Ascii.eqb c "," && (depth =? 0)%Z = false ->
  ExtractorV2.split_step (params, current, depth) c
    = (params, c :: current, (depth + bracket_delta c)%Z).
Proof.
  intros H. unfold ExtractorV2.split_step, bracket_delta, is_opening,
    is_closing. rewrite H.
  destruct (char_in c "([{<"); [reflexivity|].
  destruct (char_in c ")]}>"); [reflexivity|]. now rewrite Z.add_0_r.
Qed.

(** Without a comma at depth zero the loop only collects characters. *)
Lemma split_run (s : str) : forall (params : list str) (current : list ascii)
    (depth : Z),
  (forall u v, s = u ++ ","%char :: v -> (depth + bracket_depth u)%Z <> 0%Z) ->
  fold_left ExtractorV2.split_step s (params, current, depth)
    = (params, rev s ++ current, (depth + bracket_depth s)%Z).
Proof.
  induction s as [|c s IH]; intros params current depth H.
  - cbn. now rewrite Z.add_0_r.
  - cbn [fold_left]. rewrite split_step_other.
    + rewrite IH.
      * rewrite bracket_depth_cons, rev_cons_app. f_equal. lia.
      * intros u v E. specialize (H (c :: u) v).
        rewrite bracket_depth_cons in H.
        rewrite <- Z.add_assoc. apply H. now rewrite E.
    + destruct (Ascii.eqb c ",") eqn:E; [|reflexivity].
      apply Ascii.eqb_eq in E. subst c. cbn [andb].
      apply Z.eqb_neq. specialize (H [] s eq_refl).
      now rewrite Z.add_0_r in H.
Qed.

(** The parameters found so far are carried along. *)
Lemma split_carry (s : str) : forall (before params : list str)
    (current : list ascii) (depth : Z),
  fold_left ExtractorV2.split_step s (before ++ params, current, depth)
    = let '(ps, cur, d) :=
        fold_left ExtractorV2.split_step s (params, current, depth) in
      (before ++ ps, cur, d).
Proof.
  induction s as [|c s IH]; intros before params current depth;
    [reflexivity|].
  cbn [fold_left]. unfold ExtractorV2.split_step at 2 4.
  destruct (Ascii.eqb c "," && (depth =? 0)%Z).
  - rewrite <- app_assoc. apply IH.
  - destruct (char_in c "([{<"); [apply IH|].
    destruct (char_in c ")]}>"); apply IH.
Qed.

Lemma split_params_whole (a : str) :
  ~ top_level_comma a -> a <> [] ->
  ExtractorV2._split_params a = [strip a].
Proof.
  intros H Ha. unfold ExtractorV2._split_params. rewrite split_run.
  - rewrite app_nil_r. destruct (rev a) as [|c r] eqn:E.
    + apply (f_equal (@rev ascii)) in E. rewrite rev_involutive in E.
      contradiction.
    + rewrite <- E, rev_involutive. reflexivity.
  - intros u v E D. apply H. now exists u, v.
Qed.

Lemma split_params_from (b : str) (before : list str) :
  (let '(params, current, _) :=
     fold_left ExtractorV2.split_step b (before, [], 0%Z) in
   match current with
   | [] => params
   | _ :: _ => params ++ [strip (rev current)]
   end) = before ++ ExtractorV2._split_params b.
Proof.
  pose proof (split_carry b before [] [] 0%Z) as C. rewrite app_nil_r in C.
  unfold ExtractorV2._split_params. rewrite C.
  destruct (fold_left ExtractorV2.split_step b ([], [], 0%Z)) as [[ps cur] d].
  destruct cur; [reflexivity | now rewrite app_assoc].
Qed.

Lemma split_params_first (a b : str) :
  ~ top_level_comma a -> bracket_depth a = 0%Z ->
  ExtractorV2._split_params (a ++ ","%char :: b)
    = strip a :: ExtractorV2._split_params b.
Proof.
  intros H D. unfold ExtractorV2._split_params at 1. rewrite fold_left_app.
  rewrite split_run by (intros u v E Du; apply H; now exists u, v).
  cbn [fold_left]. rewrite D, app_nil_r.
  change (ExtractorV2.split_step ([], rev a, (0 + 0)%Z) ",")
    with ([strip (rev (rev a))], @nil ascii, 0%Z).
  rewrite rev_involutive. exact (split_params_from b [strip a]).
Qed.

Lemma split_not_nil (sep : ascii) (s : str) : split sep s <> [].
Proof.
  destruct s as [|c s]; cbn [split]; [discriminate|].
  destruct (Ascii.eqb c sep); [discriminate|].
  destruct (split sep s); discriminate.
Qed.

Lemma flat_run (s : str) : forall (params : list str) (current : list ascii),
  forallb no_bracket s = true ->
  fold_left ExtractorV2.split_step s (params, current, 0%Z)
    = match split "," s with
      | [] => (params, current, 0%Z)
      | [w] => (params, rev w ++ current, 0%Z)
      | w :: ws =>
          (params ++ strip (rev current ++ w) :: map strip (removelast ws),
           rev (last ws []), 0%Z)
      end.
Proof.
  induction s as [|c s IH]; intros params current H; [reflexivity|].
  cbn [forallb] in H. apply andb_true_iff in H. destruct H as [Hc H].
  cbn [fold_left split]. destruct (Ascii.eqb c ",") eqn:E.
  - apply Ascii.eqb_eq in E. subst c.
    change (ExtractorV2.split_step (params, current, 0%Z) ",")
      with (params ++ [strip (rev current)], @nil ascii, 0%Z).
    rewrite (IH _ _ H). destruct (split "," s) as [|w [|w' ws]] eqn:Es.
    + now apply split_not_nil in Es.
    + cbn [removelast last map app rev]. now rewrite !app_nil_r.
    + cbn [rev app]. rewrite <- app_assoc, app_nil_r. reflexivity.
  - rewrite split_step_other by (now rewrite E).
    replace (bracket_delta c) with 0%Z.
    + cbn [Z.add]. rewrite (IH _ _ H).
      destruct (split "," s) as [|w [|w' ws]] eqn:Es.
      * now apply split_not_nil in Es.
      * now rewrite rev_cons_app.
      * cbn [rev]. now rewrite <- app_assoc.
    + unfold bracket_delta. unfold no_bracket in Hc.
      apply negb_true_iff, orb_false_iff in Hc. destruct Hc as [-> ->].
      reflexivity.
Qed.

Lemma split_params_flat (params_str : str) :
  forallb no_bracket params_str = true ->
  ExtractorV2._split_params params_str
    = map strip
          (if is_empty (last (split "," params_str) [])
           then removelast (split "," params_str)
           else split "," params_str).
Proof.
  intros H. unfold ExtractorV2._split_params. rewrite (flat_run _ _ _ H).
  destruct (split "," params_str) as [|w [|w' ws]] eqn:E.
  - now apply split_not_nil in E.
  - rewrite app_nil_r. cbn [last]. destruct w as [|c w]; [reflexivity|].
    destruct (rev (c :: w)) as [|d r] eqn:Er.
    + apply (f_equal (@rev ascii)) in Er. rewrite rev_involutive in Er.
      discriminate.
    + rewrite <- Er, rev_involutive. reflexivity.
  - cbn [rev app].
    assert (El : last (w :: w' :: ws) [] = last (w' :: ws) [])
      by reflexivity.
    rewrite El. destruct (last (w' :: ws) []) as [|c l] eqn:L.
    + cbn [rev is_empty]. reflexivity.
    + cbn [is_empty]. destruct (rev (c :: l)) as [|d r] eqn:Er.
      * apply (f_equal (@rev ascii)) in Er. rewrite rev_involutive in Er.
        discriminate.
      * rewrite <- Er, rev_involutive.
        rewrite (app_removelast_last [] (l := w' :: ws)) at 2 by discriminate.
        rewrite L. cbn [map app]. now rewrite map_app.
Qed.

Lemma top_level_comma_check (s : str) :
  existsb (fun n => Ascii.eqb (nth n s " "%char) ","
                    && (bracket_depth (firstn n s) =? 0)%Z)
          (seq 0 (length s)) = false ->
  ~ top_level_comma s.
Proof.
  intros H [u [v [E D]]].
  assert (Ht : existsb (fun n => Ascii.eqb (nth n s " "%char) ","
                                 && (bracket_depth (firstn n s) =? 0)%Z)
                       (seq 0 (length s)) = true); [|congruence].
  apply existsb_exists. exists (length u). split.
  - apply in_seq. rewrite E, length_app. cbn [length]. lia.
  - rewrite E, app_nth2, Nat.sub_diag by lia. cbn [nth].
    rewrite firstn_app, firstn_all, Nat.sub_diag, firstn_O, app_nil_r, D.
    reflexivity.
Qed.

(** X5. [_split_params] cuts a parameter list at the commas that stand
    outside every bracket, and only there. A text [a] without such a comma is
    one parameter, stripped; when the brackets of [a] balance, the comma
    after [a] ends this parameter, and the rest is split in the same way.
    (After a closing bracket that nothing opened the depth is below zero, and
    a comma does not cut.) *)
Theorem parameters_split_at_top_level_commas (a b : str) :
  ~ top_level_comma a ->
  (a <> [] -> ExtractorV2._split_params a = [strip a]) /\
  (bracket_depth a = 0%Z ->
   ExtractorV2._split_params (a ++ ","%char :: b)
     = strip a :: ExtractorV2._split_params b).
Proof.
  intros H. split;
    [now apply split_params_whole | now apply split_params_first].
Qed.

Lemma parameters_split_at_top_level_commas_witness :
  ExtractorV2._split_params ("arr: array<int, 2>" ++ ","%char :: " value")
    = strip "arr: array<int, 2>" :: ExtractorV2._split_params " value".
Proof.
  assert (H : ~ top_level_comma "arr: array<int, 2>")
    by (apply top_level_comma_check; vm_compute; reflexivity).
  assert (D : bracket_depth "arr: array<int, 2>" = 0%Z)
    by (vm_compute; reflexivity).
  exact (proj2 (parameters_split_at_top_level_commas
                  "arr: array<int, 2>" " value" H) D).
Defined.

(** X6. On a parameter list without brackets, [_split_params] is
    [split(',')] followed by [strip] on each piece, except that an empty last
    piece (the list is empty, or it ends with a comma) is left out. *)
Theorem parameters_without_brackets (params_str : str) :
  forallb no_bracket params_str = true ->
  ExtractorV2._split_params params_str
    = map strip
          (if is_empty (last (split "," params_str) [])
           then removelast (split "," params_str)
           else split "," params_str).
Proof. apply split_params_flat. Qed.

Lemma parameters_without_brackets_witness :
  ExtractorV2._split_params "a, b,"
    = map strip
          (if is_empty (last (split "," "a, b,") [])
           then removelast (split "," "a, b,")
           else split "," "a, b,").
Proof. apply (parameters_without_brackets "a, b,"). reflexivity. Defined.

(** ** The pattern of a signature *)

(** What a match of the pattern of a signature is made of. *)
Lemma signature_pattern_sound (s b' a' : str) (g' : caps) :
  matches ExtractorV2.signature_pattern [] s [] b' a' g' ->
  exists ns fn ps tail,
    s = ns ++ "::" ++ fn ++ "(" ++ ps ++ ")" ++ tail ++ a' /\
    (a' = [] \/ a' = ["010"%char]) /\
    group 1 g' = Some ns /\ group 2 g' = Some fn /\ group 3 g' = Some ps /\
    ns <> [] /\ forallb ExtractorV2.lower_or_underscore ns = true /\
    fn <> [] /\ forallb ExtractorV2.lower_or_underscore fn = true /\
    forallb is_dot ps = true /\
    ((tail = [] /\ group 4 g' = None) \/
     exists w1 w2 r,
       tail = w1 ++ "->" ++ w2 ++ r /\
       forallb is_space w1 = true /\ forallb is_space w2 = true /\
       r <> [] /\ forallb is_dot r = true /\ group 4 g' = Some r).
Proof.
  intros M. unfold ExtractorV2.signature_pattern, plus, star, star_lazy in M.
  cbn [cat fold_right] in M. inv_matches.
  rewrite !consumed_app in *.
  assert (Hne : forall y : str, 1 <= length y -> y <> [])
    by (intros y Hy ->; cbn in Hy; lia).
  assert (Ha : a' = a2 /\ b' = b4 /\ g' = g2 /\
               (a' = [] \/ a' = ["010"%char])).
  { inversion H6; subst; repeat split; auto. }
  destruct Ha as [-> [-> [-> Ha]]]. clear H6.
  exists x1, x0, x.
  inversion H5 as [| | | | | ? ? ? ? ? ? ? M | | | | | |]; subst; clear H5.
  - inv_matches. rewrite !consumed_app in *.
    match goal with
    | |- exists tail, _ ++ _ :: _ :: _ ++ _ :: _ ++ _ :: ?w1 ++ _ :: _ :: ?w2
                        ++ ?r ++ _ = _ /\ _ =>
        exists (w1 ++ ("->" : str) ++ w2 ++ r); repeat split; auto;
        [ cbn [app list_ascii_of_string];
          repeat (rewrite <- app_assoc; cbn [app]); reflexivity
        | right; exists w1, w2, r; repeat split; auto ]
    end.
  - exists []. repeat split; auto.
Qed.

Lemma signature_pattern_complete (ns fn ps tail : str) :
  signature_shape ns fn ps tail ->
  exists b' g',
    matches ExtractorV2.signature_pattern []
            (ns ++ "::" ++ fn ++ "(" ++ ps ++ ")" ++ tail) [] b' [] g'.
Proof.
  intros [Hns [Lns [Hfn [Lfn [Dps Ht]]]]].
  assert (Hlen : forall y : str, y <> [] -> 1 <= length y)
    by (intros [|c y] Hy; [congruence | cbn; lia]).
  unfold ExtractorV2.signature_pattern, plus, star, star_lazy.
  cbn [cat fold_right app list_ascii_of_string].
  destruct Ht as [-> | [w1 [w2 [r [-> [S1 [S2 [Hr Dr]]]]]]]].
  - do 2 eexists.
    eapply M_seq; [apply M_bol|].
    eapply M_seq; [apply M_grp, M_many; auto|].
    eapply M_seq; [apply M_lit|]. eapply M_seq; [apply M_lit|].
    eapply M_seq; [apply M_grp, M_many; auto|].
    eapply M_seq; [apply M_lit|].
    eapply M_seq; [apply M_grp, M_many; [assumption | lia]|].
    eapply M_seq; [apply M_lit|].
    eapply M_seq; [apply M_opt_none|].
    eapply M_seq; [apply M_eol_end | apply M_eps].
  - cbn [app list_ascii_of_string].
    replace (w1 ++ "-"%char :: ">"%char :: w2 ++ r)
      with (w1 ++ "-"%char :: ">"%char :: w2 ++ r ++ [])
      by now rewrite app_nil_r.
    do 2 eexists.
    eapply M_seq; [apply M_bol|].
    eapply M_seq; [apply M_grp, M_many; auto|].
    eapply M_seq; [apply M_lit|]. eapply M_seq; [apply M_lit|].
    eapply M_seq; [apply M_grp, M_many; auto|].
    eapply M_seq; [apply M_lit|].
    eapply M_seq; [apply M_grp, M_many; [assumption | lia]|].
    eapply M_seq; [apply M_lit|].
    eapply M_seq.
    + apply M_opt_some. cbn [app list_ascii_of_string].
      eapply M_seq; [apply M_many; [assumption | lia]|].
      eapply M_seq; [apply M_lit|]. eapply M_seq; [apply M_lit|].
      eapply M_seq; [apply M_many; [assumption | lia]|].
      eapply M_seq; [apply M_grp, M_many; auto | apply M_eps].
    + eapply M_seq; [apply M_eol_end | apply M_eps].
Qed.

Lemma parse_param_typed (param : str) (p : ExtractorV2.Param) :
  ExtractorV2.parse_param param = Some p ->
  exists t, ExtractorV2.ptype p = Some t /\
            (ExtractorV2.pname p = None -> t <> []).
Proof.
  unfold ExtractorV2.parse_param.
  destruct (strip param) as [|c t] eqn:E; [discriminate|]. cbn [is_empty].
  destruct (char_in ":" (c :: t)).
  - destruct (split1 ":" (c :: t)) as [name ty]. intros H. injection H as <-.
    cbn. eexists. split; [reflexivity | discriminate].
  - intros H. injection H as <-. cbn. eexists.
    split; [reflexivity | discriminate].
Qed.

Lemma keep_some_In {A : Type} (l : list (option A)) (x : A) :
  In x (ExtractorV2.keep_some l) <-> In (Some x) l.
Proof.
  induction l as [|[y|] l IH]; cbn [ExtractorV2.keep_some In].
  - tauto.
  - rewrite IH. split; intros [H | H]; auto; left; congruence.
  - rewrite IH. split; [now right|].
    intros [H | H]; [discriminate | assumption].
Qed.

(** What [parse_function_signature] returns for a signature it accepts. *)
Lemma parse_function_signature_sound (signature : str)
    (sig : ExtractorV2.Signature) :
  ExtractorV2.parse_function_signature signature = Some sig ->
  ExtractorV2.raw sig = signature /\
  exists ps tail,
    strip signature
      = ExtractorV2.namespace sig ++ "::" ++ ExtractorV2.function sig
          ++ "(" ++ ps ++ ")" ++ tail /\
    signature_shape (ExtractorV2.namespace sig) (ExtractorV2.function sig)
                    ps tail /\
    ExtractorV2.parameters sig
      = ExtractorV2.keep_some
          (map ExtractorV2.parse_param (ExtractorV2._split_params ps)) /\
    match ExtractorV2.return_type sig with
    | None => tail = []
    | Some ret =>
        ret <> [] /\
        exists w1 w2 r,
          tail = w1 ++ "->" ++ w2 ++ r /\
          forallb is_space w1 = true /\ forallb is_space w2 = true /\
          ret = strip r
    end.
Proof.
  unfold ExtractorV2.parse_function_signature, re_match.
  destruct (match_at ExtractorV2.signature_pattern [] (strip signature))
    as [[[b' a'] g']|] eqn:E; [|discriminate].
  cbn [option_map mk_mobj]. intros H. injection H as <-.
  cbn [ExtractorV2.raw ExtractorV2.namespace ExtractorV2.function
       ExtractorV2.parameters ExtractorV2.return_type].
  split; [reflexivity|].
  apply match_at_sound, signature_pattern_sound in E.
  destruct E as [ns [fn [ps [tail [E [Ha [G1 [G2 [G3 [Hns [Lns [Hfn [Lfn
    [Dps Ht]]]]]]]]]]]]]].
  unfold group_or_empty. cbn [groups]. rewrite G1, G2, G3.
  assert (Ea : a' = []).
  { destruct Ha as [-> | ->]; [reflexivity|]. exfalso.
    assert (Hs : is_space "010" = false); [|discriminate Hs].
    apply (strip_last signature
             (ns ++ "::" ++ fn ++ "(" ++ ps ++ ")" ++ tail)).
    rewrite E. now rewrite <- !app_assoc. }
  subst a'. rewrite app_nil_r in E. exists ps, tail.
  split; [assumption|]. split; [|split; [reflexivity|]].
  - repeat split; try assumption.
    destruct Ht as [[-> _] | [w1 [w2 [r [-> [S1 [S2 [Hr [Dr _]]]]]]]]];
      [now left | right; now exists w1, w2, r].
  - destruct Ht as [[-> ->] | [w1 [w2 [r [-> [S1 [S2 [Hr [Dr ->]]]]]]]]];
      cbn [option_map]; [reflexivity|].
    split; [|now exists w1, w2, r].
    destruct (exists_last Hr) as [x [c ->]].
    apply strip_keep.
    apply (strip_last signature
             (ns ++ "::" ++ fn ++ "(" ++ ps ++ ")" ++ w1 ++ "->" ++ w2 ++ x)).
    rewrite E. now rewrite <- !app_assoc.
Qed.

Lemma parse_function_signature_complete (signature ns fn ps tail : str) :
  strip signature = ns ++ "::" ++ fn ++ "(" ++ ps ++ ")" ++ tail ->
  signature_shape ns fn ps tail ->
  ExtractorV2.parse_function_signature signature <> None.
Proof.
  intros E H. apply signature_pattern_complete in H.
  destruct H as [b' [g' M]]. rewrite <- E in M.
  apply match_at_complete in M.
  unfold ExtractorV2.parse_function_signature, re_match.
  destruct (match_at ExtractorV2.signature_pattern [] (strip signature));
    [discriminate | congruence].
Qed.

(** X7. When [parse_function_signature] accepts a signature, [raw] is the
    text as given; the stripped text reads [namespace::function(params)]
    followed by a rest, the two names not empty and made of lower case
    letters and [_]; the parameters are those that [params] splits into, each
    with a type (not empty when the parameter has no name); the return type
    is missing when the rest is empty, and is otherwise what follows [->] in
    the rest, stripped and not empty. *)
Theorem parsed_signature_fields (signature : str)
    (sig : ExtractorV2.Signature) :
  ExtractorV2.parse_function_signature signature = Some sig ->
  ExtractorV2.raw sig = signature /\
  (exists ps tail,
     strip signature
       = ExtractorV2.namespace sig ++ "::" ++ ExtractorV2.function sig
           ++ "(" ++ ps ++ ")" ++ tail /\
     signature_shape (ExtractorV2.namespace sig) (ExtractorV2.function sig)
                     ps tail /\
     ExtractorV2.parameters sig
       = ExtractorV2.keep_some
           (map ExtractorV2.parse_param (ExtractorV2._split_params ps)) /\
     match ExtractorV2.return_type sig with
     | None => tail = []
     | Some ret =>
         ret <> [] /\
         exists w1 w2 r,
           tail = w1 ++ "->" ++ w2 ++ r /\
           forallb is_space w1 = true /\ forallb is_space w2 = true /\
           ret = strip r
     end) /\
  (forall p, In p (ExtractorV2.parameters sig) ->
     exists t, ExtractorV2.ptype p = Some t /\
               (ExtractorV2.pname p = None -> t <> [])).
Proof.
  intros H. destruct (parse_function_signature_sound _ _ H) as [Hr Hs].
  split; [assumption|]. split; [assumption|].
  destruct Hs as [ps [tail [_ [_ [Hp _]]]]]. rewrite Hp. intros p Hin.
  apply keep_some_In, in_map_iff in Hin. destruct Hin as [param [Hin _]].
  now apply parse_param_typed in Hin.
Qed.

Lemma parsed_signature_fields_witness :
  ExtractorV2.raw Samples.array_add = "array::add(array, value) -> array".
Proof.
  assert (H : ExtractorV2.parse_function_signature
                "array::add(array, value) -> array"
              = Some Samples.array_add) by (vm_compute; reflexivity).
  exact (proj1 (parsed_signature_fields _ _ H)).
Defined.

(** X8. [parse_function_signature] returns a signature exactly for the texts
    that, once stripped, read [ns::fn(params)] or [ns::fn(params) -> type]:
    [ns] and [fn] not empty, of lower case letters and [_], no line break in
    [params] nor in [type], white space allowed around [->]. It returns
    [None] for every other text. *)
Theorem accepted_signatures (signature : str) :
  ExtractorV2.parse_function_signature signature <> None <->
  exists ns fn ps tail,
    strip signature = ns ++ "::" ++ fn ++ "(" ++ ps ++ ")" ++ tail /\
    signature_shape ns fn ps tail.
Proof.
  split.
  - destruct (ExtractorV2.parse_function_signature signature) as [sig|] eqn:E;
      [|congruence].
    intros _. apply parse_function_signature_sound in E.
    destruct E as [_ [ps [tail [E [Hs _]]]]].
    now exists (ExtractorV2.namespace sig), (ExtractorV2.function sig), ps,
      tail.
  - intros [ns [fn [ps [tail [E Hs]]]]].
    now apply (parse_function_signature_complete signature ns fn ps tail).
Qed.

(** ** Fenced blocks *)

(** Lazy repetition stops at the first place where the rest matches. *)
Lemma many_lazy_first p k : forall a b g o,
  many_lazy p k 0 b a g = Some o ->
  exists x a',
    a = x ++ a' /\ forallb p x = true /\ k (rev x ++ b) a' g = Some o /\
    forall x1 x2, x = x1 ++ x2 -> x2 <> [] ->
                  k (rev x1 ++ b) (x2 ++ a') g = None.
Proof.
  induction a as [|c a IH]; intros b g o H; cbn [many_lazy] in H.
  - destruct (k b [] g) eqn:E; [|discriminate]. injection H as ->.
    exists [], []. repeat split; try assumption.
    intros x1 x2 Hx Hx2. symmetry in Hx. apply app_eq_nil in Hx.
    now destruct Hx.
  - destruct (k b (c :: a) g) eqn:E.
    + injection H as ->. exists [], (c :: a). repeat split; try assumption.
      intros x1 x2 Hx Hx2. symmetry in Hx. apply app_eq_nil in Hx.
      now destruct Hx.
    + destruct (p c) eqn:Pc; [|discriminate]. cbn [pred] in H.
      apply IH in H. destruct H as [x [a' [-> [Hx [Hk Hmin]]]]].
      exists (c :: x), a'. rewrite rev_cons_app. cbn [forallb app].
      rewrite Pc, Hx. repeat split; try assumption.
      intros [|d x1] x2 Hx12 Hx2; cbn [app] in Hx12.
      * subst x2. exact E.
      * injection Hx12 as <- ->. rewrite rev_cons_app. now apply Hmin.
Qed.

Lemma m_lits_inv (pre : str) (k : cont) (b a : str) (g : caps) (o : out) :
  m (lits pre) k b a g = Some o ->
  exists a1, a = pre ++ a1 /\ k (rev pre ++ b) a1 g = Some o.
Proof.
  intros H. apply m_sound in H. destruct H as [b' [a' [g' [M H]]]].
  apply matches_lits in M. destruct M as [-> [-> ->]]. now exists a'.
Qed.

(** A match of the pattern of a fenced block: the opening line, the body up
    to the first line break that three backquotes follow, and these. *)
Lemma fenced_match (info b a : str) (o : out) :
  match_at (ExtractorV2.fenced_pattern info) b a = Some o ->
  exists body post,
    a = ExtractorV2.fence ++ info ++ ["010"%char] ++ body
          ++ ["010"%char] ++ ExtractorV2.fence ++ post /\
    group_or_empty 1 (mk_mobj b o) = body /\
    forall u v,
      body ++ "010"%char :: ExtractorV2.fence
        = u ++ "010"%char :: ExtractorV2.fence ++ v ->
      v = [].
Proof.
  unfold match_at, ExtractorV2.fenced_pattern, star_lazy.
  cbn [cat fold_right]. intros H. cbn [m] in H.
  apply m_lits_inv in H. destruct H as [a1 [-> H]].
  apply many_lazy_first in H. destruct H as [body [a2 [-> [_ [H Hmin]]]]].
  apply m_lits_inv in H. destruct H as [post [-> H]].
  cbn [m] in H. unfold accept in H. injection H as <-.
  exists body, post. split; [|split].
  - now rewrite <- !app_assoc.
  - unfold mk_mobj, group_or_empty. cbn [groups group Nat.eqb].
    apply consumed_app.
  - intros u v E.
    apply app_eq_app in E. destruct E as [l [[E1 E2] | [E1 E2]]].
    + destruct l as [|c l].
      * cbn [app] in E2. change ("010"%char :: ExtractorV2.fence ++ v)
          with (("010"%char :: ExtractorV2.fence) ++ v) in E2.
        rewrite <- (app_nil_r ("010"%char :: ExtractorV2.fence)) in E2 at 2.
        now apply app_inv_head in E2.
      * exfalso. specialize (Hmin u (c :: l) E1 ltac:(discriminate)).
        replace ((c :: l) ++ ("010"%char :: ExtractorV2.fence) ++ post)
          with (("010"%char :: ExtractorV2.fence) ++ v ++ post) in Hmin.
        -- rewrite m_lits in Hmin. cbn [m] in Hmin. discriminate.
        -- rewrite !app_assoc. f_equal. exact E2.
    + apply (f_equal (@length ascii)) in E2. rewrite length_app in E2.
      cbn [length] in E2. rewrite length_app in E2.
      destruct v; [reflexivity|]. cbn [length] in E2. lia.
Qed.

Lemma finditer_from_match_at r mo : forall a skip b,
  In mo (finditer_from r skip b a) ->
  exists b0 a0 o,
    rev b ++ a = rev b0 ++ a0 /\ match_at r b0 a0 = Some o /\
    mo = mk_mobj b0 o.
Proof.
  induction a as [|c a IH]; intros skip b H; cbn [finditer_from] in H.
  - destruct skip; [|contradiction].
    destruct (match_at r b []) eqn:E; [|contradiction].
    destruct H as [<- | []]. now exists b, [], o.
  - assert (Hstep : forall n, In mo (finditer_from r n (c :: b) a) ->
              exists b0 a0 o,
                rev b ++ c :: a = rev b0 ++ a0 /\
                match_at r b0 a0 = Some o /\ mo = mk_mobj b0 o).
    { intros n Hn. apply IH in Hn. destruct Hn as [b0 [a0 [o [E Hn]]]].
      exists b0, a0, o. split; [|assumption]. rewrite <- E. cbn [rev].
      now rewrite <- app_assoc. }
    destruct skip; [|now apply (Hstep skip)].
    destruct (match_at r b (c :: a)) eqn:E; [|now apply (Hstep 0)].
    destruct H as [<- | H]; [now exists b, (c :: a), o | now apply Hstep in H].
Qed.

(** The texts that [findall] returns for the pattern of a fenced block. *)
Lemma findall_fenced (info content body : str) :
  In body (findall1 (ExtractorV2.fenced_pattern info) content) ->
  exists pre post,
    content = pre ++ ExtractorV2.fence ++ info ++ ["010"%char] ++ body
                ++ ["010"%char] ++ ExtractorV2.fence ++ post /\
    forall u v,
      body ++ "010"%char :: ExtractorV2.fence
        = u ++ "010"%char :: ExtractorV2.fence ++ v ->
      v = [].
Proof.
  unfold findall1, finditer. intros H. apply in_map_iff in H.
  destruct H as [mo [<- H]]. apply finditer_from_match_at in H.
  destruct H as [b0 [a0 [o [E [H ->]]]]]. cbn [rev app] in E.
  apply fenced_match in H. destruct H as [body [post [-> [-> H]]]].
  exists (rev b0), post. split; assumption.
Qed.

(** X9. Every block that [extract_syntax_blocks] returns is the body of a
    fenced block of the document, stripped: the document holds three
    backquotes, one of the three opening texts, a line break, the body, a
    line break and three backquotes, and the body stops at the first line
    break that three backquotes follow. *)
Theorem syntax_blocks_are_fenced (content block : str) :
  In block (ExtractorV2.extract_syntax_blocks content) ->
  exists info pre body post,
    In info ExtractorV2.syntax_infos /\
    content = pre ++ ExtractorV2.fence ++ info ++ ["010"%char] ++ body
                ++ ["010"%char] ++ ExtractorV2.fence ++ post /\
    block = strip body /\
    (forall u v,
       body ++ "010"%char :: ExtractorV2.fence
         = u ++ "010"%char :: ExtractorV2.fence ++ v ->
       v = []) /\
    strip block = block.
Proof.
  unfold ExtractorV2.extract_syntax_blocks. intros H.
  apply in_flat_map in H. destruct H as [info [Hi H]].
  apply in_map_iff in H. destruct H as [body [<- H]].
  apply findall_fenced in H. destruct H as [pre [post [E Hmin]]].
  exists info, pre, body, post.
  split; [assumption|]. split; [assumption|]. split; [reflexivity|].
  split; [assumption | apply strip_idem].
Qed.

Lemma syntax_blocks_are_fenced_witness :
  exists info pre body post,
    In info ExtractorV2.syntax_infos /\
    Samples.fenced_select
      = pre ++ ExtractorV2.fence ++ info ++ ["010"%char] ++ body
          ++ ["010"%char] ++ ExtractorV2.fence ++ post /\
    ("SELECT @fields FROM @targets" : str) = strip body /\
    (forall u v,
       body ++ "010"%char :: ExtractorV2.fence
         = u ++ "010"%char :: ExtractorV2.fence ++ v ->
       v = []) /\
    strip "SELECT @fields FROM @targets" = "SELECT @fields FROM @targets".
Proof.
  apply (syntax_blocks_are_fenced Samples.fenced_select).
  vm_compute. left. reflexivity.
Defined.

(** X10. Every signature that [extract_api_definition_blocks] returns is the
    parse of the stripped body of a fenced API definition block of the
    document; its [raw] is that stripped body, which reads
    [namespace::function(params)] followed by a rest. *)
Theorem api_blocks_are_parsed (content : str) (sig : ExtractorV2.Signature) :
  In sig (ExtractorV2.extract_api_definition_blocks content) ->
  exists pre body post ps tail,
    content = pre ++ ExtractorV2.fence ++ ExtractorV2.api_definition_info
                ++ ["010"%char] ++ body ++ ["010"%char]
                ++ ExtractorV2.fence ++ post /\
    ExtractorV2.parse_function_signature (strip body) = Some sig /\
    ExtractorV2.raw sig = strip body /\
    ExtractorV2.raw sig
      = ExtractorV2.namespace sig ++ "::" ++ ExtractorV2.function sig
          ++ "(" ++ ps ++ ")" ++ tail /\
    signature_shape (ExtractorV2.namespace sig) (ExtractorV2.function sig)
                    ps tail.
Proof.
  unfold ExtractorV2.extract_api_definition_blocks. intros H.
  apply keep_some_In, in_map_iff in H. destruct H as [body [Hp H]].
  apply findall_fenced in H. destruct H as [pre [post [E _]]].
  pose proof (parse_function_signature_sound _ _ Hp)
    as [Hr [ps [tail [Es [Hs _]]]]].
  exists pre, body, post, ps, tail. rewrite strip_idem in Es.
  split; [assumption|]. split; [assumption|]. split; [assumption|].
  split; [now rewrite Hr | assumption].
Qed.

Lemma api_blocks_are_parsed_witness :
  exists pre body post ps tail,
    Samples.api_block
      = pre ++ ExtractorV2.fence ++ ExtractorV2.api_definition_info
                ++ ["010"%char] ++ body ++ ["010"%char]
                ++ ExtractorV2.fence ++ post /\
    ExtractorV2.parse_function_signature (strip body)
      = Some Samples.array_add /\
    ExtractorV2.raw Samples.array_add = strip body /\
    ExtractorV2.raw Samples.array_add
      = ExtractorV2.namespace Samples.array_add ++ "::"
          ++ ExtractorV2.function Samples.array_add
          ++ "(" ++ ps ++ ")" ++ tail /\
    signature_shape (ExtractorV2.namespace Samples.array_add)
                    (ExtractorV2.function Samples.array_add) ps tail.
Proof.
  apply (api_blocks_are_parsed Samples.api_block).
  vm_compute. left. reflexivity.
Defined.

(** ** Dicts *)

Lemma dict_set_fresh {V : Type} (k : str) (v : V) (d : list (str * V)) :
  ~ In k (map fst d) -> dict_set k v d = d ++ [(k, v)].
Proof.
  induction d as [|[k' w] d IH]; intros H; cbn [dict_set app]; [reflexivity|].
  destruct (str_eqb k' k) eqn:E.
  - apply str_eqb_eq in E. subst k'. destruct H. now left.
  - rewrite IH; [reflexivity|]. intros Hin. apply H. now right.
Qed.

Lemma dict_set_keys {V : Type} (k : str) (v : V) (d : list (str * V)) :
  map fst (dict_set k v d)
    = if existsb (str_eqb k) (map fst d) then map fst d
      else map fst d ++ [k].
Proof.
  induction d as [|[k' w] d IH]; cbn [dict_set map fst existsb app];
    [reflexivity|].
  destruct (str_eqb k' k) eqn:E.
  - apply str_eqb_eq in E. subst k'. now rewrite str_eqb_refl.
  - cbn [map fst]. rewrite IH.
    destruct (str_eqb k k') eqn:E'.
    + apply str_eqb_eq in E'. subst k'. now rewrite str_eqb_refl in E.
    + cbn [orb]. now destruct (existsb (str_eqb k) (map fst d)).
Qed.

Lemma dict_set_NoDup {V : Type} (k : str) (v : V) (d : list (str * V)) :
  NoDup (map fst d) -> NoDup (map fst (dict_set k v d)).
Proof.
  intros H. rewrite dict_set_keys.
  destruct (existsb (str_eqb k) (map fst d)) eqn:E; [assumption|].
  apply NoDup_app; [assumption | repeat constructor; intros [] |].
  intros y Hy [<- | []]. apply existsb_str_eqb in Hy. congruence.
Qed.

Lemma dict_get_In {V : Type} (k : str) (v : V) (d : list (str * V)) :
  dict_get k d = Some v -> In (k, v) d.
Proof.
  induction d as [|[k' w] d IH]; cbn [dict_get]; [discriminate|].
  destruct (str_eqb k' k) eqn:E.
  - apply str_eqb_eq in E. subst k'. intros H. injection H as ->. now left.
  - intros H. right. now apply IH.
Qed.

Lemma dict_get_map {V W : Type} (f : V -> W) (k : str) (d : list (str * V)) :
  dict_get k (map (fun '(n, v) => (n, f v)) d) = option_map f (dict_get k d).
Proof.
  induction d as [|[k' w] d IH]; cbn [map dict_get]; [reflexivity|].
  now destruct (str_eqb k' k).
Qed.

(** Storing under keys that are new and distinct appends the entries. *)
Lemma fold_dict_set_fresh {V W : Type} (f : V -> W) (l : list (str * V)) :
  forall acc : list (str * W),
    NoDup (map fst acc ++ map fst l) ->
    fold_left (fun d '(k, v) => dict_set k (f v) d) l acc
      = acc ++ map (fun '(k, v) => (k, f v)) l.
Proof.
  induction l as [|[k v] l IH]; intros acc H; cbn [fold_left map].
  - now rewrite app_nil_r.
  - cbn [map fst] in H. rewrite dict_set_fresh.
    + rewrite IH.
      * now rewrite <- app_assoc.
      * rewrite map_app. cbn [map fst]. rewrite <- app_assoc. exact H.
    + apply NoDup_remove_2 in H. intros Hin. apply H.
      apply in_app_iff. now left.
Qed.

(** ** Overloads *)

Lemma append_to_group_of groups f name :
  group_of (ConverterV3.append_to_group groups f) name
    = group_of groups name ++ (if named name f then [f] else []).
Proof.
  unfold group_of, ConverterV3.append_to_group, named.
  rewrite dict_get_set.
  destruct (str_eqb (ExtractorV2.function f) name) eqn:E.
  - apply str_eqb_eq in E. now subst name.
  - now rewrite app_nil_r.
Qed.

Lemma fold_append_group_of fs name : forall groups,
  group_of (fold_left ConverterV3.append_to_group fs groups) name
    = group_of groups name ++ filter (named name) fs.
Proof.
  induction fs as [|f fs IH]; intros groups; cbn [fold_left filter].
  - now rewrite app_nil_r.
  - rewrite IH, append_to_group_of, <- app_assoc.
    now destruct (named name f).
Qed.

Lemma fold_append_keys fs : forall groups,
  NoDup (map fst groups) ->
  Forall (fun kv => snd kv <> []) groups ->
  NoDup (map fst (fold_left ConverterV3.append_to_group fs groups)) /\
  Forall (fun kv => snd kv <> [])
         (fold_left ConverterV3.append_to_group fs groups).
Proof.
  induction fs as [|f fs IH]; intros groups Hn Hf; cbn [fold_left];
    [now split|].
  apply IH.
  - now apply dict_set_NoDup.
  - unfold ConverterV3.append_to_group.
    generalize (match dict_get (ExtractorV2.function f) groups with
                | Some overloads => overloads
                | None => []
                end).
    intros old. clear - Hf.
    induction groups as [|[k w] d IHd]; cbn [dict_set].
    + constructor; [|constructor]. cbn. now destruct old.
    + inversion Hf as [|? ? Hw Hd]; subst.
      destruct (str_eqb k (ExtractorV2.function f)).
      * constructor; [|assumption]. cbn. now destruct old.
      * constructor; [assumption | now apply IHd].
Qed.

(** The groups of [func_groups]: one per name, with the signatures of that
    name in their order. *)
Lemma func_groups_get (fs : list ExtractorV2.Signature) (name : str) :
  dict_get name (ConverterV3.func_groups fs)
    = nonempty (filter (named name) fs).
Proof.
  pose proof (fold_append_group_of fs name []) as G.
  destruct (fold_append_keys fs []) as [_ Hf]; [constructor | constructor |].
  fold (ConverterV3.func_groups fs) in G, Hf.
  unfold group_of in G. cbn [dict_get app] in G.
  destruct (dict_get name (ConverterV3.func_groups fs)) as [l|] eqn:E.
  - subst l. apply dict_get_In in E.
    apply (proj1 (Forall_forall _ _) Hf) in E. cbn [snd] in E.
    now destruct (filter (named name) fs).
  - now rewrite <- G.
Qed.

Lemma func_groups_NoDup (fs : list ExtractorV2.Signature) :
  NoDup (map fst (ConverterV3.func_groups fs)).
Proof. apply fold_append_keys; constructor. Qed.

Lemma append_to_group_perm groups f :
  Permutation (flat_map snd (ConverterV3.append_to_group groups f))
              (flat_map snd groups ++ [f]).
Proof.
  unfold ConverterV3.append_to_group.
  induction groups as [|[k w] d IH]; cbn [dict_set dict_get flat_map snd app].
  - reflexivity.
  - destruct (str_eqb k (ExtractorV2.function f)); cbn [flat_map snd].
    + rewrite <- !app_assoc. apply Permutation_app_head.
      apply Permutation_app_comm.
    + rewrite IH. now rewrite app_assoc.
Qed.

Lemma func_groups_perm (fs : list ExtractorV2.Signature) :
  Permutation (flat_map snd (ConverterV3.func_groups fs)) fs.
Proof.
  assert (H : forall groups,
    Permutation (flat_map snd (fold_left ConverterV3.append_to_group fs groups))
                (flat_map snd groups ++ fs)).
  { induction fs as [|f fs IH]; intros groups; cbn [fold_left].
    - now rewrite app_nil_r.
    - rewrite IH, append_to_group_perm. now rewrite <- app_assoc. }
  apply (H []).
Qed.

Lemma compress_function_map (namespace : str)
    (fs : list ExtractorV2.Signature) :
  ConverterV3.compress_function namespace fs
    = map (fun '(k, l) => (k, ConverterV3.compress_overloads l))
          (ConverterV3.func_groups fs).
Proof.
  unfold ConverterV3.compress_function.
  rewrite (fold_dict_set_fresh ConverterV3.compress_overloads); [reflexivity|].
  apply func_groups_NoDup.
Qed.

Lemma codes_compress_overloads (l : list ExtractorV2.Signature) :
  codes (ConverterV3.compress_overloads l)
    = map ConverterV3._compress_signature l.
Proof. destruct l as [|x [|y l]]; reflexivity. Qed.

Lemma flat_codes (groups : list (str * list ExtractorV2.Signature)) :
  flat_map (fun kv => codes (snd kv))
           (map (fun '(k, l) => (k, ConverterV3.compress_overloads l)) groups)
    = map ConverterV3._compress_signature (flat_map snd groups).
Proof.
  induction groups as [|[k l] groups IH]; cbn [map flat_map snd];
    [reflexivity|].
  now rewrite IH, codes_compress_overloads, map_app.
Qed.

(** X11. [compress_function] has one key for each function name; under a
    name it holds the code of the signature when the name has one signature,
    and the list of the codes of its signatures, in their order, when it has
    several; the codes it holds are those of the signatures of the input,
    each once. *)
Theorem overloads_grouped (namespace : str)
    (functions : list ExtractorV2.Signature) :
  NoDup (map fst (ConverterV3.compress_function namespace functions)) /\
  (forall name,
     dict_get name (ConverterV3.compress_function namespace functions) =
     match filter (named name) functions with
     | [] => None
     | [sig] => Some (ConverterV3.One (ConverterV3._compress_signature sig))
     | sigs =>
         Some (ConverterV3.Overloads
                 (map ConverterV3._compress_signature sigs))
     end) /\
  Permutation
    (flat_map (fun kv => codes (snd kv))
              (ConverterV3.compress_function namespace functions))
    (map ConverterV3._compress_signature functions).
Proof.
  rewrite compress_function_map. split; [|split].
  - rewrite map_map.
    erewrite map_ext; [apply (func_groups_NoDup functions)|].
    now intros [k l].
  - intros name. rewrite dict_get_map, func_groups_get.
    now destruct (filter (named name) functions) as [|x [|y l]].
  - rewrite flat_codes. apply Permutation_map, func_groups_perm.
Qed.

(** ** Loops that store under a key *)

Section KeyedLoop.
Context {D V : Type}.
Variable key_of : str -> str.
Variable value_of : str -> D -> option V.
Variable step : list (str * V) -> str * D -> list (str * V).

Hypothesis step_spec :
  forall acc n d,
    step acc (n, d) = match value_of n d with
                      | Some v => dict_set (key_of n) v acc
                      | None => acc
                      end.

Lemma keyed_loop_last (l : list (str * D)) : forall acc k v,
  dict_get k acc = Some v ->
  (forall n d, In (n, d) l -> key_of n = k -> value_of n d = None) ->
  dict_get k (fold_left step l acc) = Some v.
Proof.
  induction l as [|[n d] l IH]; intros acc k v Hacc Hl; cbn [fold_left];
    [assumption|].
  apply IH; [|intros n' d' H; apply Hl; now right].
  rewrite step_spec. destruct (value_of n d) as [w|] eqn:E; [|assumption].
  rewrite dict_get_set. destruct (str_eqb (key_of n) k) eqn:Ek; [|assumption].
  apply str_eqb_eq in Ek. rewrite (Hl n d (or_introl eq_refl) Ek) in E.
  discriminate.
Qed.

(** The last entry that stores under a key is the one found there. *)
Lemma keyed_loop_stored (before after : list (str * D)) (n : str) (d : D)
    (v : V) (acc : list (str * V)) :
  value_of n d = Some v ->
  (forall n' d', In (n', d') after -> key_of n' = key_of n ->
                 value_of n' d' = None) ->
  dict_get (key_of n) (fold_left step (before ++ (n, d) :: after) acc)
    = Some v.
Proof.
  intros Hv Hafter. rewrite fold_left_app. cbn [fold_left].
  apply keyed_loop_last; [|assumption].
  rewrite step_spec, Hv, dict_get_set. now rewrite str_eqb_refl.
Qed.

(** What is found under a key was stored by an entry of the loop. *)
Lemma keyed_loop_origin (l : list (str * D)) : forall acc k v,
  dict_get k (fold_left step l acc) = Some v ->
  dict_get k acc = Some v \/
  exists n d, In (n, d) l /\ key_of n = k /\ value_of n d = Some v.
Proof.
  induction l as [|[n d] l IH]; intros acc k v H; cbn [fold_left] in H;
    [now left|].
  apply IH in H. destruct H as [H | [n' [d' [Hin H]]]].
  - rewrite step_spec in H. destruct (value_of n d) as [w|] eqn:E;
      [|now left].
    rewrite dict_get_set in H.
    destruct (str_eqb (key_of n) k) eqn:Ek; [|now left].
    apply str_eqb_eq in Ek. injection H as <-. right. exists n, d.
    repeat split; [now left | assumption | assumption].
  - right. exists n', d'. split; [now right | assumption].
Qed.

(** When no two entries store under the same key, the loop stores the
    entries in their order. *)
Lemma keyed_loop_distinct (l : list (str * D)) : forall acc,
  NoDup (map fst acc
           ++ map (fun nd => key_of (fst nd))
                  (filter (fun nd => match value_of (fst nd) (snd nd) with
                                     | Some _ => true
                                     | None => false
                                     end) l)) ->
  fold_left step l acc
    = acc ++ flat_map (fun nd => match value_of (fst nd) (snd nd) with
                                 | Some v => [(key_of (fst nd), v)]
                                 | None => []
                                 end) l.
Proof.
  induction l as [|[n d] l IH]; intros acc H; cbn [fold_left flat_map].
  - now rewrite app_nil_r.
  - cbn [filter fst snd] in H. rewrite step_spec. cbn [fst snd].
    destruct (value_of n d) as [v|] eqn:E.
    + cbn [map fst snd] in H. rewrite dict_set_fresh.
      * rewrite IH.
        -- now rewrite <- app_assoc.
        -- rewrite map_app. cbn [map fst]. now rewrite <- app_assoc.
      * apply NoDup_remove_2 in H. intros Hin. apply H.
        apply in_app_iff. now left.
    + cbn [app]. now apply IH.
Qed.

End KeyedLoop.

Lemma ns_key_first3 (namespace : str) :
  ConverterV3.ns_key namespace = first3 namespace.
Proof.
  unfold ConverterV3.ns_key, first3.
  destruct (3 <? length namespace) eqn:E; [reflexivity|].
  apply Nat.ltb_ge in E. symmetry. now apply firstn_all2.
Qed.

Lemma convert_all_functions_step funcs namespace ns_data :
  (fun funcs '(namespace, ns_data) =>
     match ns_functions ns_data with
     | Some (f :: fs) =>
         dict_set (ConverterV3.ns_key namespace)
                  (ConverterV3.compress_function namespace (f :: fs)) funcs
     | _ => funcs
     end) funcs (namespace, ns_data)
  = match functions_of namespace ns_data with
    | Some v => dict_set (first3 namespace) v funcs
    | None => funcs
    end.
Proof.
  unfold functions_of. rewrite <- ns_key_first3.
  now destruct (ns_functions ns_data) as [[|f fs]|].
Qed.

(** X12. The key of a namespace is its first three characters, whatever its
    length, so that namespaces with the same first three characters share a
    key: what is found under the key is the functions of the last of them
    that has functions, whatever came before. The final converter does as
    version 3. *)
Theorem namespaces_share_three_letters
    (before after : list (str * NsData)) (namespace : str) (ns_data : NsData)
    (f : ExtractorV2.Signature) (fs : list ExtractorV2.Signature) :
  ns_functions ns_data = Some (f :: fs) ->
  (forall n d, In (n, d) after -> first3 n = first3 namespace ->
               ns_functions d = None \/ ns_functions d = Some []) ->
  ConverterV3.ns_key namespace = first3 namespace /\
  dict_get (first3 namespace)
    (ConverterV3.convert_all_functions
       (before ++ (namespace, ns_data) :: after))
    = Some (ConverterV3.compress_function namespace (f :: fs)) /\
  ConverterFinal.create_compressed_schema_functions
    (before ++ (namespace, ns_data) :: after)
    = ConverterV3.convert_all_functions
        (before ++ (namespace, ns_data) :: after).
Proof.
  intros Hf Hafter. split; [apply ns_key_first3|].
  split; [|reflexivity].
  unfold ConverterV3.convert_all_functions.
  apply (keyed_loop_stored first3 functions_of).
  - intros acc n d. apply convert_all_functions_step.
  - unfold functions_of. now rewrite Hf.
  - intros n d Hin Hk. unfold functions_of.
    destruct (Hafter n d Hin Hk) as [-> | ->]; reflexivity.
Qed.

Lemma namespaces_share_three_letters_witness :
  dict_get (first3 "strand")
    (ConverterV3.convert_all_functions
       ([("string" : str, Samples.with_functions [Samples.array_add])]
          ++ ("strand" : str, Samples.with_functions [Samples.array_add])
          :: []))
  = Some (ConverterV3.compress_function "strand" [Samples.array_add]).
Proof.
  apply (namespaces_share_three_letters
           [("string" : str, Samples.with_functions [Samples.array_add])] []
           "strand" (Samples.with_functions [Samples.array_add])
           Samples.array_add [] eq_refl).
  intros n d [].
Defined.

(** X13. In the compressed tiers the statements whose names have the same
    abbreviation share a key: what is found under the key is the keyword list
    of the last of them that has a syntax block, whatever came before. *)
Theorem statements_share_an_abbreviation
    (before after : list (str * StmtData)) (name : str) (data : StmtData)
    (block : str) (blocks : list str) :
  stmt_syntax data = Some (block :: blocks) ->
  ((forall n d, In (n, d) after ->
      ConverterV3._abbreviate_statement n
        = ConverterV3._abbreviate_statement name -> no_syntax d) ->
   dict_get (ConverterV3._abbreviate_statement name)
     (ConverterV3.convert_all_statements (before ++ (name, data) :: after))
   = ConverterV3.compress_statement name data) /\
  ((forall n d, In (n, d) after ->
      ConverterFinal._abbreviate_statement n
        = ConverterFinal._abbreviate_statement name -> no_syntax d) ->
   dict_get (ConverterFinal._abbreviate_statement name)
     (ConverterFinal.create_compressed_schema_statements
        (before ++ (name, data) :: after))
   = Some (firstn 3 (ConverterFinal.main_keywords block))).
Proof.
  intros Hs. split; intros Hafter.
  - unfold ConverterV3.convert_all_statements.
    assert (Hc : ConverterV3.compress_statement name data
                 = Some (fold_left ConverterV3.keep_essential
                                   (ConverterV3.main_keywords block) []))
      by (unfold ConverterV3.compress_statement; now rewrite Hs).
    rewrite Hc.
    apply (keyed_loop_stored ConverterV3._abbreviate_statement
                             ConverterV3.compress_statement).
    + intros acc n d. reflexivity.
    + assumption.
    + intros n d Hin Hk. unfold ConverterV3.compress_statement.
      destruct (Hafter n d Hin Hk) as [-> | ->]; reflexivity.
  - unfold ConverterFinal.create_compressed_schema_statements.
    apply (keyed_loop_stored ConverterFinal._abbreviate_statement
                             final_keywords_of).
    + intros acc n d. unfold final_keywords_of.
      now destruct (stmt_syntax d) as [[|? ?]|].
    + unfold final_keywords_of. now rewrite Hs.
    + intros n d Hin Hk. unfold final_keywords_of.
      destruct (Hafter n d Hin Hk) as [-> | ->]; reflexivity.
Qed.

Lemma statements_share_an_abbreviation_witness :
  dict_get (ConverterV3._abbreviate_statement "selected")
    (ConverterV3.convert_all_statements
       (Samples.select_statement
          ++ ("selected" : str, Samples.only_syntax "LIVE SELECT @fields")
          :: []))
  = ConverterV3.compress_statement "selected"
      (Samples.only_syntax "LIVE SELECT @fields").
Proof.
  apply (proj1 (statements_share_an_abbreviation
                  Samples.select_statement [] "selected"
                  (Samples.only_syntax "LIVE SELECT @fields")
                  "LIVE SELECT @fields" [] eq_refl)).
  intros n d [].
Defined.

(** ** Operators *)

Lemma NoDup_map_filter {A B : Type} (g : A -> B) (p : A -> bool)
    (l : list A) :
  NoDup (map g l) -> NoDup (map g (filter p l)).
Proof.
  induction l as [|x l IH]; intros H; cbn [filter map]; [constructor|].
  cbn [map] in H. inversion H as [|? ? Hx Hl]; subst.
  destruct (p x); [|now apply IH]. cbn [map]. constructor; [|now apply IH].
  intros Hin. apply Hx. apply in_map_iff in Hin.
  destruct Hin as [y [E Hy]]. apply filter_In in Hy. apply in_map_iff.
  exists y. tauto.
Qed.

Lemma compress_operators_distinct (operators : list (str * list Operator)) :
  NoDup (map (fun co => first3 (fst co))
             (filter (fun co => negb (is_empty (snd co))) operators)) ->
  ConverterV3.compress_operators operators
    = map (fun co => (first3 (fst co),
                      map ConverterV3.operator_code (snd co)))
          (filter (fun co => negb (is_empty (snd co))) operators).
Proof.
  intros H. unfold ConverterV3.compress_operators.
  rewrite (keyed_loop_distinct first3 operators_of).
  - cbn [app]. induction operators as [|[c [|o ops]] l IH];
      cbn [flat_map filter map fst snd is_empty negb operators_of app].
    + reflexivity.
    + apply IH. exact H.
    + f_equal. apply IH. cbn [filter snd is_empty negb map] in H.
      now inversion H.
  - intros acc n d. now destruct d.
  - cbn [map app]. erewrite filter_ext; [exact H|].
    intros [c [|o ops]]; reflexivity.
Qed.

(** X14. With the eight categories of the extractor as keys,
    [compress_operators] keeps each category that has operators, in order,
    under the first three characters of its name, no two categories on the
    same key, and lists its operators in order, each as its symbol or as
    [symbol|alternative]. The final converter does as version 3. *)
Theorem operator_categories_keep_their_codes
    (operators : list (str * list Operator)) :
  map fst operators = ExtractorV2.operator_categories ->
  ConverterV3.compress_operators operators
    = map (fun co => (first3 (fst co),
                      map ConverterV3.operator_code (snd co)))
          (filter (fun co => negb (is_empty (snd co))) operators) /\
  ConverterFinal.create_compressed_schema_operators operators
    = ConverterV3.compress_operators operators.
Proof.
  intros H. split; [|reflexivity].
  apply compress_operators_distinct.
  apply (NoDup_map_filter (fun co => first3 (fst co))).
  rewrite <- (map_map fst first3), H.
  repeat constructor; cbn; intuition discriminate.
Qed.

Lemma operator_categories_keep_their_codes_witness :
  ConverterV3.compress_operators Samples.operators
  = map (fun co => (first3 (fst co),
                    map ConverterV3.operator_code (snd co)))
        (filter (fun co => negb (is_empty (snd co))) Samples.operators).
Proof.
  exact (proj1 (operator_categories_keep_their_codes Samples.operators
                  eq_refl)).
Defined.

(** ** The code of an operator *)

Lemma bar_free_prefix (a b x y : str) :
  char_in "|" a = false -> char_in "|" b = false ->
  a ++ "|"%char :: x = b ++ "|"%char :: y -> a = b /\ x = y.
Proof.
  revert b. induction a as [|c a IH]; intros [|d b] Ha Hb E; cbn [app] in E.
  - injection E as ->. now split.
  - injection E as <- _. discriminate Hb.
  - injection E as -> _. discriminate Ha.
  - injection E as -> E. unfold char_in in *. cbn [existsb] in Ha, Hb.
    apply orb_false_iff in Ha. apply orb_false_iff in Hb.
    destruct (IH b (proj2 Ha) (proj2 Hb) E) as [-> ->]. now split.
Qed.

Lemma bar_free_whole (a b y : str) :
  char_in "|" a = false -> a <> b ++ "|"%char :: y.
Proof.
  intros Ha ->. rewrite char_in_app in Ha. cbn in Ha.
  now rewrite orb_true_r in Ha.
Qed.

(** X15. As long as no symbol contains [|], the code of an operator tells its
    symbol and its alternative: two operators with the same code have the
    same symbol and the same alternative. *)
Theorem operator_code_injective (op1 op2 : Operator) :
  char_in "|" (op_symbol op1) = false ->
  char_in "|" (op_symbol op2) = false ->
  ConverterV3.operator_code op1 = ConverterV3.operator_code op2 ->
  op_symbol op1 = op_symbol op2 /\ alternative_of op1 = alternative_of op2.
Proof.
  intros H1 H2. unfold ConverterV3.operator_code, alternative_of.
  destruct (op_alternative op1) as [[|c1 t1]|],
           (op_alternative op2) as [[|c2 t2]|]; intros E;
    try (now split);
    try (now apply bar_free_whole in E);
    try (symmetry in E; now apply bar_free_whole in E).
  apply bar_free_prefix in E; try assumption.
  destruct E as [-> E]. now rewrite E.
Qed.

Lemma operator_code_injective_witness :
  op_symbol Samples.and_operator = op_symbol Samples.and_operator /\
  alternative_of Samples.and_operator = alternative_of Samples.and_operator.
Proof.
  apply (operator_code_injective Samples.and_operator Samples.and_operator);
    reflexivity.
Defined.

(** ** Routes of the enhanced tier *)

Lemma routes_agree_step (order : set_order) (name : str) (kws vars opts : pyset)
    (stmts : list (str * ConverterV2.Statement))
    (routes : list (str * ConverterV2.Route)) :
  routes_agree stmts routes ->
  routes_agree
    (dict_set name
       {| ConverterV2.keywords := order kws;
          ConverterV2.variables := order vars;
          ConverterV2.optional := order opts |} stmts)
    (ConverterV2._add_statement_route order name kws routes).
Proof.
  intros [H1 H2]. unfold ConverterV2._add_statement_route. split.
  - intros n st H. rewrite dict_get_set in H. rewrite dict_get_set.
    destruct (str_eqb (ConverterV2.route_key name) (ConverterV2.route_key n))
      eqn:Er; [eauto|].
    destruct (str_eqb name n) eqn:E; [|now apply (H1 n st)].
    apply str_eqb_eq in E. subst n. now rewrite str_eqb_refl in Er.
  - intros rk r. rewrite dict_get_set.
    destruct (str_eqb (ConverterV2.route_key name) rk) eqn:E.
    + apply str_eqb_eq in E. intros H. injection H as <-.
      exists name. eexists. rewrite dict_get_set, str_eqb_refl.
      repeat split. assumption.
    + intros H. destruct (H2 rk r H) as [n [st [Hk [Hg Hr]]]].
      exists n, st. split; [assumption|]. split; [|assumption].
      rewrite dict_get_set. destruct (str_eqb name n) eqn:En; [|assumption].
      apply str_eqb_eq in En. subst n. rewrite Hk, str_eqb_refl in E.
      discriminate.
Qed.

(** X16. The routes of the enhanced tier follow its statements: every
    statement stored has a route under the key of its name, and every route
    is the route of a statement stored, holding the first five keywords of
    that statement and the path to it. *)
Theorem routes_follow_statements (order : set_order)
    (statements : list (str * StmtData)) :
  routes_agree (fst (ConverterV2.convert_statements order statements))
               (snd (ConverterV2.convert_statements order statements)).
Proof.
  unfold ConverterV2.convert_statements.
  assert (H : routes_agree (fst (@nil (str * ConverterV2.Statement),
                                 @nil (str * ConverterV2.Route)))
                           (snd (@nil (str * ConverterV2.Statement),
                                 @nil (str * ConverterV2.Route))))
    by (split; intros ? ? H; discriminate H).
  revert H.
  generalize (@nil (str * ConverterV2.Statement),
              @nil (str * ConverterV2.Route)).
  induction statements as [|[n d] l IH]; intros [stmts routes] H;
    cbn [fold_left]; [assumption|].
  apply IH. destruct (stmt_syntax d) as [[|block blocks]|]; try assumption.
  cbn [fst snd] in *. now apply routes_agree_step.
Qed.

(** ** Entries of the full tier *)

Lemma in_firstn {A : Type} (n : nat) (l : list A) (x : A) :
  In x (firstn n l) -> In x l.
Proof.
  intros H. rewrite <- (firstn_skipn n l). apply in_app_iff. now left.
Qed.

Lemma NoDup_firstn {A : Type} (n : nat) (l : list A) :
  NoDup l -> NoDup (firstn n l).
Proof.
  intros H. rewrite <- (firstn_skipn n l) in H.
  now apply NoDup_app_remove_r in H.
Qed.

(** Greedy repetition before a rest that always matches: it never fails when
    no character is required, *)
Lemma many_greedy_total (p : ascii -> bool) (k : cont) :
  (forall b a g, k b a g <> None) ->
  forall a b g, many_greedy p k 0 b a g <> None.
Proof.
  intros Hk. induction a as [|c a IH]; intros b g; cbn [many_greedy pred].
  - apply Hk.
  - destruct (p c); [|apply Hk].
    destruct (many_greedy p k 0 (c :: b) a g) eqn:E; [discriminate|].
    now apply IH in E.
Qed.

(** and it takes every character of the class that is there. *)
Lemma many_greedy_whole (p : ascii -> bool) (k : cont) :
  (forall b a g, k b a g <> None) ->
  forall a min b g o,
    min <= 1 ->
    many_greedy p k min b a g = Some o ->
    exists x a',
      a = x ++ a' /\ forallb p x = true /\ min <= length x /\
      match a' with c :: _ => p c = false | [] => True end /\
      k (rev x ++ b) a' g = Some o.
Proof.
  intros Hk. induction a as [|c a IH]; intros min b g o Hmin H;
    cbn [many_greedy] in H.
  - destruct min; [|discriminate]. exists [], []. now repeat split.
  - destruct (p c) eqn:Pc.
    + destruct (many_greedy p k (pred min) (c :: b) a g) as [o'|] eqn:E.
      * injection H as ->. apply IH in E; [|lia].
        destruct E as [x [a' [-> [Hx [Hl [Ha Ho]]]]]].
        exists (c :: x), a'. cbn [app forallb length rev].
        rewrite Pc, <- app_assoc. cbn [app].
        repeat split; try assumption; lia.
      * replace (pred min) with 0 in E by lia.
        now apply many_greedy_total in E.
    + destruct min; [|discriminate]. exists [], (c :: a).
      now repeat split.
Qed.

(** A match of [@(\w+)]: the whole name after [@]. *)
Lemma var_pattern_match (line v : str) :
  In v (findall1 ConverterFinal.var_pattern line) ->
  v <> [] /\ forallb is_word v = true /\
  exists pre post, line = pre ++ "@" ++ v ++ post /\ head_word post = false.
Proof.
  unfold findall1, finditer. intros H. apply in_map_iff in H.
  destruct H as [mo [<- H]]. apply finditer_from_match_at in H.
  destruct H as [b [a [o [E [M ->]]]]]. cbn [rev app] in E. subst line.
  unfold match_at, ConverterFinal.var_pattern, plus in M.
  cbn [cat fold_right m] in M.
  destruct a as [|c a]; [discriminate|].
  destruct (Ascii.eqb c "@") eqn:Ec; [|discriminate].
  apply Ascii.eqb_eq in Ec. subst c.
  apply many_greedy_whole in M; [| intros; discriminate | lia].
  destruct M as [x [a' [-> [Hx [Hl [Ha Ho]]]]]].
  unfold accept in Ho. injection Ho as <-.
  unfold mk_mobj, group_or_empty. cbn [groups group Nat.eqb].
  rewrite consumed_app.
  split; [intros Hn; rewrite Hn in Hl; cbn in Hl; lia|].
  split; [assumption|]. exists (rev b), a'. split; [reflexivity|].
  destruct a'; [reflexivity | assumption].
Qed.

(** X17. An entry of the full tier comes from a statement of the input that
    has a syntax block. For an order that lists each element of a set once,
    it has at most ten keywords and at most ten variables, none of them
    twice; each keyword is a run of two or more characters [A-Z] and [_],
    with no word character before or after, in a line of the first block;
    each variable is the whole word that follows an [@] in such a line: the
    word characters after the [@], one or more, up to a character that is
    not a word character or to the end of the line; and the pattern is that
    of the first block. *)
Theorem full_tier_entry (order : set_order)
    (statements : list (str * StmtData)) (name : str)
    (entry : ConverterFinal.FullStatement) :
  admissible order ->
  dict_get name (ConverterFinal.create_full_schema_statements order statements)
    = Some entry ->
  exists data block blocks,
    In (name, data) statements /\
    stmt_syntax data = Some (block :: blocks) /\
    length (ConverterFinal.keywords entry) <= 10 /\
    NoDup (ConverterFinal.keywords entry) /\
    (forall k, In k (ConverterFinal.keywords entry) ->
       2 <= length k /\
       exists line,
         In line (ConverterFinal.lines
                    (ConverterFinal._parse_statement_syntax block)) /\
         word_run ConverterV2.upper_or_underscore 1 line k) /\
    length (ConverterFinal.variables entry) <= 10 /\
    NoDup (ConverterFinal.variables entry) /\
    (forall v, In v (ConverterFinal.variables entry) ->
       v <> [] /\ forallb is_word v = true /\
       exists line pre post,
         In line (ConverterFinal.lines
                    (ConverterFinal._parse_statement_syntax block)) /\
         line = pre ++ "@" ++ v ++ post /\ head_word post = false) /\
    ConverterFinal.syntax_pattern entry
      = ConverterFinal._extract_pattern block.
Proof.
  intros Hord H. unfold ConverterFinal.create_full_schema_statements in H.
  apply (keyed_loop_origin (fun n => n) (full_entry_of order)) in H.
  2:{ intros acc n d. unfold full_entry_of.
      now destruct (stmt_syntax d) as [[|? ?]|]. }
  destruct H as [H | [n [d [Hin [-> H]]]]]; [discriminate|].
  unfold full_entry_of in H.
  destruct (stmt_syntax d) as [[|block blocks]|] eqn:Es; try discriminate.
  replace entry
    with {| ConverterFinal.keywords :=
              firstn 10
                (order (ConverterFinal._extract_keywords
                          (ConverterFinal._parse_statement_syntax block)));
            ConverterFinal.variables :=
              firstn 10
                (order (ConverterFinal._extract_variables
                          (ConverterFinal._parse_statement_syntax block)));
            ConverterFinal.syntax_pattern :=
              ConverterFinal._extract_pattern block |}
    by congruence.
  clear H. exists d, block, blocks.
  cbn [ConverterFinal.keywords ConverterFinal.variables
       ConverterFinal.syntax_pattern].
  split; [assumption|]. split; [assumption|].
  set (parsed := ConverterFinal._parse_statement_syntax block).
  assert (Nk : NoDup (order (ConverterFinal._extract_keywords parsed))).
  { apply (Permutation_NoDup (Permutation_sym (Hord _))).
    apply fold_set_update_NoDup. constructor. }
  assert (Nv : NoDup (order (ConverterFinal._extract_variables parsed))).
  { apply (Permutation_NoDup (Permutation_sym (Hord _))).
    apply fold_set_update_NoDup. constructor. }
  split; [apply firstn_le_length|]. split; [now apply NoDup_firstn|].
  split; [|split; [apply firstn_le_length|split; [now apply NoDup_firstn|]]].
  - intros k Hk. apply in_firstn in Hk.
    apply (Permutation_in _ (Hord _)) in Hk.
    unfold ConverterFinal._extract_keywords in Hk.
    apply fold_set_update_In in Hk. destruct Hk as [[] | [line [Hl Hk]]].
    apply filter_In in Hk. destruct Hk as [Hk Hlen].
    unfold ConverterFinal.is_keyword in Hlen.
    apply andb_true_iff in Hlen. destruct Hlen as [_ Hlen].
    apply Nat.ltb_lt in Hlen. split; [lia|]. exists line.
    split; [assumption|].
    apply (findall1_word_pattern ConverterV2.upper_or_underscore 1) in Hk;
      [| apply upper_or_underscore_word | lia].
    destruct Hk as [Hk _].
    now apply (finditer_word_run ConverterV2.upper_or_underscore 1 true
                 upper_or_underscore_word) in Hk; [|lia].
  - split; [|reflexivity]. intros v Hv. apply in_firstn in Hv.
    apply (Permutation_in _ (Hord _)) in Hv.
    unfold ConverterFinal._extract_variables in Hv.
    apply fold_set_update_In in Hv. destruct Hv as [[] | [line [Hl Hv]]].
    apply var_pattern_match in Hv.
    destruct Hv as [Hne [Hw [pre [post [E Hp]]]]].
    split; [assumption|]. split; [assumption|]. now exists line, pre, post.
Qed.

Lemma full_tier_entry_witness :
  NoDup [("SELECT" : str); ("FROM" : str)].
Proof.
  assert (H : dict_get "select"
                (ConverterFinal.create_full_schema_statements insertion_order
                   Samples.select_statement)
              = Some {| ConverterFinal.keywords :=
                          [("SELECT" : str); ("FROM" : str)];
                        ConverterFinal.variables :=
                          [("fields" : str); ("targets" : str)];
                        ConverterFinal.syntax_pattern :=
                          "SELECT <var> FROM <var>" |})
    by (vm_compute; reflexivity).
  destruct (full_tier_entry insertion_order Samples.select_statement
              "select" _ insertion_order_admissible H)
    as [d [b [bs [_ [_ [_ [Hn _]]]]]]].
  exact Hn.
Defined.

(** ** The pattern of a statement *)

Lemma split_ws_from_tokens (s : str) : forall (cur t : str),
  forallb no_space cur = true ->
  In t (split_ws_from cur s) -> t <> [] /\ forallb no_space t = true.
Proof.
  assert (Hrev : forall cur : str, cur <> [] -> forallb no_space cur = true ->
                 rev cur <> [] /\ forallb no_space (rev cur) = true).
  { intros cur Hne Hc. split.
    - intros E. apply (f_equal (@rev ascii)) in E.
      now rewrite rev_involutive in E.
    - apply forallb_forall. intros c Hin. apply in_rev in Hin.
      now apply (proj1 (forallb_forall _ _) Hc). }
  induction s as [|c s IH]; intros cur t Hc H; cbn [split_ws_from] in H.
  - destruct cur as [|d cur]; [contradiction|].
    destruct H as [<- | []]. now apply Hrev.
  - destruct (is_space c) eqn:Ec.
    + destruct cur as [|d cur]; [now apply (IH [])|].
      destruct H as [<- | H]; [now apply Hrev | now apply (IH [])].
    + apply (IH (c :: cur)); [|assumption]. cbn [forallb].
      unfold no_space at 1. now rewrite Ec, Hc.
Qed.

Lemma single_spaced_token (t rest : str) (after_space : bool) :
  t <> [] -> forallb no_space t = true ->
  single_spaced after_space (t ++ rest) = single_spaced false rest.
Proof.
  revert after_space. induction t as [|c t IH]; intros p Hne Ht; [congruence|].
  cbn [forallb] in Ht. apply andb_true_iff in Ht. destruct Ht as [Hc Ht].
  unfold no_space in Hc. apply negb_true_iff in Hc.
  cbn [app single_spaced]. rewrite Hc.
  destruct t as [|d t]; [reflexivity|]. now apply IH.
Qed.

Lemma join_single_spaced (ts : list str) :
  (forall t, In t ts -> t <> [] /\ forallb no_space t = true) ->
  single_spaced true (join " " ts) = true.
Proof.
  induction ts as [|x [|y l] IH]; intros H.
  - reflexivity.
  - cbn [join]. rewrite <- (app_nil_r x).
    destruct (H x (or_introl eq_refl)) as [Hne Hx].
    now rewrite single_spaced_token.
  - change (join " " (x :: y :: l)) with (x ++ " " ++ join " " (y :: l)).
    destruct (H x (or_introl eq_refl)) as [Hne Hx].
    rewrite single_spaced_token by assumption.
    change (" " ++ join " " (y :: l)) with (" "%char :: join " " (y :: l)).
    cbn [single_spaced]. change (is_space " ") with true. cbv iota.
    change (Ascii.eqb " " " ") with true. cbn [andb negb].
    apply IH. intros t Ht. apply H. now right.
Qed.

Lemma firstn_single_spaced (s : str) : forall (n : nat) (after_space : bool),
  single_spaced after_space s = true ->
  single_spaced after_space (firstn n s) = true.
Proof.
  induction s as [|c s IH]; intros [|n] p H; try reflexivity.
  cbn [firstn single_spaced] in *. destruct (is_space c).
  - apply andb_true_iff in H. destruct H as [H1 H2]. rewrite H1.
    now rewrite IH.
  - now apply IH.
Qed.

Lemma single_spaced_In (s : str) (c : ascii) : forall after_space,
  single_spaced after_space s = true -> In c s -> is_space c = true ->
  c = " "%char.
Proof.
  induction s as [|d s IH]; intros p H Hin Hc; [contradiction|].
  cbn [single_spaced] in H. destruct Hin as [-> | Hin].
  - rewrite Hc in H. apply andb_true_iff in H. destruct H as [H _].
    apply andb_true_iff in H. destruct H as [H _]. now apply Ascii.eqb_eq in H.
  - destruct (is_space d).
    + apply andb_true_iff in H. destruct H as [_ H]. now apply (IH true).
    + now apply (IH false).
Qed.

(** X18. The pattern that [_extract_pattern] returns has at most 100
    characters and is one line: its only white space is the single space,
    never first and never twice in a row. *)
Theorem pattern_is_one_short_line (syntax : str) :
  length (ConverterFinal._extract_pattern syntax) <= 100 /\
  single_spaced true (ConverterFinal._extract_pattern syntax) = true /\
  (forall c, In c (ConverterFinal._extract_pattern syntax) ->
             is_space c = true -> c = " "%char).
Proof.
  assert (H : single_spaced true (ConverterFinal._extract_pattern syntax)
              = true).
  { unfold ConverterFinal._extract_pattern. apply firstn_single_spaced.
    apply join_single_spaced. intros t Ht. unfold split_ws in Ht.
    now apply (split_ws_from_tokens _ []) in Ht. }
  split; [apply firstn_le_length|]. split; [assumption|].
  intros c. now apply (single_spaced_In _ c true).
Qed.

(** ** Optional parts of the enhanced tier *)

Lemma opt_pattern_match (line raw : str) :
  In raw (findall1 ConverterV2.opt_pattern line) ->
  raw <> [] /\ ~ In "]"%char raw /\
  exists pre post, line = pre ++ "[" ++ raw ++ "]" ++ post.
Proof.
  unfold findall1. intros H. apply in_map_iff in H.
  destruct H as [mo [<- H]]. apply finditer_In in H.
  destruct H as [b [a [-> [x [a' [g' [-> [M ->]]]]]]]].
  unfold ConverterV2.opt_pattern, plus in M. cbn [cat fold_right] in M.
  inv_matches. rewrite consumed_app. unfold group_or_empty. cbn.
  match goal with
  | Hl : 1 <= _, Hf : forallb _ ?w = true |- ?w <> [] /\ _ =>
      split; [intros Hw; rewrite Hw in Hl; cbn in Hl; lia|];
      split; [intros Hin; apply (proj1 (forallb_forall _ _) Hf) in Hin;
              discriminate Hin|]
  end.
  exists (rev b). eexists. reflexivity.
Qed.

Lemma strip_In (s : str) (c : ascii) : In c (strip s) -> In c s.
Proof.
  intros H. destruct (strip_split s) as [w1 [w2 [E _]]]. rewrite E.
  apply in_app_iff. right. apply in_app_iff. now left.
Qed.

(** X19. Every optional part of the enhanced tier is the text between a [[]
    and the next []] of a line of the block, stripped: it is not empty, has no
    white space at its ends and contains no []]. *)
Theorem optional_parts_are_bracketed (parsed : ConverterV2.Parsed)
    (part : str) :
  In part (ConverterV2._extract_optional_parts parsed) ->
  part <> [] /\ strip part = part /\ ~ In "]"%char part /\
  exists line raw pre post,
    In line (ConverterV2.lines parsed) /\
    line = pre ++ "[" ++ raw ++ "]" ++ post /\
    ~ In "]"%char raw /\ part = strip raw.
Proof.
  unfold ConverterV2._extract_optional_parts. intros H.
  apply fold_set_update_In in H. destruct H as [[] | [line [Hl H]]].
  apply filter_In in H. destruct H as [H Hne].
  apply in_map_iff in H. destruct H as [raw [<- H]].
  apply opt_pattern_match in H. destruct H as [_ [Hb [pre [post E]]]].
  split; [now destruct (strip raw)|]. split; [apply strip_idem|].
  split; [intros Hin; now apply strip_In in Hin|].
  now exists line, raw, pre, post.
Qed.

Lemma optional_parts_are_bracketed_witness :
  strip "VALUE" = "VALUE".
Proof.
  assert (H : In ("VALUE" : str)
                 (ConverterV2._extract_optional_parts
                    (ConverterV2._parse_statement_syntax
                       "SELECT [ VALUE ] @fields")))
    by (vm_compute; left; reflexivity).
  exact (proj1 (proj2 (optional_parts_are_bracketed _ _ H))).
Defined.

(** ** Lists of a statement structure *)

Lemma sorted_set_lists (s : pyset) :
  NoDup s ->
  StronglySorted str_le
    (Converter.from_option (option_map sorted (nonempty s))) /\
  NoDup (Converter.from_option (option_map sorted (nonempty s))) /\
  option_map sorted (nonempty s) <> Some [].
Proof.
  intros H. destruct s as [|x s].
  - cbn. repeat split; [constructor | constructor | discriminate].
  - cbn [nonempty option_map Converter.from_option]. split; [|split].
    + apply sorted_sorted.
    + apply (Permutation_NoDup (Permutation_sym (sorted_perm _)) H).
    + intros E. assert (E' : sorted (x :: s) = []) by congruence.
      pose proof (sorted_perm (x :: s)) as P. rewrite E' in P.
      now apply Permutation_nil in P.
Qed.

(** X20. The keywords and the variables of a statement structure are in
    increasing order and without repetition, and a list that would be empty
    is left out. *)
Theorem structure_lists_are_sorted (syntax_block : str) :
  let s := Converter.convert_statement_syntax syntax_block in
  (StronglySorted str_le (Converter.from_option (Converter.st_keywords s)) /\
   NoDup (Converter.from_option (Converter.st_keywords s)) /\
   Converter.st_keywords s <> Some []) /\
  (StronglySorted str_le (Converter.from_option (Converter.st_variables s)) /\
   NoDup (Converter.from_option (Converter.st_variables s)) /\
   Converter.st_variables s <> Some []).
Proof.
  cbn zeta. unfold Converter.convert_statement_syntax.
  cbn [Converter.st_keywords Converter.st_variables].
  split; apply sorted_set_lists; apply fold_set_update_NoDup; constructor.
Qed.

(** ** The shape of the codes *)

Lemma compress_type_shape (s : str) :
  exists wrappers base,
    ConverterV3.compress_type s = wrappers ++ base /\
    forallb is_wrapper wrappers = true /\
    (base = "*" \/ In base (map snd ConverterV3.type_map)).
Proof.
  remember (length s) as n eqn:En. revert s En.
  induction n as [n IH] using lt_wf_ind. intros s En.
  rewrite compress_type_unfold. destruct (is_empty s).
  { exists [], "*". repeat split. now left. }
  change ConverterV3.array_pattern with (ConverterV3.inner_pattern "array<").
  change ConverterV3.option_pattern with (ConverterV3.inner_pattern "option<").
  destruct (ConverterV3.inner_of "array<" _ (lower s)) as [inner|] eqn:Ea.
  { apply inner_of_shorter in Ea. rewrite length_lower in Ea.
    destruct (IH (length inner) ltac:(lia) inner eq_refl)
      as [w [base [-> [Hw Hb]]]].
    exists ("a"%char :: w), base. repeat split; assumption. }
  destruct (ConverterV3.inner_of "option<" _ (lower s)) as [inner|] eqn:Eo.
  { apply inner_of_shorter in Eo. rewrite length_lower in Eo.
    destruct (IH (length inner) ltac:(lia) inner eq_refl)
      as [w [base [-> [Hw Hb]]]].
    exists ("?"%char :: w), base. repeat split; assumption. }
  destruct (dict_get (lower s) ConverterV3.type_map) as [code|] eqn:Et.
  - exists [], code. repeat split. right. apply dict_get_In in Et.
    apply in_map_iff. now exists (lower s, code).
  - exists [], "*". repeat split. now left.
Qed.

Lemma compress_type_no_arrow (s : str) :
  char_in ">" (ConverterV3.compress_type s) = false /\
  ConverterV3.compress_type s <> [].
Proof.
  destruct (compress_type_shape s) as [w [base [-> [Hw Hb]]]].
  assert (Hbase : char_in ">" base = false /\ base <> []).
  { destruct Hb as [-> | Hb]; [split; [reflexivity | discriminate]|].
    cbn in Hb.
    repeat (destruct Hb as [<- | Hb]; [split; [reflexivity | discriminate]|]).
    contradiction. }
  destruct Hbase as [H1 H2]. split.
  - rewrite char_in_app, H1, orb_false_r. unfold char_in.
    clear - Hw. induction w as [|c w IH]; [reflexivity|].
    cbn [forallb existsb] in *. apply andb_true_iff in Hw.
    destruct Hw as [Hc Hw]. rewrite (IH Hw), orb_false_r.
    unfold is_wrapper in Hc. apply orb_true_iff in Hc.
    destruct Hc as [Hc | Hc]; apply Ascii.eqb_eq in Hc; now subst c.
  - destruct w; [assumption | discriminate].
Qed.

Lemma char_in_concat (c : ascii) (l : list str) :
  (forall x, In x l -> char_in c x = false) -> char_in c (concat l) = false.
Proof.
  induction l as [|x l IH]; intros H; [reflexivity|]. cbn [concat].
  rewrite char_in_app, (H x (or_introl eq_refl)). apply IH.
  intros y Hy. apply H. now right.
Qed.


(** X22. A compressed signature has one [>]: it is the codes of the
    parameters, then [>], then the code of the return type, which is never
    empty, and splitting it at [>] gives back these two parts. *)
Theorem compressed_signature_splits (sig : ExtractorV2.Signature) :
  ConverterV3._compress_signature sig
    = parameter_codes sig ++ ">" ++ return_code sig /\
  split ">" (ConverterV3._compress_signature sig)
    = [parameter_codes sig; return_code sig] /\
  return_code sig <> [] /\
  ConverterFinal._compress_signature sig = ConverterV3._compress_signature sig.
Proof.
  assert (E : ConverterV3._compress_signature sig
              = parameter_codes sig ++ ">" ++ return_code sig).
  { unfold ConverterV3._compress_signature, parameter_codes, return_code.
    now destruct (ExtractorV2.parameters sig). }
  assert (Hr : char_in ">" (return_code sig) = false /\ return_code sig <> []).
  { unfold return_code.
    destruct (ExtractorV2.return_type sig) as [[|c t]|];
      try (split; [reflexivity | discriminate]).
    apply compress_type_no_arrow. }
  split; [assumption|]. split; [|split; [apply Hr | reflexivity]].
  rewrite E. change (">" ++ return_code sig) with (">"%char :: return_code sig).
  rewrite split_app_sep, split_no_sep; [reflexivity | apply Hr |].
  unfold parameter_codes. apply char_in_concat. intros x Hx.
  apply in_map_iff in Hx. destruct Hx as [p [<- _]].
  apply compress_type_no_arrow.
Qed.

(** X23. The codes of the parameters are written one after the other, so
    that a compressed signature does not tell how many parameters there are:
    one parameter of type [array<T>] and two parameters of types [array] and
    [T] give the same compressed signature. *)
Theorem codes_do_not_tell_the_arity (sig : ExtractorV2.Signature) (T : str) :
  T <> [] -> forallb is_dot T = true ->
  ConverterV3._compress_signature
    (with_parameters sig ["array<" ++ T ++ ">"])
  = ConverterV3._compress_signature (with_parameters sig [("array" : str); T]).
Proof.
  intros HT Hdot. unfold ConverterV3._compress_signature, with_parameters.
  cbn [ExtractorV2.parameters ExtractorV2.return_type map concat
       ConverterV3.type_or_star ExtractorV2.ptype].
  rewrite (compress_type_array T HT Hdot).
  change (ConverterV3.compress_type "array") with ("a" : str).
  now rewrite !app_nil_r.
Qed.

Lemma codes_do_not_tell_the_arity_witness :
  ConverterV3._compress_signature
    (with_parameters Samples.array_add ["array<" ++ "int" ++ ">"])
  = ConverterV3._compress_signature
      (with_parameters Samples.array_add [("array" : str); ("int" : str)]).
Proof.
  apply (codes_do_not_tell_the_arity Samples.array_add "int");
    [discriminate | reflexivity].
Defined.

(** ** The two compressed tiers *)

Lemma keep_essential_distinct (kws : list str) : forall ess : list str,
  length ess <= 3 ->
  NoDup (ess ++ firstn (3 - length ess) kws) ->
  fold_left ConverterV3.keep_essential kws ess
    = ess ++ firstn (3 - length ess) kws.
Proof.
  induction kws as [|k kws IH]; intros ess Hl Hn; cbn [fold_left].
  - now rewrite firstn_nil, app_nil_r.
  - destruct (Nat.eq_dec (length ess) 3) as [E | E].
    + rewrite E, Nat.sub_diag in *. cbn [firstn] in *.
      replace (ConverterV3.keep_essential ess k) with ess.
      * rewrite IH; [now rewrite E, Nat.sub_diag | lia |].
        now rewrite E, Nat.sub_diag.
      * unfold ConverterV3.keep_essential. rewrite E.
        now rewrite andb_false_r.
    + assert (E3 : 3 - length ess = S (2 - length ess)) by lia.
      rewrite E3 in *. cbn [firstn] in *.
      assert (Hk : existsb (str_eqb k) ess = false).
      { destruct (existsb (str_eqb k) ess) eqn:Ek; [|reflexivity].
        apply existsb_str_eqb in Ek. apply NoDup_remove_2 in Hn.
        destruct Hn. apply in_app_iff. now left. }
      replace (ConverterV3.keep_essential ess k) with (ess ++ [k]).
      * assert (E2 : 3 - length (ess ++ [k]) = 2 - length ess)
          by (rewrite length_app; cbn [length]; lia).
        rewrite IH.
        -- rewrite E2, <- app_assoc. reflexivity.
        -- rewrite length_app. cbn [length]. lia.
        -- rewrite E2, <- app_assoc. exact Hn.
      * unfold ConverterV3.keep_essential. rewrite Hk.
        replace (length ess <? 3) with true
          by (symmetry; apply Nat.ltb_lt; lia).
        reflexivity.
Qed.

(** X24. For a statement with a syntax block, version 3 and the final
    converter store the same keyword list exactly when the first three
    keyword candidates of the block are distinct. *)
Theorem compressed_tiers_agree_when_distinct (stmt_name : str)
    (stmt_data : StmtData) (block : str) (blocks : list str) :
  stmt_syntax stmt_data = Some (block :: blocks) ->
  (map snd (ConverterV3.convert_all_statements [(stmt_name, stmt_data)])
     = map snd (ConverterFinal.create_compressed_schema_statements
                  [(stmt_name, stmt_data)])
   <-> NoDup (firstn 3 (ConverterFinal.main_keywords block))).
Proof.
  intros Hs.
  unfold ConverterV3.convert_all_statements,
    ConverterFinal.create_compressed_schema_statements,
    ConverterV3.compress_statement.
  cbn [fold_left]. rewrite Hs. cbn [dict_set map snd].
  change (ConverterV3.main_keywords block)
    with (ConverterFinal.main_keywords block).
  split.
  - intros E.
    assert (E' : fold_left ConverterV3.keep_essential
                           (ConverterFinal.main_keywords block) []
                 = firstn 3 (ConverterFinal.main_keywords block))
      by congruence.
    rewrite <- E'.
    destruct (keep_essential_spec (ConverterFinal.main_keywords block) [] [])
      as [_ [H _]]; [cbn; lia | constructor | constructor | exact H].
  - intros H. f_equal.
    apply (keep_essential_distinct _ []); [cbn; lia | exact H].
Qed.

Lemma compressed_tiers_agree_when_distinct_witness :
  map snd (ConverterV3.convert_all_statements Samples.select_statement)
  = map snd (ConverterFinal.create_compressed_schema_statements
               Samples.select_statement).
Proof.
  apply (proj2 (compressed_tiers_agree_when_distinct "select"
                  (Samples.only_syntax "SELECT @fields FROM @targets")
                  "SELECT @fields FROM @targets" [] eq_refl)).
  vm_compute. repeat constructor; cbn; intuition discriminate.
Defined.

(** ** The tiers side by side *)

(** The lines that the enhanced tier reads are the lines of the block,
    stripped, that are not blank. *)
Lemma parsed_lines_spec (block line : str) :
  In line (ConverterV2.lines (ConverterV2._parse_statement_syntax block)) <->
  exists raw, In raw (split "010" block) /\ line = strip raw /\ line <> [].
Proof.
  unfold ConverterV2._parse_statement_syntax. cbn [ConverterV2.lines].
  rewrite in_map_iff. split.
  - intros [raw [<- H]]. apply filter_In in H. destruct H as [H Hne].
    exists raw. repeat split; [assumption|]. now destruct (strip raw).
  - intros [raw [H [-> Hne]]]. exists raw. split; [reflexivity|].
    apply filter_In. split; [assumption|]. now destruct (strip raw).
Qed.


Lemma word_not_space (c : ascii) : is_word c = true -> is_space c = false.
Proof.
  destruct c as [[] [] [] [] [] [] [] []]; vm_compute; congruence.
Qed.

(** A character that is not white space does not stand in the white space
    that starts a text. *)
Lemma space_prefix (w1 : str) : forall (t pre rest : str) (c : ascii),
  forallb is_space w1 = true -> is_space c = false ->
  pre ++ c :: rest = w1 ++ t ->
  exists pre', pre = w1 ++ pre' /\ pre' ++ c :: rest = t.
Proof.
  induction w1 as [|d w1 IH]; intros t pre rest c Hw Hc E.
  - now exists pre.
  - cbn [forallb] in Hw. apply andb_true_iff in Hw. destruct Hw as [Hd Hw].
    destruct pre as [|e pre]; cbn [app] in E.
    + injection E as -> _. congruence.
    + injection E as -> E. destruct (IH _ _ _ _ Hw Hc E) as [pre' [-> E']].
      now exists pre'.
Qed.

Lemma head_word_app_l (x y : str) :
  head_word (x ++ y) = false -> head_word x = false.
Proof. destruct x; [reflexivity | trivial]. Qed.

(** A run of a line is a run of the line stripped. *)
Lemma word_run_strip (p : ascii -> bool) (min : nat) (line w : str) :
  (forall c, p c = true -> is_word c = true) -> 1 <= min ->
  word_run p min line w -> word_run p min (strip line) w.
Proof.
  intros Hp Hmin [pre [post [E [Hm [Hw [Hb Ha]]]]]].
  destruct (strip_split line) as [w1 [w2 [Es [H1 H2]]]].
  assert (Hns : forall c, In c w -> is_space c = false).
  { intros c Hc. apply word_not_space, Hp.
    now apply (proj1 (forallb_forall _ _) Hw). }
  destruct w as [|c w']; [cbn in Hm; lia|].
  assert (Es' : pre ++ c :: w' ++ post = w1 ++ strip line ++ w2)
    by (rewrite <- Es; exact (eq_sym E)).
  destruct (space_prefix w1 _ _ _ _ H1 (Hns c (or_introl eq_refl)) Es')
    as [pre' [Epre E1]].
  destruct (exists_last (l := c :: w')) as [x [d Ex]]; [discriminate|].
  assert (Hd : is_space d = false).
  { apply Hns. rewrite Ex. apply in_app_iff. right. now left. }
  assert (E2 : rev post ++ d :: rev (pre' ++ x) = rev w2 ++ rev (strip line)).
  { rewrite <- rev_app_distr, <- E1.
    change (pre' ++ c :: w' ++ post) with (pre' ++ (c :: w') ++ post).
    rewrite Ex, !rev_app_distr. cbn [rev app]. now rewrite <- !app_assoc. }
  assert (H2r : forallb is_space (rev w2) = true).
  { apply forallb_forall. intros e He. apply in_rev in He.
    now apply (proj1 (forallb_forall _ _) H2). }
  destruct (space_prefix _ _ _ _ _ H2r Hd E2) as [q [Eq E3]].
  apply (f_equal (@rev ascii)) in Eq, E3.
  rewrite rev_involutive, rev_app_distr, rev_involutive in Eq.
  rewrite rev_involutive, rev_app_distr in E3. cbn [rev] in E3.
  rewrite rev_involutive, <- app_assoc in E3. cbn [app] in E3.
  exists pre', (rev q). repeat split; try assumption.
  - rewrite <- E3, Ex, <- !app_assoc. reflexivity.
  - rewrite Epre, rev_app_distr in Hb. now apply head_word_app_l in Hb.
  - rewrite Eq in Ha. now apply head_word_app_l in Ha.
Qed.

Lemma subseq_In {A : Type} (l l' : list A) (x : A) :
  subseq l l' -> In x l -> In x l'.
Proof.
  induction 1; intros Hx; [assumption | right; now apply IHsubseq |].
  destruct Hx as [<- | Hx]; [now left | right; now apply IHsubseq].
Qed.

(** A run of two letters [A-Z] or more is a keyword of the enhanced tier. *)
Lemma upper_run_is_keyword (line k : str) :
  word_run is_upper 2 line k ->
  In k (filter ConverterV2.is_keyword
               (findall1 ConverterV2.keyword_pattern line)).
Proof.
  intros [pre [post [E [Hm [Hw [Hb Ha]]]]]].
  assert (Hu : forallb ConverterV2.upper_or_underscore k = true).
  { apply forallb_forall. intros c Hc.
    unfold ConverterV2.upper_or_underscore.
    now rewrite (proj1 (forallb_forall _ _) Hw c Hc). }
  assert (R : word_run ConverterV2.upper_or_underscore 1 line k).
  { exists pre, post. repeat split; try assumption. lia. }
  apply (finditer_word_run ConverterV2.upper_or_underscore 1 true
           upper_or_underscore_word) in R; [|lia].
  apply in_map_iff in R. destruct R as [mo [Ek Hmo]].
  apply filter_In. split.
  - unfold findall1. apply in_map_iff. exists mo. split; [|exact Hmo].
    apply finditer_In in Hmo. destruct Hmo as [b [a [_ M]]].
    apply (word_pattern_match ConverterV2.upper_or_underscore 1 true
             upper_or_underscore_word) in M; [|lia].
    destruct M as [a' [_ [_ [_ [_ [_ G]]]]]]. now rewrite (G eq_refl).
  - unfold ConverterV2.is_keyword.
    rewrite (class_not_at ConverterV2.upper_or_underscore k eq_refl Hu).
    cbn [negb andb]. apply Nat.ltb_lt. lia.
Qed.

(** A run of a line of the block is a keyword of the enhanced tier. *)
Lemma block_run_is_keyword (block raw k : str) :
  In raw (split "010" block) -> word_run is_upper 2 raw k ->
  In k (ConverterV2._extract_keywords
          (ConverterV2._parse_statement_syntax block)).
Proof.
  intros Hr R. apply (word_run_strip is_upper 2) in R;
    [| apply is_upper_word | lia].
  unfold ConverterV2._extract_keywords. apply fold_set_update_In. right.
  exists (strip raw). split; [|now apply upper_run_is_keyword].
  apply parsed_lines_spec. exists raw. repeat split; [assumption|].
  destruct R as [pre [post [E [Hm _]]]]. intros H. rewrite H in E.
  destruct pre; [|discriminate]. destruct k; [cbn in Hm; lia | discriminate].
Qed.

(** X26. Version 2 extracts every keyword that the other tiers store for a
    statement: a keyword of the compressed tier of version 3, a keyword of the
    compressed tier of the final converter and a keyword of the structure of
    the aggregated schema are all in the set that version 2 extracts from the
    first syntax block. *)
Theorem every_tier_keyword_is_an_enhanced_keyword (stmt_name : str)
    (stmt_data : StmtData) (block : str) (blocks : list str) (k : str) :
  stmt_syntax stmt_data = Some (block :: blocks) ->
  let enhanced :=
    ConverterV2._extract_keywords (ConverterV2._parse_statement_syntax block)
  in
  (forall l, ConverterV3.compress_statement stmt_name stmt_data = Some l ->
             In k l -> In k enhanced) /\
  (In k (firstn 3 (ConverterFinal.main_keywords block)) -> In k enhanced) /\
  (In k (Converter.from_option
           (Converter.st_keywords (Converter.convert_statement_syntax block)))
   -> In k enhanced).
Proof.
  intros Hs enhanced.
  assert (Hmain : In k (ConverterFinal.main_keywords block) -> In k enhanced).
  { unfold ConverterFinal.main_keywords. intros H. apply in_flat_map in H.
    destruct H as [raw [Hr H]]. apply filter_In in H. destruct H as [H _].
    apply (findall1_word_pattern is_upper 2) in H;
      [| apply is_upper_word | lia].
    destruct H as [H _].
    apply (finditer_word_run is_upper 2 true is_upper_word) in H; [|lia].
    apply (block_run_is_keyword block raw); [|assumption].
    rewrite <- (firstn_skipn 3 (split "010" block)). apply in_app_iff.
    now left. }
  split; [|split].
  - intros l H Hk. unfold ConverterV3.compress_statement in H.
    rewrite Hs in H.
    assert (E : l = fold_left ConverterV3.keep_essential
                              (ConverterV3.main_keywords block) [])
      by congruence.
    destruct (keep_essential_spec (ConverterV3.main_keywords block) [] [])
      as [_ [_ H3]]; [cbn; lia | constructor | constructor |].
    cbn [app] in H3. rewrite <- E in H3. apply Hmain.
    exact (subseq_In _ _ _ H3 Hk).
  - intros H. apply Hmain. rewrite <- (firstn_skipn 3). apply in_app_iff.
    now left.
  - intros H. apply convert_statement_syntax_keywords in H.
    destruct H as [raw [Hr H]]. unfold Converter.parse_bnf_line in H.
    destruct (strip raw) as [|c t] eqn:E; [contradiction|].
    cbn [is_empty Converter.keywords] in H. rewrite nonempty_In in H.
    apply filter_In in H. destruct H as [H _].
    apply (finditer_word_run is_upper 2 false is_upper_word) in H; [|lia].
    unfold enhanced, ConverterV2._extract_keywords.
    apply fold_set_update_In. right. exists (c :: t).
    split; [|now apply upper_run_is_keyword].
    apply parsed_lines_spec. exists raw. rewrite E.
    repeat split; [assumption | discriminate].
Qed.

Lemma every_tier_keyword_is_an_enhanced_keyword_witness :
  In ("FROM" : str)
     (ConverterV2._extract_keywords
        (ConverterV2._parse_statement_syntax "SELECT @fields FROM @targets")).
Proof.
  apply (proj1 (proj2 (every_tier_keyword_is_an_enhanced_keyword "select"
           (Samples.only_syntax "SELECT @fields FROM @targets")
           "SELECT @fields FROM @targets" [] "FROM" eq_refl))).
  vm_compute. right. left. reflexivity.
Defined.

(** ** The full tier in the order of its input *)

(** X27. When the names of the input are distinct, as the keys of a dict are,
    the full tier holds the statements that have a syntax block, and only
    them, in the order of the input, each under its name. *)
Theorem full_tier_follows_input (order : set_order)
    (statements : list (str * StmtData)) :
  NoDup (map fst statements) ->
  ConverterFinal.create_full_schema_statements order statements
    = flat_map (fun nd => match full_entry_of order (fst nd) (snd nd) with
                          | Some entry => [(fst nd, entry)]
                          | None => []
                          end)
               statements /\
  (forall name, In name (map fst (ConverterFinal.create_full_schema_statements
                                    order statements))
     <-> exists data, In (name, data) statements /\ ~ no_syntax data).
Proof.
  intros H.
  assert (E : ConverterFinal.create_full_schema_statements order statements
              = flat_map (fun nd =>
                            match full_entry_of order (fst nd) (snd nd) with
                            | Some entry => [(fst nd, entry)]
                            | None => []
                            end)
                         statements).
  { unfold ConverterFinal.create_full_schema_statements.
    rewrite (keyed_loop_distinct (fun n => n) (full_entry_of order)).
    - reflexivity.
    - intros acc n d. unfold full_entry_of.
      now destruct (stmt_syntax d) as [[|? ?]|].
    - cbn [map app]. now apply (NoDup_map_filter fst). }
  split; [exact E|]. intros name. rewrite E, in_map_iff. split.
  - intros [[n e] [<- Hin]]. apply in_flat_map in Hin.
    destruct Hin as [[n' d] [Hin He]]. cbn [fst snd] in He.
    unfold full_entry_of in He.
    destruct (stmt_syntax d) as [[|b bs]|] eqn:Es; try contradiction.
    destruct He as [He | []]. injection He as -> _. exists d.
    split; [assumption|]. unfold no_syntax. rewrite Es.
    intros [Hn | Hn]; discriminate.
  - intros [d [Hin Hd]]. unfold no_syntax in Hd.
    destruct (stmt_syntax d) as [[|b bs]|] eqn:Es;
      [destruct Hd; now right | | destruct Hd; now left].
    eexists (name, _). split; [reflexivity|]. apply in_flat_map.
    exists (name, d). split; [assumption|]. cbn [fst snd].
    unfold full_entry_of. rewrite Es. now left.
Qed.

Lemma full_tier_follows_input_witness :
  ConverterFinal.create_full_schema_statements insertion_order
    (Samples.select_statement ++ [("live" : str, Samples.live_data)])
  = flat_map (fun nd =>
                match full_entry_of insertion_order (fst nd) (snd nd) with
                | Some entry => [(fst nd, entry)]
                | None => []
                end)
             (Samples.select_statement ++ [("live" : str, Samples.live_data)]).
Proof.
  apply (full_tier_follows_input insertion_order
           (Samples.select_statement ++ [("live" : str, Samples.live_data)])).
  vm_compute. repeat constructor; cbn; intuition discriminate.
Defined.

(** ** Type codes and case *)

(** X28. The code of a type does not depend on the case of its letters: two
    type strings that are the same in lower case have the same code. *)
Theorem type_codes_ignore_case (s s' : str) :
  lower s = lower s' ->
  ConverterV3.compress_type s = ConverterV3.compress_type s' /\
  ConverterFinal._compress_type s = ConverterFinal._compress_type s'.
Proof.
  intros H.
  assert (E : ConverterV3.compress_type s = ConverterV3.compress_type s')
    by (rewrite <- (compress_type_lower s), <- (compress_type_lower s');
        now rewrite H).
  split; [exact E|].
  eapply eq_trans; [apply final_compress_type|].
  eapply eq_trans; [exact E|]. symmetry. apply final_compress_type.
Qed.

Lemma type_codes_ignore_case_witness :
  ConverterV3.compress_type "Array<STRING>"
    = ConverterV3.compress_type "array<string>".
Proof.
  apply (type_codes_ignore_case "Array<STRING>" "array<string>").
  reflexivity.
Defined.

(** ** The keywords of a line, in the words of the line *)

Lemma space_not_bracket (w : str) :
  forallb is_space w = true -> forallb Converter.not_bracket w = true.
Proof.
  intros H. apply forallb_forall. intros c Hc.
  apply (proj1 (forallb_forall _ _) H) in Hc. revert Hc.
  destruct c as [[] [] [] [] [] [] [] []]; vm_compute; congruence.
Qed.

(** A match of the pattern of the bracketed spans: the brackets, white space
    on both sides, and the text of the group, without bracket. *)
Lemma optional_pattern_match (b a : str) (mo : mobj) :
  match_here Converter.optional_pattern b a mo ->
  exists w1 w2 a',
    a = "[" ++ w1 ++ group_or_empty 1 mo ++ w2 ++ "]" ++ a' /\
    whole mo = "[" ++ w1 ++ group_or_empty 1 mo ++ w2 ++ "]" /\
    forallb is_space w1 = true /\ forallb is_space w2 = true /\
    forallb Converter.not_bracket (group_or_empty 1 mo) = true /\
    group_or_empty 1 mo <> [].
Proof.
  intros [x [a' [g' [-> [M ->]]]]].
  unfold Converter.optional_pattern, plus, star in M.
  cbn [cat fold_right] in M. inv_matches.
  rewrite consumed_app. unfold group_or_empty. cbn [groups group Nat.eqb whole].
  match goal with
  | E : _ :: ?w1 ++ ?g ++ ?w2 ++ _ :: a' = x ++ a' |- _ =>
      exists w1, w2, a'; split; [reflexivity|]; split;
      [ apply (app_inv_tail a'); rewrite <- E;
        cbn [app list_ascii_of_string];
        repeat (rewrite <- app_assoc; cbn [app]); reflexivity |]
  end.
  repeat split; try assumption.
  match goal with
  | Hl : 1 <= _ |- ?g <> [] => intros Hn; rewrite Hn in Hl; cbn in Hl; lia
  end.
Qed.

(** The text up to the first []]. *)
Lemma close_free_prefix (x y a b : str) :
  forallb Converter.not_bracket x = true ->
  forallb Converter.not_bracket y = true ->
  x ++ "]"%char :: a = y ++ "]"%char :: b -> x = y /\ a = b.
Proof.
  revert y. induction x as [|c x IH]; intros [|d y] Hx Hy E; cbn [app] in E.
  - injection E as ->. now split.
  - injection E as <- _. discriminate Hy.
  - injection E as -> _. discriminate Hx.
  - injection E as -> E. cbn [forallb] in Hx, Hy.
    apply andb_true_iff in Hx. apply andb_true_iff in Hy.
    destruct (IH y (proj2 Hx) (proj2 Hy) E) as [-> ->]. now split.
Qed.

(** A text that neither starts nor ends with white space and that occurs
    in a text with white space at its ends occurs between them. *)
Lemma occurs_between_spaces (w w1 g w2 : str) :
  w <> [] -> (forall c, In c w -> is_space c = false) ->
  forallb is_space w1 = true -> forallb is_space w2 = true ->
  occurs_in w (w1 ++ g ++ w2) -> occurs_in w g.
Proof.
  intros Hne Hns H1 H2 [u [v E]].
  destruct w as [|c w']; [congruence|].
  assert (E1 : u ++ c :: w' ++ v = w1 ++ g ++ w2) by (now rewrite E).
  destruct (space_prefix w1 _ _ _ _ H1 (Hns c (or_introl eq_refl)) E1)
    as [u' [_ E2]].
  destruct (exists_last (l := c :: w')) as [x [d Ex]]; [discriminate|].
  assert (Hd : is_space d = false).
  { apply Hns. rewrite Ex. apply in_app_iff. right. now left. }
  assert (E3 : rev v ++ d :: rev (u' ++ x) = rev w2 ++ rev g).
  { rewrite <- rev_app_distr, <- E2.
    change (u' ++ c :: w' ++ v) with (u' ++ (c :: w') ++ v).
    rewrite Ex, !rev_app_distr. cbn [rev app]. now rewrite <- !app_assoc. }
  assert (H2r : forallb is_space (rev w2) = true).
  { apply forallb_forall. intros e He. apply in_rev in He.
    now apply (proj1 (forallb_forall _ _) H2). }
  destruct (space_prefix _ _ _ _ _ H2r Hd E3) as [q [_ E4]].
  apply (f_equal (@rev ascii)) in E4.
  rewrite rev_involutive, rev_app_distr in E4. cbn [rev] in E4.
  rewrite rev_involutive, <- app_assoc in E4. cbn [app] in E4.
  exists u', (rev q). rewrite <- E4, Ex. now rewrite <- !app_assoc.
Qed.

(** The pattern of the bracketed spans matches at the [[] of a span. *)
Lemma optional_pattern_at_span (b inner post : str) :
  inner <> [] -> forallb Converter.not_bracket inner = true ->
  match_at Converter.optional_pattern b ("[" ++ inner ++ "]" ++ post)
    <> None.
Proof.
  intros Hne Hi.
  eapply (match_at_complete _ _ _ ("]"%char :: rev inner ++ "["%char :: b)
            post).
  unfold Converter.optional_pattern, plus, star. cbn [cat fold_right].
  cbn [app list_ascii_of_string].
  eapply M_seq; [apply M_lit|].
  eapply M_seq; [apply (M_many _ _ _ [])|]; [reflexivity | cbn; lia |].
  eapply M_seq; [apply M_grp; apply (M_many _ _ _ inner)|];
    [assumption | destruct inner; [congruence | cbn; lia] |].
  eapply M_seq; [apply (M_many _ _ _ [])|]; [reflexivity | cbn; lia |].
  eapply M_seq; [apply M_lit|]. apply M_eps.
Qed.

(** The scan passes no span: the characters of a match that are still to be
    passed come after its [[], and none of them is a [[]. *)
Lemma optional_finditer_complete (inner post : str) :
  inner <> [] -> forallb Converter.not_bracket inner = true ->
  forall pre skip b,
    ~ In "["%char (firstn skip (pre ++ "[" ++ inner ++ "]" ++ post)) ->
    exists mo,
      In mo (finditer_from Converter.optional_pattern skip b
               (pre ++ "[" ++ inner ++ "]" ++ post)) /\
      match_here Converter.optional_pattern (rev pre ++ b)
        ("[" ++ inner ++ "]" ++ post) mo.
Proof.
  intros Hne Hi. induction pre as [|c pre IH]; intros skip b Hs.
  - cbn [rev app]. pose proof (optional_pattern_at_span b inner post Hne Hi)
      as M.
    cbn [app list_ascii_of_string] in *.
    destruct skip as [|n]; [|exfalso; apply Hs; now left].
    cbn [finditer_from].
    destruct (match_at Converter.optional_pattern b
                ("["%char :: inner ++ "]"%char :: post)) as [o|] eqn:E;
      [|congruence].
    exists (mk_mobj b o). split; [now left|].
    now apply match_at_match_here.
  - assert (Hstep : forall n,
              ~ In "["%char (firstn n (pre ++ "[" ++ inner ++ "]" ++ post)) ->
              exists mo,
                In mo (finditer_from Converter.optional_pattern n (c :: b)
                         (pre ++ "[" ++ inner ++ "]" ++ post)) /\
                match_here Converter.optional_pattern (rev (c :: pre) ++ b)
                  ("[" ++ inner ++ "]" ++ post) mo).
    { intros n Hn. destruct (IH n (c :: b) Hn) as [mo [Hin Hm]].
      exists mo. split; [assumption|]. cbn [rev].
      now rewrite <- app_assoc. }
    cbn [app finditer_from]. destruct skip as [|n].
    + destruct (match_at Converter.optional_pattern b
                  (c :: pre ++ "[" ++ inner ++ "]" ++ post)) as [o|] eqn:E.
      * apply match_at_match_here, optional_pattern_match in E.
        destruct E as [w1 [w2 [a' [E [Ew [H1 [H2 [Hg _]]]]]]]].
        destruct (Hstep (pred (length (whole (mk_mobj b o)))))
          as [mo [Hin Hm]].
        -- rewrite Ew. cbn [app list_ascii_of_string] in E |- *.
           injection E as _ E. rewrite E.
           cbn [length pred].
           replace (w1 ++ group_or_empty 1 (mk_mobj b o) ++
                    w2 ++ "]"%char :: a')
             with ((w1 ++ group_or_empty 1 (mk_mobj b o) ++ w2 ++ ["]"%char])
                     ++ a')
             by (now rewrite <- !app_assoc).
           replace (length
                      (w1 ++ group_or_empty 1 (mk_mobj b o) ++
                       w2 ++ ["]"%char]))
             with (length
                     (w1 ++ group_or_empty 1 (mk_mobj b o) ++
                      w2 ++ ["]"%char]) + 0) by lia.
           rewrite firstn_app_2, firstn_O, app_nil_r.
           rewrite !in_app_iff. apply space_not_bracket in H1, H2.
           intros [H | [H | [H | [H | []]]]]; try discriminate H;
             [ apply (proj1 (forallb_forall _ _) H1) in H
             | apply (proj1 (forallb_forall _ _) Hg) in H
             | apply (proj1 (forallb_forall _ _) H2) in H ]; discriminate H.
        -- exists mo. split; [now right | assumption].
      * apply Hstep. cbn [firstn]. tauto.
    + apply Hstep. intros H. apply Hs. cbn [app firstn]. now right.
Qed.

(** The texts that the pattern returns are those of the bracketed spans, as
    far as a word can tell: a text without white space at its ends occurs in
    one of the texts returned when it occurs in a bracketed span. *)
Lemma optional_spans_spec (s w : str) :
  w <> [] -> (forall c, In c w -> is_space c = false) ->
  (exists span,
     In span (findall1 Converter.optional_pattern s) /\ occurs_in w span)
  <->
  (exists inner, bracketed_span s inner /\ occurs_in w inner).
Proof.
  intros Hne Hns. split.
  - intros [span [Hin [u [v Eu]]]]. unfold findall1 in Hin.
    apply in_map_iff in Hin. destruct Hin as [mo [<- Hin]].
    apply finditer_In in Hin. destruct Hin as [b [a [-> M]]].
    apply optional_pattern_match in M.
    destruct M as [w1 [w2 [a' [-> [_ [H1 [H2 [Hg _]]]]]]]].
    exists (w1 ++ group_or_empty 1 mo ++ w2). split.
    + exists (rev b), a'. split; [now rewrite <- !app_assoc|].
      rewrite !forallb_app, Hg.
      now rewrite (space_not_bracket _ H1), (space_not_bracket _ H2).
    + exists (w1 ++ u), (v ++ w2). rewrite Eu. now rewrite <- !app_assoc.
  - intros [inner [[pre [post [-> Hi]]] Ho]].
    assert (Hin : inner <> []).
    { destruct Ho as [u [v ->]]. destruct w; [congruence|].
      now destruct u. }
    destruct (optional_finditer_complete inner post Hin Hi pre 0 [])
      as [mo [Hmo M]]; [cbn [firstn]; tauto|].
    apply optional_pattern_match in M.
    destruct M as [w1 [w2 [a' [E [_ [H1 [H2 [Hg _]]]]]]]].
    exists (group_or_empty 1 mo). split.
    + unfold findall1, finditer. now apply in_map.
    + cbn [app list_ascii_of_string] in E. injection E as E.
      replace (w1 ++ group_or_empty 1 mo ++ w2 ++ "]"%char :: a')
        with ((w1 ++ group_or_empty 1 mo ++ w2) ++ "]"%char :: a') in E
        by (now rewrite <- !app_assoc).
      apply close_free_prefix in E; [| assumption |].
      * destruct E as [E _]. rewrite E in Ho.
        now apply (occurs_between_spaces w w1 _ w2).
      * rewrite !forallb_app, Hg.
        now rewrite (space_not_bracket _ H1), (space_not_bracket _ H2).
Qed.

(** The white space at the ends of a line changes neither its runs nor its
    bracketed spans. *)
Lemma head_word_spaces (x w : str) :
  forallb is_space w = true -> head_word x = false ->
  head_word (x ++ w) = false.
Proof.
  intros Hw Hx. destruct x as [|c x]; [|exact Hx]. cbn [app].
  destruct w as [|d w]; [reflexivity|]. cbn [forallb head_word] in *.
  apply andb_true_iff in Hw. destruct Hw as [Hd _].
  destruct (is_word d) eqn:E; [|reflexivity].
  apply word_not_space in E. congruence.
Qed.

Lemma forallb_rev {A : Type} (f : A -> bool) (l : list A) :
  forallb f l = true -> forallb f (rev l) = true.
Proof.
  intros H. apply forallb_forall. intros e He. apply in_rev in He.
  now apply (proj1 (forallb_forall _ _) H).
Qed.

Lemma word_run_unstrip (p : ascii -> bool) (min : nat) (line w : str) :
  word_run p min (strip line) w -> word_run p min line w.
Proof.
  intros [pre [post [E [Hm [Hw [Hb Ha]]]]]].
  destruct (strip_split line) as [w1 [w2 [Es [H1 H2]]]].
  exists (w1 ++ pre), (post ++ w2). repeat split; try assumption.
  - rewrite Es at 1. rewrite E. now rewrite <- !app_assoc.
  - rewrite rev_app_distr. apply head_word_spaces; [|assumption].
    now apply forallb_rev.
  - now apply head_word_spaces.
Qed.

Lemma bracketed_span_strip (line inner : str) :
  bracketed_span line inner <-> bracketed_span (strip line) inner.
Proof.
  destruct (strip_split line) as [w1 [w2 [Es [H1 H2]]]]. split.
  - intros [pre [post [E Hi]]].
    cbn [app list_ascii_of_string] in E.
    assert (E1 : pre ++ "["%char :: inner ++ "]"%char :: post
                 = w1 ++ strip line ++ w2) by (now rewrite <- Es, <- E).
    destruct (space_prefix w1 _ _ _ _ H1 (eq_refl : is_space "[" = false) E1)
      as [pre' [_ E2]].
    assert (E3 : rev post ++ "]"%char :: rev (pre' ++ "["%char :: inner)
                 = rev w2 ++ rev (strip line)).
    { transitivity (rev (strip line ++ w2)); [|apply rev_app_distr].
      rewrite <- E2.
      replace (pre' ++ "["%char :: inner ++ "]"%char :: post)
        with ((pre' ++ "["%char :: inner) ++ "]"%char :: post)
        by (now rewrite <- app_assoc).
      rewrite (rev_app_distr (pre' ++ "["%char :: inner)). cbn [rev].
      now rewrite <- app_assoc. }
    destruct (space_prefix _ _ _ _ _ (forallb_rev _ _ H2)
                (eq_refl : is_space "]" = false) E3) as [q [_ E4]].
    apply (f_equal (@rev ascii)) in E4.
    rewrite rev_involutive, rev_app_distr in E4. cbn [rev] in E4.
    rewrite rev_involutive, <- !app_assoc in E4. cbn [app] in E4.
    exists pre', (rev q). split; [|assumption].
    rewrite <- E4. reflexivity.
  - intros [pre [post [E Hi]]]. exists (w1 ++ pre), (post ++ w2).
    split; [|assumption]. rewrite Es at 1. rewrite E.
    cbn [app list_ascii_of_string]. rewrite <- !app_assoc. cbn [app].
    now rewrite <- !app_assoc.
Qed.

(** C4, as the specification states it, fails for an uppercase run that
    touches a digit, an underscore or a small letter. The line below has no
    bracket at all; [BM] is an uppercase run of it, of length two, and it is
    not a keyword: [USING] is the only one. The pattern [\b[A-Z]{2,}\b] takes
    whole words only. *)
Lemma uppercase_runs_counterexample :
  uppercase_run "USING BM25 ES256 AB_C XMLparser" "BM" /\
  (forall inner,
     ~ bracketed_span "USING BM25 ES256 AB_C XMLparser" inner) /\
  ~ In ("BM" : str)
       (Converter.from_option
          (Converter.keywords
             (Converter.parse_bnf_line "USING BM25 ES256 AB_C XMLparser")))
  /\
  Converter.keywords
    (Converter.parse_bnf_line "USING BM25 ES256 AB_C XMLparser")
    = Some [("USING" : str)].
Proof.
  split; [|split; [|split]].
  - exists ("USING " : str), ("25 ES256 AB_C XMLparser" : str).
    repeat split; vm_compute; reflexivity.
  - intros inner [pre [post [E _]]].
    assert (H : In "["%char
                  ("USING BM25 ES256 AB_C XMLparser" : str)).
    { rewrite E. apply in_app_iff. right. now left. }
    vm_compute in H. intuition discriminate.
  - vm_compute. intuition discriminate.
  - vm_compute. reflexivity.
Qed.

(** C4, amended. The keywords of a line are exactly the uppercase words of
    two letters or more that occur in no bracketed span of the line: the runs
    of two or more letters [A-Z] with no word character (letter, digit or
    underscore) just before nor just after, whose text does not occur in the
    text between a [[] of the line and the []] that closes it, with no
    bracket in between. *)
Theorem keywords_are_whole_runs_outside_brackets (line w : str) :
  In w (Converter.from_option
          (Converter.keywords (Converter.parse_bnf_line line)))
  <->
  word_run is_upper 2 line w /\
  ~ exists inner, bracketed_span line inner /\ occurs_in w inner.
Proof.
  rewrite line_keywords_spec.
  assert (Hrun : word_run is_upper 2 (strip line) w <->
                 word_run is_upper 2 line w).
  { split; [apply word_run_unstrip|].
    apply word_run_strip; [apply is_upper_word | lia]. }
  rewrite Hrun. split; intros [Hw Hs]; (split; [assumption|]).
  - intros [inner [Hb Ho]]. apply bracketed_span_strip in Hb.
    destruct Hw as [_ [_ [_ [Hm [Hp _]]]]].
    destruct (proj2 (optional_spans_spec (strip line) w
                       ltac:(destruct w; [cbn in Hm; lia | discriminate])
                       ltac:(intros c Hc; apply word_not_space, is_upper_word;
                             exact (proj1 (forallb_forall _ _) Hp c Hc)))
                (ex_intro _ inner (conj Hb Ho)))
      as [span [Hin [u [v E]]]].
    apply (Hs span Hin). now exists u, v.
  - intros span Hin [u [v E]]. apply Hs.
    destruct Hw as [_ [_ [_ [Hm [Hp _]]]]].
    destruct (proj1 (optional_spans_spec (strip line) w
                       ltac:(destruct w; [cbn in Hm; lia | discriminate])
                       ltac:(intros c Hc; apply word_not_space, is_upper_word;
                             exact (proj1 (forallb_forall _ _) Hp c Hc)))
                (ex_intro _ span (conj Hin (ex_intro _ u (ex_intro _ v E)))))
      as [inner [Hb Ho]].
    exists inner. split; [|assumption]. now apply bracketed_span_strip.
Qed.
